(** * A shallow embedding of the stoppoint engine, the address types and the
    DWARF cursor of the sdb debugger (libsdb), with the properties of its
    specification settled against it. *)

From Stdlib Require Import ZArith List Bool Lia.
From Stdlib Require Import Sorted Ascii.
Import ListNotations.

Open Scope Z_scope.

(** ** C++ integer arithmetic

    [int] is a 32-bit two's-complement integer, [std::uint64_t] and
    [std::size_t] are 64-bit unsigned integers. A signed value is kept as the
    Z it denotes, an unsigned one as its value in [0, 2^64). Converting an
    [int] to [std::uint64_t] (the usual arithmetic conversions of a mixed
    expression) reduces it modulo 2^64, i.e. sign-extends it. *)
Module CInt.

Definition to_u64 (z : Z) : Z := z mod 2 ^ 64.

(** the value of a 32-bit pattern read as an [int] *)
Definition wrap32s (z : Z) : Z :=
  let m := z mod 2 ^ 32 in if 2 ^ 31 <=? m then m - 2 ^ 32 else m.

(** [x << s] on [int]: the bit pattern shifted, read back as an [int] *)
Definition int_shl (x s : Z) : Z := wrap32s (Z.shiftl x s).

(** [x << s] on [std::uint64_t] *)
Definition u64_shl (x s : Z) : Z := to_u64 (Z.shiftl x s).

End CInt.

Import CInt.

(** ** Containers and bytes *)
Module Util.

(** [v[n] = x] on a [std::vector]; the callers only index in range. *)
Fixpoint replace_nth {A} (l : list A) (n : nat) (x : A) : list A :=
  match l, n with
  | [], _ => []
  | _ :: t, O => x :: t
  | h :: t, S n' => h :: replace_nth t n' x
  end.

(** the value of a little-endian byte sequence ([FromBytes], ptrace
    words) *)
Fixpoint le_value (bs : list Z) : Z :=
  match bs with
  | [] => 0
  | b :: rest => b + 256 * le_value rest
  end.

End Util.

Import Util.

(** ** Debug registers and the hardware stoppoint allocator
    (src/src/process.cpp: [FindFreeStoppointRegister],
    [Process::SetHardwareStoppoint], [Process::ClearHardwareStoppoint]) *)
Module DebugRegs.

(** The part of the register snapshot these functions touch: the address
    registers DR0..DR3 and the control register DR7. *)
Record Regs := mkRegs { dr_addr : list Z; dr7 : Z }.

Inductive Error := NoFreeRegister | InvalidMode | InvalidSize.

(** [Error::Send] aborts the operation; the writes already made stay. *)
Definition M (A : Type) := Regs -> Regs * (Error + A).

Definition ret {A} (a : A) : M A := fun r => (r, inr a).
Definition bind {A B} (m : M A) (k : A -> M B) : M B :=
  fun r => match m r with
           | (r', inl e) => (r', inl e)
           | (r', inr a) => k a r'
           end.
Definition throw {A} (e : Error) : M A := fun r => (r, inl e).

Notation "x <- m ;; k" := (bind m (fun x => k))
  (at level 61, m at next level, right associativity).

(** [registers.ReadByIdAs<std::uint64_t>(RegisterID::dr7)] *)
Definition read_dr7 : M Z := fun r => (r, inr (dr7 r)).
(** [registers.WriteById(RegisterID::dr0 + i, v)] *)
Definition write_dr (i : Z) (v : Z) : M unit :=
  fun r => (mkRegs (replace_nth (dr_addr r) (Z.to_nat i) v) (dr7 r), inr tt).
(** [registers.WriteById(RegisterID::dr7, v)] *)
Definition write_dr7 (v : Z) : M unit :=
  fun r => (mkRegs (dr_addr r) v, inr tt).

Inductive StoppointMode := write | read_write | execute.

(** [EncodeHardwareStoppointMode] *)
Definition EncodeHardwareStoppointMode (m : StoppointMode) : Z :=
  match m with write => 1 | read_write => 3 | execute => 0 end.

(** [EncodeHardwareStoppointSize] *)
Definition EncodeHardwareStoppointSize (size : Z) : M Z :=
  if size =? 1 then ret 0
  else if size =? 2 then ret 1
  else if size =? 4 then ret 3
  else if size =? 8 then ret 2
  else throw InvalidSize.

(** [for (auto i = 0; i < 4; ++i) if ((control & (0b11 << (i * 2))) == 0)
    return i;] then [Error::Send("No remaining hardware debug registers")] *)
Fixpoint find_free_loop (control : Z) (is : list Z) : M Z :=
  match is with
  | [] => throw NoFreeRegister
  | i :: rest =>
      if Z.land control (to_u64 (int_shl 3 (i * 2))) =? 0 then ret i
      else find_free_loop control rest
  end.

Definition FindFreeStoppointRegister (control : Z) : M Z :=
  find_free_loop control [0; 1; 2; 3].

Definition SetHardwareStoppoint (address : Z) (mode : StoppointMode)
    (size : Z) : M Z :=
  control <- read_dr7;;
  free_space <- FindFreeStoppointRegister control;;
  _ <- write_dr free_space address;;
  let mode_flag := EncodeHardwareStoppointMode mode in
  size_flag <- EncodeHardwareStoppointSize size;;
  let enable_bit := int_shl 1 (free_space * 2) in
  let mode_bits := u64_shl mode_flag (free_space * 4 + 16) in
  let size_bits := u64_shl size_flag (free_space * 4 + 18) in
  let clear_mask :=
    Z.lor (int_shl 3 (free_space * 2)) (int_shl 15 (free_space * 4 + 16)) in
  let masked := Z.land control (to_u64 (Z.lnot clear_mask)) in
  let masked :=
    Z.lor masked (Z.lor (Z.lor (to_u64 enable_bit) mode_bits) size_bits) in
  _ <- write_dr7 masked;;
  ret free_space.

Definition ClearHardwareStoppoint (index : Z) : M unit :=
  _ <- write_dr index 0;;
  control <- read_dr7;;
  let clear_mask := Z.lor (int_shl 3 (index * 2)) (int_shl 15 (index + 16)) in
  let masked := Z.land control (to_u64 (Z.lnot clear_mask)) in
  write_dr7 masked.

(** The DR7 layout of the specification, on mathematical integers. *)
Definition spec_clear_mask (i : Z) : Z :=
  Z.lor (Z.shiftl 3 (2 * i)) (Z.shiftl 15 (16 + 4 * i)).

Definition spec_dr7_after_set (control i mode_flag size_flag : Z) : Z :=
  Z.lor (Z.land control (Z.lnot (spec_clear_mask i)))
    (Z.lor (Z.shiftl 1 (2 * i))
       (Z.lor (Z.shiftl mode_flag (16 + 4 * i))
          (Z.shiftl size_flag (18 + 4 * i)))).

(** "the lowest index i whose two enable bits (0b11 << 2i) are both zero" *)
Definition spec_free_slot (control : Z) : option Z :=
  find (fun i => Z.land control (Z.shiftl 3 (2 * i)) =? 0) [0; 1; 2; 3].

(** "00=1, 01=2, 11=4, 10=8" *)
Definition spec_size_flag (size : Z) : Z :=
  if size =? 1 then 0 else if size =? 2 then 1 else if size =? 4 then 3
  else 2.

End DebugRegs.

(** ** Inferior memory and breakpoint sites
    (src/src/process.cpp: [Process::ReadMemory],
    [Process::ReadMemoryWithoutTraps]; src/src/breakpoint_site.cpp;
    src/include/libsdb/stoppoint_collection.hpp: [GetInRegion]) *)
Module Memory.

(** The inferior's address space: one byte per 64-bit address. *)
Definition Mem := Z -> Z.

Definition seqZ (n : nat) : list Z := map Z.of_nat (seq 0 n).

(** [ReadMemory(address, amount)]: [process_vm_readv] over page-sized
    remote chunks that together cover [address, address + amount); the
    splitting does not change the bytes read. *)
Definition ReadMemory (mem : Mem) (address : Z) (amount : nat) : list Z :=
  map (fun k => mem (to_u64 (address + k))) (seqZ amount).

(** [ptrace(PTRACE_PEEKDATA, pid, address)]: the little-endian word *)
Definition peek_data (mem : Mem) (address : Z) : Z :=
  le_value (ReadMemory mem address 8).

(** [ptrace(PTRACE_POKEDATA, pid, address, word)] *)
Definition poke_data (mem : Mem) (address word : Z) : Mem :=
  fun x =>
    let k := to_u64 (x - address) in
    if k <? 8 then Z.land (Z.shiftr word (8 * k)) 255 else mem x.

Record BreakpointSite := mkSite {
  site_id : Z;
  site_address : Z;
  is_enabled : bool;
  is_hardware : bool;
  saved_data : Z
}.

(** [BreakpointSite::IsInRange] *)
Definition IsInRange (low high : Z) (s : BreakpointSite) : bool :=
  (low <=? site_address s) && (site_address s <? high).

(** [StoppointCollection::GetInRegion] *)
Definition GetInRegion (sites : list BreakpointSite) (low high : Z)
    : list BreakpointSite :=
  filter (IsInRange low high) sites.

Definition ReadMemoryWithoutTraps (mem : Mem) (sites : list BreakpointSite)
    (address : Z) (amount : nat) : list Z :=
  let memory := ReadMemory mem address amount in
  let in_region :=
    GetInRegion sites address (to_u64 (address + Z.of_nat amount)) in
  fold_left
    (fun memory site =>
       if negb (is_enabled site) || is_hardware site then memory
       else
         let offset := to_u64 (site_address site - address) in
         replace_nth memory (Z.to_nat offset) (saved_data site))
    in_region memory.

(** The memory effect of [BreakpointSite::Disable] on an enabled software
    site: put the saved byte back as the low byte of the word. *)
Definition disable_software_site (mem : Mem) (s : BreakpointSite) : Mem :=
  let data := peek_data mem (site_address s) in
  poke_data mem (site_address s)
    (Z.lor (Z.land data (Z.lnot 255)) (saved_data s)).

(** [Disable()] on every site of the collection, in its order: only an
    enabled software site touches memory (a hardware one clears a debug
    register, a disabled one returns at once). *)
Definition disable_all (mem : Mem) (sites : list BreakpointSite) : Mem :=
  fold_left
    (fun mem s =>
       if is_enabled s && negb (is_hardware s)
       then disable_software_site mem s else mem)
    sites mem.

(** The saved byte of the last enabled software site at [x], if any. *)
Definition site_byte_at (sites : list BreakpointSite) (x : Z) : option Z :=
  fold_left
    (fun acc s =>
       if is_enabled s && negb (is_hardware s) && (site_address s =? x)
       then Some (saved_data s) else acc)
    sites None.

End Memory.

(** ** Watchpoints
    (src/src/watchpoint.cpp, src/include/libsdb/watchpoint.hpp,
    src/src/process.cpp: [Process::CreateWatchpoint]) *)
Module Watchpoints.
Import Memory.

Record Watchpoint := mkWatchpoint {
  wp_id : Z;
  wp_address : Z;
  wp_mode : DebugRegs.StoppointMode;
  wp_enabled : bool;
  wp_size : Z;
  wp_hw_index : Z;
  data : Z;
  previous_data : Z
}.

Inductive WError := AlignmentError | AlreadyExists.

(** The watchpoint collection of a process and the process-wide id
    counter of [GetNextId]. *)
Record WState := mkWState { watchpoints : list Watchpoint; last_id : Z }.

(** [Watchpoint::Watchpoint]: [if ((address.GetAddress() & size - 1) != 0)
    Error::Send(...)], then [id_ = GetNextId()]; [size - 1] is computed on
    [std::size_t]. *)
Definition make_watchpoint (st : WState) (address : Z)
    (mode : DebugRegs.StoppointMode) (size : Z)
    : WError + (WState * Watchpoint) :=
  if negb (Z.land address (to_u64 (size - 1)) =? 0) then inl AlignmentError
  else
    let id := last_id st + 1 in
    inr (mkWState (watchpoints st) id,
         mkWatchpoint id address mode false size (-1) 0 0).

(** [StoppointCollection::ContainsAddress] *)
Definition contains_address (wps : list Watchpoint) (address : Z) : bool :=
  existsb (fun w => wp_address w =? address) wps.

(** [Process::CreateWatchpoint]: refuse a second watchpoint at an address,
    construct, then [Push] (append to the collection). *)
Definition CreateWatchpoint (st : WState) (address : Z)
    (mode : DebugRegs.StoppointMode) (size : Z)
    : WError + (WState * Watchpoint) :=
  if contains_address (watchpoints st) address then inl AlreadyExists
  else
    match make_watchpoint st address mode size with
    | inl e => inl e
    | inr (st', w) =>
        inr (mkWState (watchpoints st' ++ [w]) (last_id st'), w)
    end.

(** [std::vector::erase] of the first element satisfying [p] *)
Fixpoint erase_first {A} (p : A -> bool) (l : list A) : list A :=
  match l with
  | [] => []
  | x :: rest => if p x then rest else x :: erase_first p rest
  end.

(** A change to the first element satisfying [p] (the stoppoint found by
    [GetById] or [GetByAddress]). *)
Fixpoint update_first {A} (p : A -> bool) (f : A -> A) (l : list A)
    : list A :=
  match l with
  | [] => []
  | x :: rest => if p x then f x :: rest else x :: update_first p f rest
  end.

Definition set_enabled (b : bool) (w : Watchpoint) : Watchpoint :=
  mkWatchpoint (wp_id w) (wp_address w) (wp_mode w) b (wp_size w)
    (wp_hw_index w) (data w) (previous_data w).

(** The operations that change a process's watchpoint collection:
    creation, removal by id or by address ([RemoveById],
    [RemoveByAddress] disable first and erase), and enabling or disabling
    a watchpoint found by id. *)
Inductive wp_step : WState -> WState -> Prop :=
| step_create st address mode size st' w :
    CreateWatchpoint st address mode size = inr (st', w) ->
    wp_step st st'
| step_remove_by_id st id :
    existsb (fun w => wp_id w =? id) (watchpoints st) = true ->
    wp_step st (mkWState (erase_first (fun w => wp_id w =? id)
                            (watchpoints st)) (last_id st))
| step_remove_by_address st address :
    contains_address (watchpoints st) address = true ->
    wp_step st (mkWState (erase_first (fun w => wp_address w =? address)
                            (watchpoints st)) (last_id st))
| step_set_enabled st id b :
    wp_step st (mkWState (update_first (fun w => wp_id w =? id)
                            (set_enabled b) (watchpoints st)) (last_id st)).

Inductive reachable : WState -> Prop :=
| reach_init : reachable (mkWState [] 0)
| reach_step st st' : reachable st -> wp_step st st' -> reachable st'.

(** Modelled from the spec: the body of [Watchpoint::UpdateData], declared
    in src/include/libsdb/watchpoint.hpp and called from
    [Process::WaitOnSignal] but not defined under src/. Section 4.3:
    "reads size bytes from the inferior at the address, stores the current
    value into previous_data, then into data". *)
Definition UpdateData (mem : Mem) (w : Watchpoint) : Watchpoint :=
  let new_data :=
    le_value (ReadMemory mem (wp_address w) (Z.to_nat (wp_size w))) in
  mkWatchpoint (wp_id w) (wp_address w) (wp_mode w) (wp_enabled w)
    (wp_size w) (wp_hw_index w) new_data (data w).

End Watchpoints.

(** ** The DWARF cursor and range lists (src/src/dwarf.cpp: [Cursor],
    [RangeList::Iterator]) *)
Module Dwarf.

(** A [Cursor] is its position: the bytes from [pos_] to the end of its
    span. [FixedInt] copies [sizeof(T)] bytes without a bounds check:
    reading past the span is undefined, [None] here. *)
Definition u8 (c : list Z) : option (Z * list Z) :=
  match c with [] => None | b :: rest => Some (b, rest) end.

Definition u64 (c : list Z) : option (Z * list Z) :=
  if (length c <? 8)%nat then None
  else Some (le_value (firstn 8 c), skipn 8 c).

(** A [RangeList::Iterator]: its base address, [pos_] ([None] for the
    null pointer of the end iterator) and the current entry. All its file
    addresses are bound to the one ELF of the compile unit. *)
Record Iterator := mkIter {
  base_address : Z;
  pos : option (list Z);
  current : Z * Z
}.

(** [constexpr auto base_address_flag = -static_cast<std::int64_t>(0);],
    compared with a [std::uint64_t] *)
Definition base_address_flag : Z := to_u64 (- 0).

(** The [while (true)] loop of [operator++], for a given flag constant;
    each round reads 16 bytes, so [length] of the span bounds the rounds. *)
Fixpoint advance (flag : Z) (fuel : nat) (base : Z) (c : list Z)
    : option Iterator :=
  match fuel with
  | O => None
  | S fuel' =>
      match u64 c with
      | None => None
      | Some (low, c1) =>
          match u64 c1 with
          | None => None
          | Some (high, c2) =>
              if low =? flag then advance flag fuel' high c2
              else if (low =? 0) && (high =? 0) then
                Some (mkIter base None (low, high))
              else
                Some (mkIter base (Some c2)
                        (to_u64 (low + base), to_u64 (high + base)))
          end
      end
  end.

(** [RangeList::Iterator::operator++] *)
Definition incr (it : Iterator) : option Iterator :=
  match pos it with
  | None => None
  | Some c => advance base_address_flag (length c) (base_address it) c
  end.

(** [RangeList::Begin]: the constructor primes the first entry. *)
Definition Begin (data : list Z) (base : Z) : option Iterator :=
  incr (mkIter base (Some data) (0, 0)).

(** The iterator of the specification (section 4.5): the base-address
    selection entry is flagged by the all-ones low value. *)
Definition spec_range_flag : Z := 2 ^ 64 - 1.

Definition spec_incr (it : Iterator) : option Iterator :=
  match pos it with
  | None => None
  | Some c => advance spec_range_flag (length c) (base_address it) c
  end.

Definition spec_begin (data : list Z) (base : Z) : option Iterator :=
  spec_incr (mkIter base (Some data) (0, 0)).

(** The do-while loop of [Cursor::sleb128]: returns the accumulated
    [result], [shift], the last [byte] read and the cursor after it.
    [masked << shift] with [shift >= 64] is undefined: [None]. *)
Fixpoint sleb_loop (result shift : Z) (c : list Z)
    : option (Z * Z * Z * list Z) :=
  match c with
  | [] => None
  | byte :: rest =>
      let masked := Z.land byte 127 in
      if 64 <=? shift then None
      else
        let result := Z.lor result (u64_shl masked shift) in
        let shift := shift + 7 in
        if Z.land byte 128 =? 0 then Some (result, shift, byte, rest)
        else sleb_loop result shift rest
  end.

(** a [std::uint64_t] returned as [std::int64_t] *)
Definition to_s64 (z : Z) : Z := if 2 ^ 63 <=? z then z - 2 ^ 64 else z.

(** [Cursor::sleb128]; [~static_cast<std::int64_t>(0) << shift] is
    [-2^shift], converted to [std::uint64_t] by [|=]. *)
Definition sleb128 (c : list Z) : option (Z * list Z) :=
  match sleb_loop 0 0 c with
  | None => None
  | Some (result, shift, byte, rest) =>
      let result :=
        if (shift <? 64) && negb (Z.land byte 64 =? 0)
        then Z.lor result (to_u64 (Z.shiftl (-1) shift))
        else result in
      Some (to_s64 result, rest)
  end.

(** A signed LEB128 encoding: bytes, each but the last with its high bit
    set, the last with it clear. *)
Fixpoint is_sleb_encoding (bs : list Z) : bool :=
  match bs with
  | [] => false
  | [b] => (0 <=? b) && (b <? 256) && (Z.land b 128 =? 0)
  | b :: rest =>
      (0 <=? b) && (b <? 256) && negb (Z.land b 128 =? 0)
      && is_sleb_encoding rest
  end.

(** the 7-bit groups, little-endian *)
Fixpoint groups_value (bs : list Z) : Z :=
  match bs with
  | [] => 0
  | b :: rest => Z.land b 127 + 128 * groups_value rest
  end.

(** the mathematical value of a signed LEB128 encoding: the groups read as
    a two's-complement number of [7 * length] bits *)
Definition sleb_value (bs : list Z) : Z :=
  let w := 7 * Z.of_nat (length bs) in
  if Z.testbit (groups_value bs) (w - 1)
  then groups_value bs - 2 ^ w else groups_value bs.

End Dwarf.

(** ** ELF images and the address types (src/src/types.cpp,
    src/src/elf.cpp: [Elf::GetSectionContainingAddress]) *)
Module Addresses.

Record Section := mkSection { sh_addr : Z; sh_size : Z }.

(** An ELF object: [elf_id] is its identity (the pointer [FileAddress]
    keeps), with its section headers and load bias. *)
Record Elf := mkElf {
  elf_id : Z;
  section_headers : list Section;
  load_bias : Z
}.

Record FileAddress := mkFileAddress { fa_elf : option Elf; fa_addr : Z }.

(** [FileAddress()]: [elf_ = nullptr], [addr_ = 0]; [VirtualAddress{}] is
    the address 0. *)
Definition null_file_address : FileAddress := mkFileAddress None 0.
Definition null_virtual_address : Z := 0.

(** [file_addr.ElfFile() != this] *)
Definition same_elf (p : option Elf) (e : Elf) : bool :=
  match p with Some e' => elf_id e' =? elf_id e | None => false end.

(** [GetSectionContainingAddress(FileAddress)] *)
Definition section_containing_file (e : Elf) (fa : FileAddress)
    : option Section :=
  if negb (same_elf (fa_elf fa) e) then None
  else
    find (fun s => (sh_addr s <=? fa_addr fa)
                   && (fa_addr fa <? to_u64 (sh_addr s + sh_size s)))
      (section_headers e).

(** [GetSectionContainingAddress(VirtualAddress)]: [load_bias_ +
    section.sh_addr] is a [VirtualAddress] sum, wrapping *)
Definition section_containing_virtual (e : Elf) (v : Z) : option Section :=
  find (fun s =>
          (to_u64 (load_bias e + sh_addr s) <=? v)
          && (v <? to_u64 (to_u64 (load_bias e + sh_addr s) + sh_size s)))
    (section_headers e).

(** [FileAddress::ToVirtualAddress(obj)]; [None] is the failed
    [assert(elf_)] *)
Definition ToVirtualAddress (fa : FileAddress) (obj : Elf) : option Z :=
  match fa_elf fa with
  | None => None
  | Some e =>
      match section_containing_file e fa with
      | None => Some null_virtual_address
      | Some _ => Some (to_u64 (fa_addr fa + load_bias e))
      end
  end.

(** [VirtualAddress::ToFileAddress(obj)] *)
Definition ToFileAddress (v : Z) (obj : Elf) : FileAddress :=
  match section_containing_virtual obj v with
  | None => null_file_address
  | Some _ => mkFileAddress (Some obj) (to_u64 (v - load_bias obj))
  end.

End Addresses.

(** ** Stop reasons (src/src/process.cpp: [StopReason::StopReason],
    src/include/libsdb/process.hpp) *)
Module StopReasons.

Inductive ProcessState := Running | Stopped | Exited | Terminated.

Inductive TrapType :=
  SingleStep | SoftwareBreakpoint | HardwareBreakpoint | Syscall | Unknown.

Record SyscallInformation := mkSyscallInformation {
  sc_id : Z; sc_entry : bool; sc_args : list Z; sc_return_value : Z
}.

(** A member of scalar type without initializer: indeterminate until a
    constructor assigns it. *)
Inductive Field (A : Type) := Indeterminate | Init (a : A).
Arguments Indeterminate {A}.
Arguments Init {A} a.

(** [reason] and [info] have no initializer; the [std::optional] members
    start empty. *)
Record StopReason := mkStopReason {
  reason : Field ProcessState;
  info : Field Z;
  trap_reason : option TrapType;
  syscall_info : option SyscallInformation
}.

(** The glibc wait-status macros (bits/waitstatus.h). [status] is an
    [int]; [(signed char)] keeps 8 bits as a signed value. *)
Definition wrap8s (z : Z) : Z :=
  let m := z mod 256 in if 128 <=? m then m - 256 else m.
Definition WEXITSTATUS (status : Z) : Z := Z.shiftr (Z.land status 65280) 8.
Definition WTERMSIG (status : Z) : Z := Z.land status 127.
Definition WSTOPSIG (status : Z) : Z := WEXITSTATUS status.
Definition WIFEXITED (status : Z) : bool := WTERMSIG status =? 0.
Definition WIFSIGNALED (status : Z) : bool :=
  0 <? Z.shiftr (wrap8s (Z.land status 127 + 1)) 1.
Definition WIFSTOPPED (status : Z) : bool := Z.land status 255 =? 127.
Definition W_CONTINUED : Z := 65535.

(** [StopReason::StopReason(int wait_status)]; [info] is a
    [std::uint8_t]. *)
Definition make_stop_reason (wait_status : Z) : StopReason :=
  let empty := mkStopReason Indeterminate Indeterminate None None in
  if WIFEXITED wait_status then
    mkStopReason (Init Exited) (Init (WEXITSTATUS wait_status mod 256))
      None None
  else if WIFSIGNALED wait_status then
    mkStopReason (Init Terminated) (Init (WTERMSIG wait_status mod 256))
      None None
  else if WIFSTOPPED wait_status then
    mkStopReason (Init Stopped) (Init (WSTOPSIG wait_status mod 256))
      None None
  else empty.

End StopReasons.


(** ** Writing inferior memory and enabling breakpoint sites
    (src/src/process.cpp: [Process::ReadMemory]'s remote iovecs,
    [Process::WriteMemory]; src/src/breakpoint_site.cpp:
    [BreakpointSite::Enable], [BreakpointSite::Disable]) *)
Module MemoryOps.
Import Memory.

(** The remote iovecs [(base, length)] built by the loop of
    [Process::ReadMemory]: [up_to_next_page = 0x1000 - (address & 0xfff)],
    [chunk_size = std::min(amount, up_to_next_page)], then
    [amount -= chunk_size; address += chunk_size] (a [VirtualAddress],
    so modulo 2^64). Each round takes at least one byte, so [amount]
    rounds are enough. *)
Fixpoint read_chunks (fuel : nat) (address amount : Z) : list (Z * Z) :=
  match fuel with
  | O => []
  | S fuel' =>
      if 0 <? amount then
        let up_to_next_page := 4096 - Z.land address 4095 in
        let chunk_size := Z.min amount up_to_next_page in
        (address, chunk_size)
          :: read_chunks fuel' (to_u64 (address + chunk_size))
               (amount - chunk_size)
      else []
  end.

Definition ReadMemory_descs (address : Z) (amount : nat) : list (Z * Z) :=
  read_chunks amount address (Z.of_nat amount).

(** The loop of [Process::WriteMemory], [written] bytes already written:
    a whole word from [data] when 8 bytes remain, otherwise the remaining
    bytes followed by the bytes [ReadMemory(address + written, 8)] reads
    after them; each word goes out with [PTRACE_POKEDATA] at
    [address + written]. The loop runs at most [data.Size()] rounds. *)
Fixpoint write_loop (fuel : nat) (mem : Mem) (address : Z) (data : list Z)
    (written : nat) : Mem :=
  match fuel with
  | O => mem
  | S fuel' =>
      if (written <? length data)%nat then
        let remaining := (length data - written)%nat in
        let at_ := to_u64 (address + Z.of_nat written) in
        let word :=
          if (8 <=? remaining)%nat then le_value (firstn 8 (skipn written data))
          else
            let read := ReadMemory mem at_ 8 in
            le_value (firstn remaining (skipn written data)
                      ++ skipn remaining read) in
        write_loop fuel' (poke_data mem at_ word) address data (written + 8)
      else mem
  end.

(** [Process::WriteMemory(address, data)] *)
Definition WriteMemory (mem : Mem) (address : Z) (data : list Z) : Mem :=
  write_loop (length data) mem address data 0.

Definition with_enabled (s : BreakpointSite) (b : bool) (saved : Z)
    : BreakpointSite :=
  mkSite (site_id s) (site_address s) b (is_hardware s) saved.

(** [BreakpointSite::Enable], its effect on memory and on the site: a
    software site saves the low byte of the word at its address and writes
    [int3] (0xcc) there; a hardware site takes a debug register
    ([Process::SetHardwareBreakpoint], see [DebugRegs]) and leaves memory
    alone. *)
Definition Enable (mem : Mem) (s : BreakpointSite) : Mem * BreakpointSite :=
  if is_enabled s then (mem, s)
  else if is_hardware s then (mem, with_enabled s true (saved_data s))
  else
    let data := peek_data mem (site_address s) in
    let saved := Z.land data 255 in
    let data_with_int3 := Z.lor (Z.land data (Z.lnot 255)) 204 in
    (poke_data mem (site_address s) data_with_int3,
     with_enabled s true saved).

(** [BreakpointSite::Disable], its effect on memory and on the site *)
Definition Disable (mem : Mem) (s : BreakpointSite) : Mem * BreakpointSite :=
  if negb (is_enabled s) then (mem, s)
  else if is_hardware s then (mem, with_enabled s false (saved_data s))
  else (disable_software_site mem s, with_enabled s false (saved_data s)).

(** [Enable()] or [Disable()] on the [i]-th site of the collection (as
    [GetById] or [GetByAddress] finds it and [Process::Resume] or
    [StepInstruction] re-enables it). *)
Definition on_site (op : Mem -> BreakpointSite -> Mem * BreakpointSite)
    (mem : Mem) (sites : list BreakpointSite) (i : nat)
    : Mem * list BreakpointSite :=
  match nth_error sites i with
  | None => (mem, sites)
  | Some s => let (mem', s') := op mem s in (mem', replace_nth sites i s')
  end.

End MemoryOps.

(** ** More of the DWARF reader (src/src/dwarf.cpp: [Cursor::uleb128],
    [Cursor::String], the [DW_FORM_string] case of [Cursor::SkipForm],
    [ParseCompileUnit], [ParseCompileUnits], [RangeList::Contains];
    src/include/libsdb/dwarf.hpp: [RangeList::Entry::Contains]) *)
Module DwarfOps.
Import Dwarf.

(** [FixedInt<T>] for a [T] of [n] bytes, little-endian *)
Definition fixed (n : nat) (c : list Z) : option (Z * list Z) :=
  if (length c <? n)%nat then None
  else Some (le_value (firstn n c), skipn n c).

(** [Cursor::uleb128]: the do-while loop of [sleb128] ([sleb_loop]), and
    the accumulated [result] as it stands *)
Definition uleb128 (c : list Z) : option (Z * list Z) :=
  match sleb_loop 0 0 c with
  | None => None
  | Some (result, _, _, rest) => Some (result, rest)
  end.

(** [Cursor::String]: the bytes from [pos_] to the first 0 byte (or to the
    end of the span) and the cursor one past that point; [None] when that
    is past the end of the span (no terminator). *)
Fixpoint String (c : list Z) : list Z * option (list Z) :=
  match c with
  | [] => ([], None)
  | b :: rest =>
      if b =? 0 then ([], Some rest)
      else let (s, c') := String rest in (b :: s, c')
  end.

(** [while (!IsFinished() && *pos_ != std::byte{0}) ++pos_;] *)
Fixpoint skip_nonzero (c : list Z) : list Z :=
  match c with
  | [] => []
  | b :: rest => if b =? 0 then c else skip_nonzero rest
  end.

(** the [DW_FORM_string] case of [SkipForm]: the loop, then [++pos_] *)
Definition skip_string (c : list Z) : option (list Z) :=
  match skip_nonzero c with
  | [] => None
  | _ :: rest => Some rest
  end.

Inductive DwarfError := OnlyDwarf32 | OnlyVersion4 | InvalidAddressSize.

(** a computation that returns, fails with [Error::Send], has undefined
    behaviour (a read past the span) or has not finished within the fuel *)
Inductive Outcome (A : Type) :=
| Done (a : A)
| Failed (e : DwarfError)
| Undefined
| OutOfFuel.
Arguments Done {A} a.
Arguments Failed {A} e.
Arguments Undefined {A}.
Arguments OutOfFuel {A}.

(** [ParseCompileUnit]: the abbreviation offset and the size of the unit's
    span; [size] is a [std::uint32_t], so [size += 4] wraps. *)
Definition ParseCompileUnit (c : list Z) : Outcome (Z * Z) :=
  match fixed 4 c with
  | None => Undefined
  | Some (size, c1) =>
      match fixed 2 c1 with
      | None => Undefined
      | Some (version, c2) =>
          match fixed 4 c2 with
          | None => Undefined
          | Some (abbrev, c3) =>
              match u8 c3 with
              | None => Undefined
              | Some (addr_size, _) =>
                  if size =? 4294967295 then Failed OnlyDwarf32
                  else if negb (version =? 4) then Failed OnlyVersion4
                  else if negb (addr_size =? 8) then Failed InvalidAddressSize
                  else Done (abbrev, (size + 4) mod 2 ^ 32)
              end
          end
      end
  end.

Record CompileUnit := mkCU { cu_abbrev : Z; cu_data : list Z }.

(** The loop of [ParseCompileUnits]: [while (!cursor.IsFinished())], parse
    a unit at the cursor, [cursor += unit->Data().Size()] (past the end of
    the span: undefined). *)
Fixpoint units_loop (fuel : nat) (c : list Z) : Outcome (list CompileUnit) :=
  match fuel with
  | O => OutOfFuel
  | S fuel' =>
      match c with
      | [] => Done []
      | _ :: _ =>
          match ParseCompileUnit c with
          | Failed e => Failed e
          | Undefined => Undefined
          | OutOfFuel => OutOfFuel
          | Done (abbrev, size) =>
              if Z.of_nat (length c) <? size then Undefined
              else
                match units_loop fuel' (skipn (Z.to_nat size) c) with
                | Done units =>
                    Done (mkCU abbrev (firstn (Z.to_nat size) c) :: units)
                | Failed e => Failed e
                | Undefined => Undefined
                | OutOfFuel => OutOfFuel
                end
          end
      end
  end.

(** [RangeList::Entry::Contains] *)
Definition entry_contains (e : Z * Z) (address : Z) : bool :=
  (fst e <=? address) && (address <? snd e).

(** [std::any_of(Begin(), End(), ...)]: stop at the end iterator ([pos_]
    null) or at an entry containing the address; [incr] reads at least 16
    bytes per step, so [fuel] the length of the data is enough. *)
Fixpoint contains_loop (fuel : nat) (it : Iterator) (address : Z)
    : option bool :=
  match pos it with
  | None => Some false
  | Some _ =>
      if entry_contains (current it) address then Some true
      else
        match fuel with
        | O => None
        | S fuel' =>
            match incr it with
            | None => None
            | Some it' => contains_loop fuel' it' address
            end
        end
  end.

(** [RangeList::Contains]; [None] is a read past the end of the data *)
Definition Contains (data : list Z) (base address : Z) : option bool :=
  match Begin data base with
  | None => None
  | Some it => contains_loop (length data) it address
  end.

End DwarfOps.

(** ** Abbreviation tables (src/src/dwarf.cpp: [ParseAbbrevTable];
    src/include/libsdb/dwarf.hpp: [AttrSpec], [Abbrev]) *)
Module DwarfAbbrev.
Import Dwarf DwarfOps.

Record AttrSpec := mkAttrSpec { attr : Z; form : Z }.

Record Abbrev := mkAbbrev {
  ab_code : Z;
  ab_tag : Z;
  ab_has_children : bool;
  ab_attr_specs : list AttrSpec
}.

(** the inner [do ... while (attr != 0)] loop: read [attr] and [form],
    keep the pair unless [attr] is 0; each round reads at least two bytes *)
Fixpoint read_specs (fuel : nat) (c : list Z)
    : Outcome (list AttrSpec * list Z) :=
  match fuel with
  | O => OutOfFuel
  | S fuel' =>
      match uleb128 c with
      | None => Undefined
      | Some (a, c1) =>
          match uleb128 c1 with
          | None => Undefined
          | Some (f, c2) =>
              if a =? 0 then Done ([], c2)
              else
                match read_specs fuel' c2 with
                | Done (specs, c3) => Done (mkAttrSpec a f :: specs, c3)
                | Failed e => Failed e
                | Undefined => Undefined
                | OutOfFuel => OutOfFuel
                end
          end
      end
  end.

(** [std::unordered_map::emplace]: nothing happens when the key is there *)
Definition emplace (code : Z) (ab : Abbrev) (table : list (Z * Abbrev))
    : list (Z * Abbrev) :=
  if existsb (fun e => fst e =? code) table then table
  else table ++ [(code, ab)].

(** the outer [do ... while (code != 0)] loop: an entry's code, tag,
    children flag ([static_cast<bool>] of a [u8]) and attribute
    specifications are all read before [code] is tested *)
Fixpoint abbrev_loop (fuel : nat) (c : list Z) (table : list (Z * Abbrev))
    : Outcome (list (Z * Abbrev)) :=
  match fuel with
  | O => OutOfFuel
  | S fuel' =>
      match uleb128 c with
      | None => Undefined
      | Some (code, c1) =>
          match uleb128 c1 with
          | None => Undefined
          | Some (tag, c2) =>
              match u8 c2 with
              | None => Undefined
              | Some (children, c3) =>
                  match read_specs (S (length c3)) c3 with
                  | Done (specs, c4) =>
                      let table :=
                        if code =? 0 then table
                        else emplace code
                               (mkAbbrev code tag (negb (children =? 0)) specs)
                               table in
                      if code =? 0 then Done table
                      else abbrev_loop fuel' c4 table
                  | Failed e => Failed e
                  | Undefined => Undefined
                  | OutOfFuel => OutOfFuel
                  end
              end
          end
      end
  end.

(** [ParseAbbrevTable(elf, offset)] on the contents of [.debug_abbrev];
    [cursor += offset] past the end of the section is undefined. *)
Definition ParseAbbrevTable (debug_abbrev : list Z) (offset : nat)
    : Outcome (list (Z * Abbrev)) :=
  if (length debug_abbrev <? offset)%nat then Undefined
  else abbrev_loop (S (length debug_abbrev)) (skipn offset debug_abbrev) [].

End DwarfAbbrev.

(** ** The symbol address map of an ELF file (src/src/elf.cpp:
    [Elf::BuildSymbolMaps], [Elf::GetSymbolAtAddress],
    [Elf::GetSymbolContainingAddress]; src/include/libsdb/elf.hpp:
    [RangeComparator]) *)
Module Symbols.
Import Addresses.

(** the fields of an [Elf64_Sym] these functions read; [st_tls] is
    [ELF64_ST_TYPE(st_info) == STT_TLS] *)
Record Sym := mkSym { st_name : Z; st_value : Z; st_size : Z; st_tls : bool }.

(** An entry of [symbol_addr_map_]: the key [(start, end)] and the symbol,
    as its index in [symbol_table_]. The map is ordered by [RangeComparator],
    which compares the starts only. *)
Definition SymEntry := ((Z * Z) * nat)%type.

(** [std::map::insert]: nothing changes when a key with the same start is
    already there *)
Fixpoint map_insert (k : Z * Z) (v : nat) (m : list SymEntry)
    : list SymEntry :=
  match m with
  | [] => [(k, v)]
  | (k', v') :: rest =>
      if fst k <? fst k' then (k, v) :: m
      else if fst k =? fst k' then m
      else (k', v') :: map_insert k v rest
  end.

(** [symbol.st_value != 0 && symbol.st_name != 0 &&
    ELF64_ST_TYPE(symbol.st_info) != STT_TLS] *)
Definition eligible (s : Sym) : bool :=
  negb (st_value s =? 0) && negb (st_name s =? 0) && negb (st_tls s).

(** the part of the loop of [BuildSymbolMaps] that fills
    [symbol_addr_map_]; the end is [st_value + st_size] on
    [std::uint64_t] *)
Fixpoint build_loop (i : nat) (table : list Sym) (m : list SymEntry)
    : list SymEntry :=
  match table with
  | [] => m
  | s :: rest =>
      let m :=
        if eligible s
        then map_insert (st_value s, to_u64 (st_value s + st_size s)) i m
        else m in
      build_loop (S i) rest m
  end.

Definition BuildSymbolAddrMap (table : list Sym) : list SymEntry :=
  build_loop 0 table [].

(** [std::map::find] of the key [{file_addr, null_addr}] *)
Definition map_find (a : Z) (m : list SymEntry) : option SymEntry :=
  find (fun e => fst (fst e) =? a) m.

(** [Elf::GetSymbolAtAddress(FileAddress)] *)
Definition GetSymbolAtAddress (e : Elf) (m : list SymEntry) (fa : FileAddress)
    : option nat :=
  if negb (same_elf (fa_elf fa) e) then None
  else
    match map_find (fa_addr fa) m with
    | None => None
    | Some (_, i) => Some i
    end.

(** [lower_bound] followed by the checks of [GetSymbolContainingAddress];
    [prev] is the entry before the current one ([--it]) *)
Fixpoint containing_loop (prev : option SymEntry) (a : Z) (m : list SymEntry)
    : option nat :=
  let check_prev :=
    match prev with
    | Some ((lo, hi), i) => if (lo <? a) && (hi >? a) then Some i else None
    | None => None
    end in
  match m with
  | [] => check_prev
  | ((lo, hi), i) :: rest =>
      if a <=? lo then (if lo =? a then Some i else check_prev)
      else containing_loop (Some ((lo, hi), i)) a rest
  end.

(** [Elf::GetSymbolContainingAddress(FileAddress)] *)
Definition GetSymbolContainingAddress (e : Elf) (m : list SymEntry)
    (fa : FileAddress) : option nat :=
  if negb (same_elf (fa_elf fa) e) then None
  else
    match m with
    | [] => None
    | _ :: _ => containing_loop None (fa_addr fa) m
    end.

End Symbols.

(** ** Syscall stops (src/src/process.cpp: [Process::AugmentStopReason]) *)
Module Syscalls.
Import StopReasons.

(** the registers [AugmentStopReason] reads, as [std::uint64_t] *)
Record SysRegs := mkSysRegs {
  orig_rax : Z; rax : Z; rdi : Z; rsi : Z; rdx : Z; r10 : Z; r8 : Z; r9 : Z
}.

Definition SIGTRAP : Z := 5.
Definition TRAP_TRACE : Z := 2.
Definition TRAP_HWBKPT : Z := 4.
Definition SI_KERNEL : Z := 128.

(** [Process::AugmentStopReason]; [expecting] is [expecting_syscall_exit_]
    and the result carries its new value. [syscall_info.emplace()]
    zero-initialises the [SyscallInformation]; [return_value] shares its
    storage with [args[0]]; [id] is a [std::uint16_t]. Reading [info]
    before a constructor assigned it is undefined ([None]). *)
Definition AugmentStopReason (expecting : bool) (si_code : Z) (regs : SysRegs)
    (r : StopReason) : option (bool * StopReason) :=
  match info r with
  | Indeterminate => None
  | Init i =>
      if i =? Z.lor SIGTRAP 128 then
        let sys_info :=
          if expecting then
            mkSyscallInformation (orig_rax regs mod 2 ^ 16) false
              [rax regs; 0; 0; 0; 0; 0] (rax regs)
          else
            mkSyscallInformation (orig_rax regs mod 2 ^ 16) true
              [rdi regs; rsi regs; rdx regs; r10 regs; r8 regs; r9 regs]
              (rdi regs) in
        Some (negb expecting,
              mkStopReason (reason r) (Init SIGTRAP) (Some Syscall)
                (Some sys_info))
      else
        let trap :=
          if i =? SIGTRAP then
            if si_code =? TRAP_TRACE then SingleStep
            else if si_code =? SI_KERNEL then SoftwareBreakpoint
            else if si_code =? TRAP_HWBKPT then HardwareBreakpoint
            else Unknown
          else Unknown in
        Some (false,
              mkStopReason (reason r) (Init i) (Some trap) (syscall_info r))
  end.

(** [AugmentStopReason] on successive stops, from a given
    [expecting_syscall_exit_] *)
Fixpoint augment_run (expecting : bool)
    (stops : list (Z * SysRegs * StopReason)) : option (list StopReason) :=
  match stops with
  | [] => Some []
  | (si_code, regs, r) :: rest =>
      match AugmentStopReason expecting si_code regs r with
      | None => None
      | Some (expecting', r') =>
          match augment_run expecting' rest with
          | None => None
          | Some rs => Some (r' :: rs)
          end
      end
  end.

End Syscalls.

(** ** The byte-vector argument of [mem write] (src/include/libsdb/parse.hpp:
    [ToIntegral<std::byte>], [ParseVector]; src/tools/sdb.cpp:
    [HandleMemoryWriteCommand]) *)
Module CliParse.
Import StopReasons.

(** [*c] on the [std::string_view] of a [std::string] argument: the
    characters, then the string's terminating NUL; reading further is
    undefined ([None]). *)
Definition char_at (text : list ascii) (i : nat) : option ascii :=
  nth_error (text ++ [zero]) i.

(** the characters [{c, n}], each [None] if reading it is undefined *)
Definition window (text : list ascii) (c n : nat) : list (option ascii) :=
  map (fun k => char_at text (c + k)) (seq 0 n).

(** a base-16 digit of [std::from_chars] *)
Definition hex_digit (ch : ascii) : option Z :=
  let n := Z.of_nat (nat_of_ascii ch) in
  if (48 <=? n) && (n <=? 57) then Some (n - 48)
  else if (97 <=? n) && (n <=? 102) then Some (n - 87)
  else if (65 <=? n) && (n <=? 70) then Some (n - 55)
  else None.

(** [std::from_chars(first, last, value, 16)] for an unsigned type: the
    longest run of digits, its value, their number and the characters from
    the first one not matched ([ptr]); [None] if a character read is past
    the terminator. *)
Fixpoint from_chars_hex (w : list (option ascii)) (acc : Z) (nd : nat)
    : option (Z * nat * list (option ascii)) :=
  match w with
  | [] => Some (acc, nd, [])
  | None :: _ => None
  | Some ch :: rest =>
      match hex_digit ch with
      | None => Some (acc, nd, w)
      | Some d => from_chars_hex rest (acc * 16 + d) (S nd)
      end
  end.

(** the [from_chars] call of [ToIntegral<std::uint8_t>(sv, 16)] on the
    characters after the optional [0x]: no digit leaves [ptr] at the
    start, so [std::nullopt] unless that is the end (then [ret] is
    returned uninitialised); characters left over give [std::nullopt]; a
    value above 255 is out of range and leaves [ret] uninitialised. *)
Definition to_u8_hex (w : list (option ascii))
    : option (option (Field Z)) :=
  match from_chars_hex w 0 0 with
  | None => None
  | Some (v, nd, rest) =>
      if (nd =? 0)%nat then
        match w with [] => Some (Some Indeterminate) | _ => Some None end
      else match rest with
           | _ :: _ => Some None
           | [] => if 255 <? v then Some (Some Indeterminate)
                   else Some (Some (Init v))
           end
  end.

(** [ToIntegral<std::byte>(sv, 16)]: skip a leading [0x]
    ([sv.size() > 1 && begin[0] == '0' && begin[1] == 'x']), then
    [ToIntegral<std::uint8_t>]. [None] is undefined behaviour, [Some None]
    is [std::nullopt]. *)
Definition ToIntegral_byte16 (w : list (option ascii))
    : option (option (Field Z)) :=
  match w with
  | None :: _ => None
  | Some c0 :: rest0 =>
      if Ascii.eqb c0 "0"%char then
        match rest0 with
        | None :: _ => None
        | Some c1 :: rest1 =>
            if Ascii.eqb c1 "x"%char then to_u8_hex rest1 else to_u8_hex w
        | [] => to_u8_hex w
        end
      else to_u8_hex w
  | [] => to_u8_hex w
  end.

(** how [ParseVector] ends: the bytes, [Error::Send("Invalid format")],
    [std::bad_optional_access] from [.value()], undefined behaviour, or
    not finished within the fuel *)
Inductive Parsed :=
| PDone (bytes : list (Field Z))
| PInvalid
| PBadOptional
| PUndefined
| PNoFuel.

(** the [while ( *c != ']')] loop of [ParseVector], [c] the index of [c],
    then [if (++c != text.end()) invalid();] *)
Fixpoint pv_loop (fuel : nat) (text : list ascii) (c : nat)
    (bytes : list (Field Z)) : Parsed :=
  match fuel with
  | O => PNoFuel
  | S fuel' =>
      match char_at text c with
      | None => PUndefined
      | Some ch =>
          if Ascii.eqb ch "]"%char then
            if (S c =? length text)%nat then PDone bytes else PInvalid
          else
            match ToIntegral_byte16 (window text c 4) with
            | None => PUndefined
            | Some None => PBadOptional
            | Some (Some b) =>
                match char_at text (c + 4) with
                | None => PUndefined
                | Some ch' =>
                    if Ascii.eqb ch' ","%char
                    then pv_loop fuel' text (S (c + 4)) (bytes ++ [b])
                    else if Ascii.eqb ch' "]"%char
                    then pv_loop fuel' text (c + 4) (bytes ++ [b])
                    else PInvalid
                end
            end
      end
  end.

(** [ParseVector(text)]: [if ( *c++ != '[') invalid();], then the loop; each
    round moves [c] by at least 4 or ends, so [length text + 1] rounds are
    enough. *)
Definition ParseVector (text : list ascii) : Parsed :=
  match char_at text 0 with
  | None => PUndefined
  | Some ch =>
      if Ascii.eqb ch "["%char then pv_loop (S (length text)) text 1 []
      else PInvalid
  end.

End CliParse.

(** ** Facts about the allocator *)
Module DebugRegsFacts.
Import DebugRegs.

Lemma land_low32 (c k1 k2 : Z) :
  0 <= c < 2 ^ 32 -> k1 mod 2 ^ 32 = k2 mod 2 ^ 32 ->
  Z.land c k1 = Z.land c k2.
Proof.
  intros Hc Hk.
  rewrite <- (Z.mod_small c (2 ^ 32)) by lia.
  rewrite <- !Z.land_ones by lia.
  rewrite <- !Z.land_assoc, !(Z.land_comm (Z.ones 32)), !Z.land_ones by lia.
  now rewrite Hk.
Qed.

(** Closes [(mkRegs d x, r) = (mkRegs d y, r)] where [x] and [y] are
    [Z.lor (Z.land control k) c] with closed [k], [c] agreeing on the
    bits that matter. *)
Ltac dr7_congr Hc :=
  apply (f_equal2 pair); [| reflexivity];
  apply (f_equal2 mkRegs); [reflexivity |];
  unfold spec_dr7_after_set; apply (f_equal2 Z.lor);
  [apply land_low32; [exact Hc |] |]; vm_compute; reflexivity.

(** With the upper half of DR7 clear (the architectural value of DR7,
    whose bits 32..63 are reserved), the allocator does what the
    specification's DR7 layout says. *)
Lemma set_hw_stoppoint_low_dr7 (das : list Z) (control address : Z)
    (mode : StoppointMode) (size : Z) :
  0 <= control < 2 ^ 32 -> In size [1; 2; 4; 8] ->
  SetHardwareStoppoint address mode size (mkRegs das control) =
  match spec_free_slot control with
  | Some i =>
      (mkRegs (replace_nth das (Z.to_nat i) address)
         (spec_dr7_after_set control i (EncodeHardwareStoppointMode mode)
            (spec_size_flag size)), inr i)
  | None => (mkRegs das control, inl NoFreeRegister)
  end.
Proof.
  intros Hc Hs.
  unfold SetHardwareStoppoint, spec_free_slot, FindFreeStoppointRegister.
  cbv delta [bind ret throw read_dr7 write_dr write_dr7 find_free_loop
               EncodeHardwareStoppointSize find] beta iota zeta.
  cbn [dr7 dr_addr].
  change (to_u64 (int_shl 3 (0 * 2))) with 3.
  change (to_u64 (int_shl 3 (1 * 2))) with 12.
  change (to_u64 (int_shl 3 (2 * 2))) with 48.
  change (to_u64 (int_shl 3 (3 * 2))) with 192.
  change (Z.shiftl 3 (2 * 0)) with 3.
  change (Z.shiftl 3 (2 * 1)) with 12.
  change (Z.shiftl 3 (2 * 2)) with 48.
  change (Z.shiftl 3 (2 * 3)) with 192.
  destruct (Z.land control 3 =? 0);
    [| destruct (Z.land control 12 =? 0);
       [| destruct (Z.land control 48 =? 0);
          [| destruct (Z.land control 192 =? 0)]]]; try reflexivity;
  destruct Hs as [<- | [<- | [<- | [<- | []]]]]; destruct mode;
  cbn -[Z.land Z.lor Z.lnot Z.shiftl int_shl u64_shl to_u64];
  dr7_congr Hc.
Qed.

End DebugRegsFacts.

(** * The claims *)

Import DebugRegs Memory Watchpoints Dwarf Addresses StopReasons.

(** Little-endian bytes of a 64-bit word, to build [.debug_ranges] data. *)
Definition le64 (z : Z) : list Z :=
  map (fun k => Z.land (Z.shiftr z (8 * k)) 255) [0; 1; 2; 3; 4; 5; 6; 7].

(** C1 (code bug). [ClearHardwareStoppoint(i)] should clear
    [(0b11 << 2i) | (0b1111 << (16 + 4i))] of DR7; the code clears
    [0b1111 << (i + 16)]. With slot 1 enabled as read/write of 4 bytes
    (DR7 = 0x00F00004), clearing slot 1 leaves 0x00E00000 instead of 0; and
    with slot 0 configured as an 8-byte write watchpoint (DR7 = 0x00090005),
    clearing slot 1 turns slot 0's size field from 8 bytes into 1. *)
Lemma clear_hw_stoppoint_wrong_mask :
  ClearHardwareStoppoint 1 (mkRegs [0; 4096; 0; 0] 15728644)
    = (mkRegs [0; 0; 0; 0] 14680064, inr tt)
  /\ Z.land 15728644 (Z.lnot (spec_clear_mask 1)) = 0
  /\ ClearHardwareStoppoint 1 (mkRegs [8192; 4096; 0; 0] 589829)
       = (mkRegs [8192; 0; 0; 0] 65537, inr tt)
  /\ Z.land 589829 (Z.lnot (spec_clear_mask 1)) = 589825.
Proof. repeat split; vm_compute; reflexivity. Qed.

(** C2 (code bug). The range-list iterator tests the base-address entry
    against [-static_cast<std::int64_t>(0)], which is 0, not all-ones. On
    the list [(~0, 0x1000), (0x10, 0x20), (0, 0)] with base 0 the code
    yields the entry [[~0, 0x1000)] where the specification's iterator
    yields [[0x1010, 0x1020)]; and on [(0x10, 0x20), (0, 0)] the code takes
    the terminating pair as a base-address entry and reads past the end of
    the list instead of becoming the end iterator. *)
Lemma range_list_base_flag_is_zero :
  base_address_flag = 0
  /\ Begin (le64 (2 ^ 64 - 1) ++ le64 4096 ++ le64 16 ++ le64 32
            ++ le64 0 ++ le64 0) 0
     = Some (mkIter 0 (Some (le64 16 ++ le64 32 ++ le64 0 ++ le64 0))
               (2 ^ 64 - 1, 4096))
  /\ spec_begin (le64 (2 ^ 64 - 1) ++ le64 4096 ++ le64 16 ++ le64 32
                 ++ le64 0 ++ le64 0) 0
     = Some (mkIter 4096 (Some (le64 0 ++ le64 0)) (4112, 4128))
  /\ Begin (le64 16 ++ le64 32 ++ le64 0 ++ le64 0) 0
     = Some (mkIter 0 (Some (le64 0 ++ le64 0)) (16, 32))
  /\ incr (mkIter 0 (Some (le64 0 ++ le64 0)) (16, 32)) = None
  /\ spec_incr (mkIter 0 (Some (le64 0 ++ le64 0)) (16, 32))
     = Some (mkIter 0 None (0, 0)).
Proof. repeat split; vm_compute; reflexivity. Qed.

(** C3 (modelled from the spec). After [UpdateData], [PreviousData()] is
    the old [Data()] and [Data()] is the value of the [size] bytes just read
    at the watched address; the rest of the watchpoint is unchanged. *)
Theorem update_data_shifts_values (mem : Mem) (w : Watchpoint) :
  previous_data (UpdateData mem w) = data w
  /\ data (UpdateData mem w)
     = le_value (ReadMemory mem (wp_address w) (Z.to_nat (wp_size w)))
  /\ wp_address (UpdateData mem w) = wp_address w
  /\ wp_size (UpdateData mem w) = wp_size w
  /\ wp_id (UpdateData mem w) = wp_id w.
Proof. repeat split. Qed.

(** C5 (code bug). With DR7 = 0x1_0000_0015 (slots 0..2 enabled, bit 32
    set), a write watchpoint of size 8 is put in slot 3; the code's clear
    mask for slot 3 is the [int] [0xF00000C0], negative, so [~clear_mask]
    converted to [std::uint64_t] is [0x0FFFFF3F] and bit 32 of DR7 is lost:
    the code writes 0x9000_0055 where the specification's layout gives
    0x1_9000_0055. *)
Lemma set_hw_stoppoint_slot3_drops_high_bits :
  SetHardwareStoppoint 4096 write 8 (mkRegs [1; 2; 3; 0] (2 ^ 32 + 21))
    = (mkRegs [1; 2; 3; 4096] 2415919189, inr 3)
  /\ spec_free_slot (2 ^ 32 + 21) = Some 3
  /\ spec_dr7_after_set (2 ^ 32 + 21) 3 1 2 = 6710886485.
Proof. repeat split; vm_compute; reflexivity. Qed.

(** C9. [FileAddress::ToVirtualAddress(obj)] never looks at [obj]: the
    section check and the load bias come from the ELF the address is bound
    to. [VirtualAddress::ToFileAddress(obj)] does depend on [obj]. *)
Theorem to_virtual_ignores_obj (fa : FileAddress) (obj1 obj2 : Elf) :
  ToVirtualAddress fa obj1 = ToVirtualAddress fa obj2
  /\ exists v e1 e2, ToFileAddress v e1 <> ToFileAddress v e2.
Proof.
  split; [reflexivity |].
  exists 4096, (mkElf 1 [mkSection 4096 16] 0),
    (mkElf 2 [mkSection 4096 16] 0).
  vm_compute. congruence.
Qed.

(** C10. The [StopReason] constructor assigns [reason] and [info] exactly
    when the status is an exit, a termination by signal or a stop; otherwise
    (for instance the continued status 0xffff) both stay indeterminate. *)
Theorem stop_reason_fields_indeterminate (wait_status : Z) :
  (reason (make_stop_reason wait_status) = Indeterminate
   /\ info (make_stop_reason wait_status) = Indeterminate
   <-> WIFEXITED wait_status = false /\ WIFSIGNALED wait_status = false
       /\ WIFSTOPPED wait_status = false)
  /\ reason (make_stop_reason W_CONTINUED) = Indeterminate
  /\ info (make_stop_reason W_CONTINUED) = Indeterminate.
Proof.
  split; [| split; reflexivity].
  unfold make_stop_reason.
  destruct (WIFEXITED wait_status), (WIFSIGNALED wait_status),
    (WIFSTOPPED wait_status); cbn; split; intros H;
    repeat match goal with Hc : _ /\ _ |- _ => destruct Hc end;
    try discriminate; auto.
Qed.

(** ** Facts about the watchpoint collection *)
Module WatchpointFacts.

Definition aligned (w : Watchpoint) : Prop :=
  Z.land (wp_address w) (to_u64 (wp_size w - 1)) = 0.

Definition all_aligned (st : WState) : Prop :=
  forall w, In w (watchpoints st) -> aligned w.

Lemma in_erase_first {A} (p : A -> bool) (l : list A) (x : A) :
  In x (erase_first p l) -> In x l.
Proof.
  induction l as [| y l IH]; cbn; [tauto |].
  destruct (p y); cbn; [auto | intros [-> | H]; auto].
Qed.

Lemma in_update_first {A} (p : A -> bool) (f : A -> A) (l : list A)
    (x : A) :
  In x (update_first p f l) -> In x l \/ exists y, In y l /\ x = f y.
Proof.
  induction l as [| y l IH]; cbn; [tauto |].
  destruct (p y); cbn.
  - intros [<- | H]; [right; eauto | left; auto].
  - intros [<- | H]; [left; auto |].
    destruct (IH H) as [H' | [z [Hz ->]]]; [left; auto | right; eauto].
Qed.

Lemma make_watchpoint_aligned st address mode size st' w :
  make_watchpoint st address mode size = inr (st', w) ->
  aligned w /\ watchpoints st' = watchpoints st.
Proof.
  unfold make_watchpoint, aligned.
  destruct (Z.land address (to_u64 (size - 1)) =? 0) eqn:E; cbn;
    [| discriminate].
  intros H; injection H as <- <-; cbn.
  split; [now apply Z.eqb_eq | reflexivity].
Qed.

Lemma step_all_aligned st st' :
  all_aligned st -> wp_step st st' -> all_aligned st'.
Proof.
  intros Hall Hs; destruct Hs as [st a m sz st' w Hc | st id Hex
                                 | st a Hex | st id b]; intros x Hx; cbn in *.
  - unfold CreateWatchpoint in Hc.
    destruct (contains_address (watchpoints st) a); [discriminate |].
    destruct (make_watchpoint st a m sz) as [e | [st1 w1]] eqn:Em;
      [discriminate |].
    injection Hc as <- <-; cbn in Hx.
    destruct (make_watchpoint_aligned _ _ _ _ _ _ Em) as [Hw Heq].
    rewrite Heq in Hx; apply in_app_or in Hx as [Hx | [<- | []]];
      [apply Hall; exact Hx | exact Hw].
  - apply Hall, (in_erase_first _ _ _ Hx).
  - apply Hall, (in_erase_first _ _ _ Hx).
  - destruct (in_update_first _ _ _ _ Hx) as [H | [y [Hy ->]]];
      [apply Hall; exact H |].
    apply Hall in Hy; exact Hy.
Qed.

Lemma reachable_all_aligned st : reachable st -> all_aligned st.
Proof.
  induction 1 as [| st st' _ IH Hs].
  - intros w [].
  - exact (step_all_aligned _ _ IH Hs).
Qed.

Lemma aligned_pow2_mod (address k : Z) :
  0 <= k < 64 -> Z.land address (to_u64 (2 ^ k - 1)) = 0 ->
  address mod 2 ^ k = 0.
Proof.
  intros Hk H.
  unfold to_u64 in H.
  assert (Hp : 0 < 2 ^ k < 2 ^ 64) by
    (split; [apply Z.pow_pos_nonneg; lia | apply Z.pow_lt_mono_r; lia]).
  rewrite Z.mod_small in H by lia.
  replace (2 ^ k - 1) with (Z.ones k) in H
    by (rewrite Z.ones_equiv; lia).
  rewrite Z.land_ones in H by lia.
  exact H.
Qed.

End WatchpointFacts.

(** C7 (counterexample). The constructor checks [address & (size - 1)]
    and nothing checks the size at creation: a watchpoint of size 3 at
    address 4 passes ([4 & 2 = 0]) and stays in the collection (the shell's
    [watchpoint set 4 write 3] creates it before [Enable] rejects the size),
    although [4 mod 3 <> 0]. *)
Lemma watchpoint_size3_misaligned :
  exists st w, reachable st /\ In w (watchpoints st)
               /\ wp_address w mod wp_size w <> 0.
Proof.
  exists (mkWState [mkWatchpoint 1 4 write false 3 (-1) 0 0] 1),
    (mkWatchpoint 1 4 write false 3 (-1) 0 0).
  split; [| split; [left; reflexivity | cbn; discriminate]].
  eapply reach_step; [apply reach_init |].
  eapply (step_create _ 4 write 3); reflexivity.
Qed.

(** C7 (as amended). Construction fails with the alignment error exactly
    when [address & (size - 1) != 0]; [CreateWatchpoint] fails when a
    watchpoint already exists at the address; so every watchpoint held by a
    collection reachable through creations, removals and enabling or
    disabling satisfies [address & (size - 1) == 0], hence
    [address mod size == 0] whenever its size is a power of two. *)
Theorem watchpoint_alignment_invariant :
  (forall st address mode size,
      make_watchpoint st address mode size = inl AlignmentError
      <-> Z.land address (to_u64 (size - 1)) <> 0)
  /\ (forall st address mode size,
         contains_address (watchpoints st) address = true ->
         CreateWatchpoint st address mode size = inl AlreadyExists)
  /\ (forall st, reachable st -> forall w, In w (watchpoints st) ->
         Z.land (wp_address w) (to_u64 (wp_size w - 1)) = 0
         /\ (forall k, 0 <= k < 64 -> wp_size w = 2 ^ k ->
               wp_address w mod wp_size w = 0)).
Proof.
  split; [| split].
  - intros st address mode size; unfold make_watchpoint.
    destruct (Z.land address (to_u64 (size - 1)) =? 0) eqn:E; cbn.
    + apply Z.eqb_eq in E; split; [discriminate | contradiction].
    + apply Z.eqb_neq in E; tauto.
  - intros st address mode size H; unfold CreateWatchpoint; now rewrite H.
  - intros st Hr w Hw.
    pose proof (WatchpointFacts.reachable_all_aligned st Hr w Hw) as Ha.
    split; [exact Ha |].
    intros k Hk Hs; unfold WatchpointFacts.aligned in Ha; rewrite Hs in *.
    exact (WatchpointFacts.aligned_pow2_mod _ _ Hk Ha).
Qed.

Lemma watchpoint_alignment_invariant_witness :
  reachable (mkWState [mkWatchpoint 1 8 write false 4 (-1) 0 0] 1)
  /\ Z.land 8 (to_u64 (4 - 1)) = 0 /\ 8 mod 4 = 0.
Proof.
  assert (Hr : reachable (mkWState [mkWatchpoint 1 8 write false 4 (-1) 0 0] 1)).
  { eapply reach_step; [apply reach_init |].
    eapply (step_create _ 8 write 4); reflexivity. }
  split; [exact Hr |].
  destruct watchpoint_alignment_invariant as [_ [_ Hinv]].
  destruct (Hinv _ Hr (mkWatchpoint 1 8 write false 4 (-1) 0 0)
              (or_introl eq_refl)) as [H1 H2].
  split; [exact H1 | apply (H2 2); [lia | reflexivity]].
Defined.

(** ** Facts about address conversion *)
Module AddressFacts.

(** Every section of the ELF, moved by the load bias, lies in the 64-bit
    address space: it can be mapped. *)
Definition sections_mapped (e : Elf) : Prop :=
  0 <= load_bias e
  /\ forall s, In s (section_headers e) ->
       0 <= sh_addr s /\ 0 <= sh_size s
       /\ load_bias e + sh_addr s + sh_size s < 2 ^ 64.

Definition in_file_section (e : Elf) (a : Z) : Prop :=
  exists s, In s (section_headers e) /\ sh_addr s <= a < sh_addr s + sh_size s.

Definition in_virtual_section (e : Elf) (v : Z) : Prop :=
  exists s, In s (section_headers e)
            /\ load_bias e + sh_addr s <= v
            < load_bias e + sh_addr s + sh_size s.

Lemma to_u64_small z : 0 <= z < 2 ^ 64 -> to_u64 z = z.
Proof. intros H; unfold to_u64; apply Z.mod_small; exact H. Qed.

Lemma find_some_iff {A} (p : A -> bool) (l : list A) :
  (exists x, find p l = Some x) <-> (exists x, In x l /\ p x = true).
Proof.
  split.
  - intros [x Hx]; exists x; exact (find_some p l Hx).
  - intros [x [Hin Hp]]; destruct (find p l) as [y |] eqn:E; [eauto |].
    rewrite (find_none p l E x Hin) in Hp; discriminate.
Qed.

Lemma file_section_iff (e : Elf) (a : Z) :
  sections_mapped e ->
  (exists s, section_containing_file e (mkFileAddress (Some e) a) = Some s)
  <-> in_file_section e a.
Proof.
  intros [Hb Hs].
  unfold section_containing_file; cbn; rewrite Z.eqb_refl; cbn.
  rewrite find_some_iff; unfold in_file_section.
  split; intros [s [Hin Hp]]; exists s; split; try exact Hin;
    destruct (Hs s Hin) as [H1 [H2 H3]];
    rewrite to_u64_small in * by lia.
  - apply andb_prop in Hp as [Hp1 Hp2]; lia.
  - apply andb_true_intro; split; apply Z.leb_le || apply Z.ltb_lt; lia.
Qed.

Lemma virtual_section_iff (e : Elf) (v : Z) :
  sections_mapped e ->
  (exists s, section_containing_virtual e v = Some s)
  <-> in_virtual_section e v.
Proof.
  intros [Hb Hs].
  unfold section_containing_virtual.
  rewrite find_some_iff; unfold in_virtual_section.
  split; intros [s [Hin Hp]]; exists s; split; try exact Hin;
    destruct (Hs s Hin) as [H1 [H2 H3]];
    rewrite !(to_u64_small (load_bias e + sh_addr s)) in * by lia;
    rewrite to_u64_small in * by lia.
  - apply andb_prop in Hp as [Hp1 Hp2]; lia.
  - apply andb_true_intro; split; apply Z.leb_le || apply Z.ltb_lt; lia.
Qed.

End AddressFacts.

(** C6. For an ELF whose sections, moved by the load bias, all lie in the
    64-bit address space: a file address inside a section converts to the
    address plus the load bias, and back; one outside every section
    converts to the null virtual address; a virtual address inside a mapped
    section converts to the address minus the load bias, and back; one
    outside every section converts to the null file address. *)
Theorem file_virtual_round_trip (e obj : Elf) :
  AddressFacts.sections_mapped e ->
  (forall a, AddressFacts.in_file_section e a ->
     ToVirtualAddress (mkFileAddress (Some e) a) obj = Some (a + load_bias e)
     /\ ToFileAddress (a + load_bias e) e = mkFileAddress (Some e) a)
  /\ (forall a, ~ AddressFacts.in_file_section e a ->
        ToVirtualAddress (mkFileAddress (Some e) a) obj
        = Some null_virtual_address)
  /\ (forall v, AddressFacts.in_virtual_section e v ->
        ToFileAddress v e = mkFileAddress (Some e) (v - load_bias e)
        /\ ToVirtualAddress (ToFileAddress v e) obj = Some v)
  /\ (forall v, ~ AddressFacts.in_virtual_section e v ->
        ToFileAddress v e = null_file_address).
Proof.
  intros Hm.
  pose proof Hm as [Hb Hs].
  assert (Hf : forall a, AddressFacts.in_file_section e a ->
             ToVirtualAddress (mkFileAddress (Some e) a) obj
             = Some (a + load_bias e)).
  { intros a Ha.
    destruct (proj2 (AddressFacts.file_section_iff e a Hm) Ha) as [s Hsec].
    destruct Ha as [s' [Hin Hr]]; destruct (Hs s' Hin) as [H1 [H2 H3]].
    unfold ToVirtualAddress; cbn; rewrite Hsec.
    rewrite AddressFacts.to_u64_small by lia; reflexivity. }
  assert (Hv : forall v, AddressFacts.in_virtual_section e v ->
             ToFileAddress v e = mkFileAddress (Some e) (v - load_bias e)).
  { intros v Hvs.
    destruct (proj2 (AddressFacts.virtual_section_iff e v Hm) Hvs) as [s Hsec].
    destruct Hvs as [s' [Hin Hr]]; destruct (Hs s' Hin) as [H1 [H2 H3]].
    unfold ToFileAddress; rewrite Hsec.
    rewrite AddressFacts.to_u64_small by lia; reflexivity. }
  split; [| split; [| split]].
  - intros a Ha; split; [exact (Hf a Ha) |].
    replace a with (a + load_bias e - load_bias e) at 2 by lia.
    apply Hv.
    destruct Ha as [s [Hin Hr]]; exists s; split; [exact Hin | lia].
  - intros a Ha.
    unfold ToVirtualAddress; cbn.
    destruct (section_containing_file e (mkFileAddress (Some e) a))
      as [s |] eqn:E; [| reflexivity].
    exfalso; apply Ha, (AddressFacts.file_section_iff e a Hm); eauto.
  - intros v Hvs; split; [exact (Hv v Hvs) |].
    rewrite (Hv v Hvs), Hf; [f_equal; lia |].
    destruct Hvs as [s [Hin Hr]]; exists s; split; [exact Hin | lia].
  - intros v Hvs.
    unfold ToFileAddress.
    destruct (section_containing_virtual e v) as [s |] eqn:E;
      [| reflexivity].
    exfalso; apply Hvs, (AddressFacts.virtual_section_iff e v Hm); eauto.
Qed.

Lemma file_virtual_round_trip_witness :
  AddressFacts.sections_mapped (mkElf 1 [mkSection 4096 256] 65536)
  /\ ToVirtualAddress (mkFileAddress (Some (mkElf 1 [mkSection 4096 256] 65536)) 4100)
       (mkElf 1 [mkSection 4096 256] 65536) = Some 69636
  /\ ToFileAddress 69636 (mkElf 1 [mkSection 4096 256] 65536)
     = mkFileAddress (Some (mkElf 1 [mkSection 4096 256] 65536)) 4100.
Proof.
  assert (Hm : AddressFacts.sections_mapped (mkElf 1 [mkSection 4096 256] 65536)).
  { split; [cbn; lia |]. intros s [<- | []]; cbn; lia. }
  split; [exact Hm |].
  destruct (file_virtual_round_trip _ (mkElf 1 [mkSection 4096 256] 65536) Hm)
    as [Hf _].
  apply (Hf 4100).
  exists (mkSection 4096 256); split; [left; reflexivity | cbn; lia].
Defined.

(** ** Facts about reads that hide breakpoint bytes *)
Module MemoryFacts.

Definition is_byte (b : Z) : Prop := 0 <= b < 256.

Definition bytes_ok (mem : Mem) : Prop := forall x, is_byte (mem x).

(** the condition under which a site's byte counts at [x] *)
Definition counts_at (x : Z) (s : BreakpointSite) : bool :=
  is_enabled s && negb (is_hardware s) && (site_address s =? x).

(** the saved byte of the last site counting at [x], else [d] *)
Definition last_saved (sites : list BreakpointSite) (x d : Z) : Z :=
  fold_left (fun v s => if counts_at x s then saved_data s else v) sites d.

Lemma site_byte_at_last_saved sites x d :
  match site_byte_at sites x with Some b => b | None => d end
  = last_saved sites x d.
Proof.
  unfold site_byte_at, last_saved.
  change d with (match @None Z with Some b => b | None => d end) at 2.
  generalize (@None Z).
  induction sites as [| s sites IH]; intros acc; cbn; [reflexivity |].
  rewrite IH; unfold counts_at.
  destruct (is_enabled s && negb (is_hardware s) && (site_address s =? x));
    reflexivity.
Qed.

Lemma le_value_byte (bs : list Z) (k : nat) :
  Forall is_byte bs ->
  Z.land (Z.shiftr (le_value bs) (8 * Z.of_nat k)) 255 = nth k bs 0.
Proof.
  revert k; induction bs as [| b bs IH]; intros k Hb.
  - cbn; rewrite Z.shiftr_0_l; destruct k; reflexivity.
  - inversion Hb as [| ? ? Hbb Hbs]; subst.
    change 255 with (Z.ones 8); rewrite Z.land_ones by lia.
    destruct k as [| k]; cbn [le_value nth].
    + rewrite Z.shiftr_0_r.
      rewrite Z.mul_comm, Z.mod_add by lia.
      apply Z.mod_small; exact Hbb.
    + replace (8 * Z.of_nat (S k)) with (8 + 8 * Z.of_nat k) by lia.
      rewrite <- Z.shiftr_shiftr by lia.
      rewrite (Z.shiftr_div_pow2 _ 8) by lia.
      replace ((b + 256 * le_value bs) / 2 ^ 8) with (le_value bs).
      2:{ change (2 ^ 8) with 256.
          rewrite Z.mul_comm, Z.div_add by lia.
          rewrite Z.div_small by exact Hbb; lia. }
      rewrite <- Z.land_ones by lia; apply IH; exact Hbs.
Qed.

(** [(data & ~0xff) | saved] on a little-endian word *)
Lemma replace_low_byte (b s : Z) (rest : list Z) :
  is_byte b -> is_byte s ->
  Z.lor (Z.land (le_value (b :: rest)) (Z.lnot 255)) s = le_value (s :: rest).
Proof.
  intros Hb Hs; cbn [le_value].
  rewrite <- Z.ldiff_land.
  change 255 with (Z.ones 8); rewrite Z.ldiff_ones_r by lia.
  rewrite Z.shiftr_div_pow2, Z.shiftl_mul_pow2 by lia.
  replace ((b + 256 * le_value rest) / 2 ^ 8) with (le_value rest).
  2:{ change (2 ^ 8) with 256.
      rewrite Z.mul_comm, Z.div_add by lia.
      rewrite Z.div_small by exact Hb; lia. }
  (* the low byte of the word is cleared, so the OR is an addition *)
  assert (Hd : Z.land (le_value rest * 2 ^ 8) s = 0).
  { rewrite <- (Z.mod_small s (2 ^ 8)) by (cbn; unfold is_byte in Hs; lia).
    rewrite <- Z.land_ones by lia.
    rewrite (Z.land_comm s (Z.ones 8)), Z.land_assoc, Z.land_ones by lia.
    rewrite Z.mod_mul by lia; apply Z.land_0_l. }
  pose proof (Z.add_lor_land (le_value rest * 2 ^ 8) s) as E.
  rewrite Hd in E; change (2 ^ 8) with 256 in *; lia.
Qed.

Lemma length_ReadMemory mem a n : length (ReadMemory mem a n) = n.
Proof. unfold ReadMemory, seqZ; rewrite !length_map, length_seq; reflexivity. Qed.

Lemma nth_ReadMemory mem a n k :
  (k < n)%nat -> nth k (ReadMemory mem a n) 0 = mem (to_u64 (a + Z.of_nat k)).
Proof.
  intros Hk; unfold ReadMemory, seqZ; rewrite map_map.
  rewrite (nth_indep _ 0 (mem (to_u64 (a + Z.of_nat 0))))
    by (rewrite length_map, length_seq; exact Hk).
  rewrite (map_nth (fun k0 => mem (to_u64 (a + Z.of_nat k0)))).
  rewrite seq_nth by exact Hk; reflexivity.
Qed.

Lemma ReadMemory_bytes mem a n :
  bytes_ok mem -> Forall is_byte (ReadMemory mem a n).
Proof.
  intros Hm; unfold ReadMemory; apply Forall_forall.
  intros b Hb; apply in_map_iff in Hb as [k [<- _]]; apply Hm.
Qed.

Lemma offset_zero a x :
  0 <= a < 2 ^ 64 -> 0 <= x < 2 ^ 64 -> to_u64 (x - a) = 0 -> x = a.
Proof. unfold to_u64; intros Ha Hx H; Z.div_mod_to_equations; lia. Qed.

Lemma offset_back a x :
  0 <= a < 2 ^ 64 -> 0 <= x < 2 ^ 64 -> to_u64 (a + to_u64 (x - a)) = x.
Proof.
  unfold to_u64; intros Ha Hx.
  rewrite Z.add_mod_idemp_r by lia.
  replace (a + (x - a)) with x by lia; apply Z.mod_small; exact Hx.
Qed.

(** [BreakpointSite::Disable] on a software site writes back the saved
    byte at the site's address and nothing else. *)
Lemma disable_software_site_at mem s x :
  bytes_ok mem -> is_byte (saved_data s) ->
  0 <= site_address s < 2 ^ 64 -> 0 <= x < 2 ^ 64 ->
  disable_software_site mem s x
  = if site_address s =? x then saved_data s else mem x.
Proof.
  intros Hm Hs Ha Hx.
  unfold disable_software_site, peek_data, poke_data.
  set (a := site_address s) in *.
  pose proof (ReadMemory_bytes mem a 8 Hm) as Hbytes.
  destruct (ReadMemory mem a 8) as [| b tl] eqn:Erm; [discriminate |].
  inversion Hbytes as [| ? ? Hb Htl]; subst.
  rewrite replace_low_byte by assumption.
  assert (Hk : 0 <= to_u64 (x - a) < 2 ^ 64)
    by (unfold to_u64; apply Z.mod_pos_bound; lia).
  destruct (to_u64 (x - a) <? 8) eqn:E.
  - apply Z.ltb_lt in E.
    replace (to_u64 (x - a)) with (Z.of_nat (Z.to_nat (to_u64 (x - a))))
      by lia.
    rewrite le_value_byte by (constructor; assumption).
    destruct (Z.to_nat (to_u64 (x - a))) as [| j] eqn:Ej.
    + assert (x = a) as -> by (apply offset_zero; lia).
      rewrite Z.eqb_refl; reflexivity.
    + assert (Hne : a <> x).
      { intros ->; unfold to_u64 in Ej; rewrite Z.sub_diag in Ej; discriminate. }
      apply Z.eqb_neq in Hne; rewrite Hne.
      change (nth (S j) (saved_data s :: tl) 0) with (nth (S j) (b :: tl) 0).
      rewrite <- Erm, nth_ReadMemory by lia.
      rewrite <- (offset_back a x Ha Hx).
      f_equal; f_equal; f_equal; lia.
  - assert (Hne : a <> x).
    { intros ->; unfold to_u64 in E; rewrite Z.sub_diag in E; discriminate. }
    apply Z.eqb_neq in Hne; rewrite Hne; reflexivity.
Qed.

Definition sites_ok (sites : list BreakpointSite) : Prop :=
  forall s, In s sites ->
    0 <= site_address s < 2 ^ 64 /\ is_byte (saved_data s).

Lemma disable_software_site_bytes mem s :
  bytes_ok mem -> bytes_ok (disable_software_site mem s).
Proof.
  intros Hm x; unfold disable_software_site, poke_data.
  destruct (_ <? 8); [| apply Hm].
  change 255 with (Z.ones 8); rewrite Z.land_ones by lia.
  unfold is_byte; change 256 with (2 ^ 8); apply Z.mod_pos_bound; lia.
Qed.

Lemma disable_all_at sites :
  forall mem x, bytes_ok mem -> sites_ok sites -> 0 <= x < 2 ^ 64 ->
  disable_all mem sites x = last_saved sites x (mem x).
Proof.
  induction sites as [| s sites IH]; intros mem x Hm Hs Hx; [reflexivity |].
  change (disable_all mem (s :: sites))
    with (disable_all (if is_enabled s && negb (is_hardware s)
                       then disable_software_site mem s else mem) sites).
  change (last_saved (s :: sites) x (mem x))
    with (last_saved sites x
            (if counts_at x s then saved_data s else mem x)).
  assert (Hs' : sites_ok sites) by (intros t Ht; apply Hs; right; exact Ht).
  destruct (Hs s (or_introl eq_refl)) as [Ha Hb].
  unfold counts_at; destruct (is_enabled s && negb (is_hardware s)); cbn.
  - rewrite IH by (try apply disable_software_site_bytes; assumption).
    rewrite disable_software_site_at by assumption; reflexivity.
  - apply IH; assumption.
Qed.

Lemma length_replace_nth {A} (l : list A) j v :
  length (replace_nth l j v) = length l.
Proof.
  revert j; induction l as [| h l IH]; intros [| j]; cbn; auto.
Qed.

Lemma nth_replace_nth {A} (l : list A) j k v d :
  (j < length l)%nat ->
  nth k (replace_nth l j v) d = if Nat.eqb k j then v else nth k l d.
Proof.
  revert j k; induction l as [| h l IH]; intros j k Hj; cbn in *; [lia |].
  destruct j as [| j], k as [| k]; cbn; try reflexivity.
  apply IH; lia.
Qed.

Lemma fold_without_traps a n sites memory k :
  0 <= a -> a + Z.of_nat n < 2 ^ 64 -> length memory = n ->
  (forall s, In s sites -> a <= site_address s < a + Z.of_nat n) ->
  (k < n)%nat ->
  nth k (fold_left
           (fun memory site =>
              if negb (is_enabled site) || is_hardware site then memory
              else
                let offset := to_u64 (site_address site - a) in
                replace_nth memory (Z.to_nat offset) (saved_data site))
           sites memory) 0
  = last_saved sites (a + Z.of_nat k) (nth k memory 0).
Proof.
  intros Ha Hn; revert memory.
  induction sites as [| s sites IH]; intros memory Hlen Hin Hk;
    [reflexivity |].
  cbn [fold_left]; unfold last_saved; cbn [fold_left]; fold (last_saved sites).
  destruct (Hin s (or_introl eq_refl)) as [Hs1 Hs2].
  rewrite IH; [| | intros t Ht; apply Hin; right; exact Ht | exact Hk].
  2:{ destruct (negb (is_enabled s) || is_hardware s); cbn;
      [| rewrite length_replace_nth]; exact Hlen. }
  f_equal.
  unfold counts_at.
  destruct (is_enabled s), (is_hardware s); cbn; try reflexivity.
  rewrite AddressFacts.to_u64_small by lia.
  rewrite nth_replace_nth by lia.
  destruct (Nat.eqb k (Z.to_nat (site_address s - a))) eqn:E;
    destruct (site_address s =? a + Z.of_nat k) eqn:E';
    try reflexivity; apply Nat.eqb_eq in E || apply Nat.eqb_neq in E;
    apply Z.eqb_eq in E' || apply Z.eqb_neq in E'; lia.
Qed.

Lemma last_saved_filter sites a high k d :
  a <= a + k < high ->
  last_saved (filter (IsInRange a high) sites) (a + k) d
  = last_saved sites (a + k) d.
Proof.
  intros Hk; revert d; induction sites as [| s sites IH]; intros d;
    [reflexivity |].
  change (last_saved (s :: sites) (a + k) d)
    with (last_saved sites (a + k)
            (if counts_at (a + k) s then saved_data s else d)).
  cbn [filter]; destruct (IsInRange a high s) eqn:E.
  - apply IH.
  - rewrite IH; f_equal.
    unfold IsInRange in E; unfold counts_at.
    destruct (site_address s =? a + k) eqn:E'; [| rewrite andb_false_r; reflexivity].
    apply Z.eqb_eq in E'; rewrite E' in E.
    apply andb_false_iff in E as [E | E];
      [apply Z.leb_gt in E | apply Z.ltb_ge in E]; lia.
Qed.

Lemma length_fold_without_traps a sites memory :
  length (fold_left
           (fun memory site =>
              if negb (is_enabled site) || is_hardware site then memory
              else
                let offset := to_u64 (site_address site - a) in
                replace_nth memory (Z.to_nat offset) (saved_data site))
           sites memory) = length memory.
Proof.
  revert memory; induction sites as [| s sites IH]; intros memory;
    [reflexivity |].
  cbn [fold_left]; rewrite IH.
  destruct (negb (is_enabled s) || is_hardware s); cbn;
    [| rewrite length_replace_nth]; reflexivity.
Qed.

Lemma length_without_traps mem sites a n :
  length (ReadMemoryWithoutTraps mem sites a n) = n.
Proof.
  unfold ReadMemoryWithoutTraps.
  rewrite length_fold_without_traps; apply length_ReadMemory.
Qed.

Lemma nth_without_traps mem sites a n k :
  0 <= a -> a + Z.of_nat n < 2 ^ 64 -> (k < n)%nat ->
  nth k (ReadMemoryWithoutTraps mem sites a n) 0
  = last_saved sites (a + Z.of_nat k) (mem (a + Z.of_nat k)).
Proof.
  intros Ha Hn Hk; unfold ReadMemoryWithoutTraps, GetInRegion.
  rewrite (AddressFacts.to_u64_small (a + Z.of_nat n)) by lia.
  rewrite (fold_without_traps a n); [| lia | lia | apply length_ReadMemory | | lia].
  - rewrite last_saved_filter by lia.
    rewrite nth_ReadMemory, AddressFacts.to_u64_small by lia; reflexivity.
  - intros s Hs; apply filter_In in Hs as [_ Hs].
    unfold IsInRange in Hs; apply andb_true_iff in Hs as [H1 H2].
    apply Z.leb_le in H1; apply Z.ltb_lt in H2; lia.
Qed.

End MemoryFacts.

(** Claim C4 (memory transparency). For a region [address, address + n)
    that does not wrap around the 64-bit address space, and breakpoint sites
    at 64-bit addresses whose saved bytes are bytes,
    [ReadMemoryWithoutTraps] returns a list of length n whose k-th byte is
    the saved byte of the (last) enabled software site at address + k, or
    the byte [ReadMemory] reads there when no enabled software site is at
    that address (hardware and disabled sites change nothing); and the whole
    list equals what [ReadMemory] returns once every enabled software site
    has been disabled. *)
Theorem read_memory_without_traps_spec (mem : Mem)
    (sites : list BreakpointSite) (a : Z) (n : nat) :
  (forall x, 0 <= mem x < 256) ->
  (forall s, In s sites ->
     0 <= site_address s < 2 ^ 64 /\ 0 <= saved_data s < 256) ->
  0 <= a -> a + Z.of_nat n < 2 ^ 64 ->
  length (ReadMemoryWithoutTraps mem sites a n) = n /\
  (forall k, (k < n)%nat ->
     nth k (ReadMemoryWithoutTraps mem sites a n) 0
     = match site_byte_at sites (a + Z.of_nat k) with
       | Some b => b
       | None => nth k (ReadMemory mem a n) 0
       end) /\
  ReadMemoryWithoutTraps mem sites a n = ReadMemory (disable_all mem sites) a n.
Proof.
  intros Hm Hs Ha Hn.
  split; [apply MemoryFacts.length_without_traps |].
  split.
  - intros k Hk.
    rewrite MemoryFacts.nth_without_traps by lia.
    rewrite MemoryFacts.site_byte_at_last_saved.
    rewrite MemoryFacts.nth_ReadMemory, AddressFacts.to_u64_small by lia.
    reflexivity.
  - apply nth_ext with (d := 0) (d' := 0).
    + rewrite MemoryFacts.length_without_traps, MemoryFacts.length_ReadMemory;
        reflexivity.
    + intros k Hk; rewrite MemoryFacts.length_without_traps in Hk.
      rewrite MemoryFacts.nth_without_traps by lia.
      rewrite MemoryFacts.nth_ReadMemory, AddressFacts.to_u64_small by lia.
      rewrite MemoryFacts.disable_all_at; [reflexivity | exact Hm | exact Hs | lia].
Qed.

Lemma read_memory_without_traps_spec_witness :
  let mem := fun x => if x =? 4097 then 204 else 144 in
  let sites := [mkSite 1 4097 true false 85; mkSite 2 4098 true true 0;
                mkSite 3 4099 false false 0] in
  ReadMemoryWithoutTraps mem sites 4096 4 = [144; 85; 144; 144] /\
  ReadMemory mem 4096 4 = [144; 204; 144; 144] /\
  length (ReadMemoryWithoutTraps mem sites 4096 4) = 4%nat /\
  (forall k, (k < 4)%nat ->
     nth k (ReadMemoryWithoutTraps mem sites 4096 4) 0
     = match site_byte_at sites (4096 + Z.of_nat k) with
       | Some b => b
       | None => nth k (ReadMemory mem 4096 4) 0
       end) /\
  ReadMemoryWithoutTraps mem sites 4096 4
  = ReadMemory (disable_all mem sites) 4096 4.
Proof.
  intros mem sites.
  split; [vm_compute; reflexivity |].
  split; [vm_compute; reflexivity |].
  apply (read_memory_without_traps_spec mem sites 4096 4).
  - intros x; unfold mem; destruct (x =? 4097); lia.
  - intros s Hs; cbn in Hs.
    destruct Hs as [<- | [<- | [<- | []]]]; cbn; lia.
  - lia.
  - vm_compute; reflexivity.
Defined.

(** ** Facts about the signed LEB128 decoder *)
Module DwarfFacts.
Import Dwarf.

Lemma lor_low_high r q k :
  0 <= k -> 0 <= r < 2 ^ k -> 0 <= q -> Z.lor r (q * 2 ^ k) = r + q * 2 ^ k.
Proof.
  intros Hk Hr Hq; rewrite <- Z.shiftl_mul_pow2 by lia.
  assert (Hd : Z.land r (Z.shiftl q k) = 0).
  { apply Z.bits_inj'; intros i Hi; rewrite Z.land_spec, Z.bits_0.
    destruct (Z.lt_ge_cases i k).
    - rewrite Z.shiftl_spec_low by lia; apply andb_false_r.
    - rewrite <- (Z.mod_small r (2 ^ k)) by lia.
      rewrite Z.mod_pow2_bits_high by lia; reflexivity. }
  pose proof (Z.add_lor_land r (Z.shiftl q k)); lia.
Qed.

Lemma pow_split k :
  0 <= k <= 64 -> 2 ^ (64 - k) * 2 ^ k = 2 ^ 64.
Proof. intros Hk; rewrite <- Z.pow_add_r by lia; f_equal; lia. Qed.

Lemma u64_shl_low m k :
  0 <= k <= 64 -> u64_shl m k = (m mod 2 ^ (64 - k)) * 2 ^ k.
Proof.
  intros Hk; unfold u64_shl, to_u64; rewrite Z.shiftl_mul_pow2 by lia.
  rewrite <- (pow_split k Hk).
  assert (0 < 2 ^ (64 - k)) by (apply Z.pow_pos_nonneg; lia).
  assert (0 < 2 ^ k) by (apply Z.pow_pos_nonneg; lia).
  apply Z.mul_mod_distr_r; lia.
Qed.

Lemma lor_shl_add r m k :
  0 <= k <= 64 -> 0 <= r < 2 ^ k ->
  Z.lor r (u64_shl m k) = (r + 2 ^ k * m) mod 2 ^ 64.
Proof.
  intros Hk Hr; rewrite u64_shl_low by exact Hk.
  pose proof (pow_split k Hk) as PQ.
  assert (HQ : 0 < 2 ^ (64 - k)) by (apply Z.pow_pos_nonneg; lia).
  assert (HP : 0 < 2 ^ k) by (apply Z.pow_pos_nonneg; lia).
  pose proof (Z.mod_pos_bound m (2 ^ (64 - k)) HQ) as Hb.
  rewrite lor_low_high by lia.
  pose proof (Z.div_mod m (2 ^ (64 - k)) ltac:(lia)) as Hm.
  replace (r + 2 ^ k * m)
    with ((r + m mod 2 ^ (64 - k) * 2 ^ k) + m / 2 ^ (64 - k) * 2 ^ 64)
    by (rewrite <- PQ; rewrite Hm at 3; ring).
  rewrite Z.mod_add by lia.
  symmetry; apply Z.mod_small.
  split; [nia |].
  rewrite <- PQ; nia.
Qed.

Lemma low7_bound b : 0 <= Z.land b 127 < 128.
Proof.
  change 127 with (Z.ones 7); rewrite Z.land_ones by lia.
  change 128 with (2 ^ 7); apply Z.mod_pos_bound; lia.
Qed.

Lemma groups_value_bound bs :
  0 <= groups_value bs < 2 ^ (7 * Z.of_nat (length bs)).
Proof.
  induction bs as [| b bs IH]; cbn [groups_value length]; [cbn; lia |].
  pose proof (low7_bound b).
  replace (7 * Z.of_nat (S (length bs))) with (7 + 7 * Z.of_nat (length bs))
    by lia.
  rewrite Z.pow_add_r by lia; change (2 ^ 7) with 128; lia.
Qed.

Lemma testbit_group x y i :
  0 <= x < 128 -> 0 <= i -> Z.testbit (x + 128 * y) (7 + i) = Z.testbit y i.
Proof.
  intros Hx Hi.
  replace (7 + i) with (i + 7) by lia.
  rewrite <- Z.shiftr_spec by lia.
  rewrite Z.shiftr_div_pow2 by lia; change (2 ^ 7) with 128.
  f_equal; rewrite Z.add_comm, Z.mul_comm, Z.div_add_l by lia.
  rewrite Z.div_small by lia; ring.
Qed.

Lemma groups_top_bit bs :
  bs <> [] ->
  Z.testbit (groups_value bs) (7 * Z.of_nat (length bs) - 1)
  = Z.testbit (last bs 0) 6.
Proof.
  induction bs as [| b bs IH]; intros Hne; [congruence |].
  destruct bs as [| b' bs'].
  - cbn [groups_value length last]; rewrite Z.mul_0_r, Z.add_0_r.
    change (7 * Z.of_nat 1 - 1) with 6; rewrite Z.land_spec.
    change (Z.testbit 127 6) with true; apply andb_true_r.
  - change (last (b :: b' :: bs') 0) with (last (b' :: bs') 0).
    rewrite <- IH by discriminate.
    cbn [groups_value]; change (groups_value (b' :: bs')) with
      (Z.land b' 127 + 128 * groups_value bs').
    replace (7 * Z.of_nat (length (b :: b' :: bs')) - 1)
      with (7 + (7 * Z.of_nat (length (b' :: bs')) - 1))
      by (cbn [length]; lia).
    apply testbit_group; [apply low7_bound | cbn [length]; lia].
Qed.

Lemma land64_eqb x : (Z.land x 64 =? 0) = negb (Z.testbit x 6).
Proof.
  destruct (Z.testbit x 6) eqn:E; cbn.
  - apply Z.eqb_neq; intros H.
    assert (Z.testbit (Z.land x 64) 6 = true)
      by (rewrite Z.land_spec, E; reflexivity).
    rewrite H in *; discriminate.
  - apply Z.eqb_eq; apply Z.bits_inj'; intros i Hi.
    rewrite Z.land_spec, Z.bits_0.
    change 64 with (2 ^ 6); rewrite Z.pow2_bits_eqb by lia.
    destruct (Z.eqb_spec 6 i) as [<- | _]; [rewrite E; reflexivity | apply andb_false_r].
Qed.

Lemma sleb_loop_cons r s b rest :
  sleb_loop r s (b :: rest)
  = if 64 <=? s then None
    else
      let result := Z.lor r (u64_shl (Z.land b 127) s) in
      if Z.land b 128 =? 0 then Some (result, s + 7, b, rest)
      else sleb_loop result (s + 7) rest.
Proof. reflexivity. Qed.

Lemma sleb_loop_spec bs rest :
  forall r j,
  is_sleb_encoding bs = true -> (j + length bs <= 10)%nat ->
  0 <= r < 2 ^ (7 * Z.of_nat j) ->
  sleb_loop r (7 * Z.of_nat j) (bs ++ rest)
  = Some ((r + 2 ^ (7 * Z.of_nat j) * groups_value bs) mod 2 ^ 64,
          7 * Z.of_nat (j + length bs), last bs 0, rest).
Proof.
  induction bs as [| b bs IH]; intros r j Henc Hlen Hr; [discriminate |].
  assert (Hj : 7 * Z.of_nat j <= 63) by (cbn [length] in Hlen; lia).
  pose proof (low7_bound b) as Hb.
  destruct bs as [| b' bs'].
  - cbn in Henc; apply andb_true_iff in Henc as [_ Hstop].
    cbn [app sleb_loop]; rewrite (proj2 (Z.leb_gt 64 _)) by lia.
    rewrite Hstop; cbn [groups_value length last].
    rewrite lor_shl_add by lia.
    rewrite Z.mul_0_r, Z.add_0_r.
    replace (7 * Z.of_nat (j + 1)) with (7 * Z.of_nat j + 7) by lia.
    reflexivity.
  - change (is_sleb_encoding (b :: b' :: bs'))
      with ((0 <=? b) && (b <? 256) && negb (Z.land b 128 =? 0)
            && is_sleb_encoding (b' :: bs')) in Henc.
    apply andb_true_iff in Henc as [Hc Henc].
    apply andb_true_iff in Hc as [_ Hc]; apply negb_true_iff in Hc.
    cbn [app]; rewrite sleb_loop_cons.
    rewrite (proj2 (Z.leb_gt 64 _)) by lia; rewrite Hc.
    rewrite lor_shl_add by lia.
    assert (Hpow : 2 ^ (7 * Z.of_nat (S j)) = 2 ^ (7 * Z.of_nat j) * 128).
    { replace (7 * Z.of_nat (S j)) with (7 * Z.of_nat j + 7) by lia.
      rewrite Z.pow_add_r by lia; reflexivity. }
    assert (Hr' : 0 <= r + 2 ^ (7 * Z.of_nat j) * Z.land b 127
                   < 2 ^ (7 * Z.of_nat (S j))) by (rewrite Hpow; nia).
    assert (Hsmall : 2 ^ (7 * Z.of_nat (S j)) <= 2 ^ 64)
      by (apply Z.pow_le_mono_r; cbn [length] in Hlen; lia).
    rewrite Z.mod_small by lia.
    replace (7 * Z.of_nat j + 7) with (7 * Z.of_nat (S j)) by lia.
    rewrite IH by (first [exact Henc | cbn [length] in *; lia]).
    change (last (b :: b' :: bs') 0) with (last (b' :: bs') 0).
    change (groups_value (b :: b' :: bs'))
      with (Z.land b 127 + 128 * groups_value (b' :: bs')).
    rewrite Hpow.
    replace (7 * Z.of_nat (S j + length (b' :: bs')))
      with (7 * Z.of_nat (j + length (b :: b' :: bs')))
      by (cbn [length]; lia).
    replace (r + 2 ^ (7 * Z.of_nat j) * Z.land b 127
             + 2 ^ (7 * Z.of_nat j) * 128 * groups_value (b' :: bs'))
      with (r + 2 ^ (7 * Z.of_nat j)
                * (Z.land b 127 + 128 * groups_value (b' :: bs')))
      by ring.
    reflexivity.
Qed.

Lemma to_u64_minus_pow w :
  0 <= w <= 64 ->
  to_u64 (Z.shiftl (-1) w) = (2 ^ (64 - w) - 1) * 2 ^ w.
Proof.
  intros Hw; unfold to_u64; rewrite Z.shiftl_mul_pow2 by lia.
  pose proof (pow_split w Hw) as PQ.
  assert (0 < 2 ^ (64 - w)) by (apply Z.pow_pos_nonneg; lia).
  assert (0 < 2 ^ w) by (apply Z.pow_pos_nonneg; lia).
  replace (-1 * 2 ^ w) with ((2 ^ (64 - w) - 1) * 2 ^ w + (-1) * 2 ^ 64)
    by (rewrite <- PQ; ring).
  rewrite Z.mod_add by lia; apply Z.mod_small; nia.
Qed.

Lemma sleb128_mod bs rest :
  is_sleb_encoding bs = true -> (length bs <= 10)%nat ->
  sleb128 (bs ++ rest) = Some (to_s64 (sleb_value bs mod 2 ^ 64), rest).
Proof.
  intros Henc Hlen.
  assert (Hne : bs <> []) by (intros ->; discriminate).
  unfold sleb128.
  pose proof (sleb_loop_spec bs rest 0 0 Henc ltac:(lia) ltac:(cbn; lia)) as Hl.
  change (7 * Z.of_nat 0) with 0 in Hl; rewrite Hl.
  rewrite Nat.add_0_l, Z.add_0_l, Z.pow_0_r, Z.mul_1_l.
  pose proof (groups_value_bound bs) as Hg.
  pose proof (groups_top_bit bs Hne) as Ht.
  rewrite land64_eqb, Bool.negb_involutive, <- Ht.
  unfold sleb_value.
  set (w := 7 * Z.of_nat (length bs)) in *.
  set (g := groups_value bs) in *.
  destruct (Nat.eq_dec (length bs) 10) as [E | E].
  - assert (Hw : w = 70) by (unfold w; rewrite E; reflexivity).
    rewrite Hw; change (70 <? 64) with false; cbn [andb].
    destruct (Z.testbit g (70 - 1)); [| reflexivity].
    replace (g - 2 ^ 70) with (g + (-64) * 2 ^ 64) by ring.
    rewrite Z.mod_add by lia; reflexivity.
  - assert (Hw : 7 <= w <= 63)
      by (unfold w; destruct bs; [congruence | cbn [length] in *; lia]).
    assert (Hw64 : 2 ^ w <= 2 ^ 63) by (apply Z.pow_le_mono_r; lia).
    rewrite (proj2 (Z.ltb_lt w 64)) by lia; cbn [andb].
    rewrite (Z.mod_small g) by lia.
    destruct (Z.testbit g (w - 1)); [| rewrite Z.mod_small by lia; reflexivity].
    rewrite to_u64_minus_pow, lor_low_high by (try apply Z.pow_pos_nonneg; lia).
    pose proof (pow_split w ltac:(lia)) as PQ.
    replace (g - 2 ^ w) with ((g + (2 ^ (64 - w) - 1) * 2 ^ w) + (-1) * 2 ^ 64)
      by (rewrite <- PQ; ring).
    rewrite Z.mod_add by lia; rewrite Z.mod_small; [reflexivity |].
    split; [nia | rewrite <- PQ; nia].
Qed.

Lemma to_s64_mod v : -2 ^ 63 <= v < 2 ^ 63 -> to_s64 (v mod 2 ^ 64) = v.
Proof.
  intros Hv; unfold to_s64.
  destruct (Z.lt_ge_cases v 0).
  - replace (v mod 2 ^ 64) with (v + 2 ^ 64)
      by (rewrite <- (Z.mod_add v 1) by lia; rewrite Z.mod_small by lia; ring).
    rewrite (proj2 (Z.leb_le _ _)) by lia; ring.
  - rewrite Z.mod_small by lia.
    rewrite (proj2 (Z.leb_gt _ _)) by lia; reflexivity.
Qed.

Lemma sleb_value_range bs :
  bs <> [] -> (length bs <= 9)%nat -> -2 ^ 63 <= sleb_value bs < 2 ^ 63.
Proof.
  intros Hne Hlen; unfold sleb_value.
  pose proof (groups_value_bound bs) as Hg.
  set (w := 7 * Z.of_nat (length bs)) in *.
  set (g := groups_value bs) in *.
  assert (Hw : 1 <= w <= 63) by (unfold w; destruct bs; [congruence | cbn [length] in *; lia]).
  assert (Hh : 2 ^ w = 2 * 2 ^ (w - 1))
    by (rewrite <- Z.pow_succ_r by lia; f_equal; lia).
  assert (H63 : 2 ^ (w - 1) <= 2 ^ 62) by (apply Z.pow_le_mono_r; lia).
  change (2 ^ 63) with (2 * 2 ^ 62).
  destruct (Z.testbit g (w - 1)) eqn:E.
  - destruct (Z.lt_ge_cases g (2 ^ (w - 1))) as [Hl | Hl]; [| lia].
    rewrite <- (Z.mod_small g (2 ^ (w - 1))) in E by lia.
    rewrite Z.mod_pow2_bits_high in E by lia; discriminate.
  - destruct (Z.lt_ge_cases g (2 ^ (w - 1))) as [Hl | Hl]; [lia |].
    exfalso.
    replace g with (Z.lor (g - 2 ^ (w - 1)) (1 * 2 ^ (w - 1))) in E
      by (rewrite lor_low_high by lia; ring).
    rewrite Z.lor_spec, Z.mul_1_l, Z.pow2_bits_true in E by lia.
    rewrite orb_true_r in E; discriminate.
Qed.

Lemma to_s64_range z : 0 <= z < 2 ^ 64 -> -2 ^ 63 <= to_s64 z < 2 ^ 63.
Proof.
  intros Hz; unfold to_s64.
  destruct (2 ^ 63 <=? z) eqn:E;
    [apply Z.leb_le in E | apply Z.leb_gt in E]; lia.
Qed.

(** the first [k] bytes of a signed LEB128 encoding longer than [k] all
    have the continuation bit set *)
Lemma sleb_encoding_firstn bs :
  is_sleb_encoding bs = true ->
  forall k, (k < length bs)%nat ->
  Forall (fun b => Z.land b 128 <> 0) (firstn k bs).
Proof.
  induction bs as [| b bs IH]; intros Henc k Hk; [discriminate |].
  destruct k as [| k]; [constructor |].
  destruct bs as [| b' bs']; [cbn [length] in Hk; lia |].
  change (is_sleb_encoding (b :: b' :: bs'))
    with ((0 <=? b) && (b <? 256) && negb (Z.land b 128 =? 0)
          && is_sleb_encoding (b' :: bs')) in Henc.
  apply andb_true_iff in Henc as [Hb Henc].
  apply andb_true_iff in Hb as [_ Hb].
  apply negb_true_iff, Z.eqb_neq in Hb.
  cbn [firstn]; constructor; [exact Hb |].
  apply IH; [exact Henc | cbn [length] in *; lia].
Qed.

(** continuation bytes read below shift 64 only accumulate: the loop goes
    on with the shift advanced by 7 per byte *)
Lemma sleb_loop_continue p :
  Forall (fun b => Z.land b 128 <> 0) p ->
  forall r s, s + 7 * Z.of_nat (length p) <= 70 ->
  exists r', forall c,
    sleb_loop r s (p ++ c) = sleb_loop r' (s + 7 * Z.of_nat (length p)) c.
Proof.
  induction 1 as [| b p Hb Hp IH]; intros r s Hs.
  - exists r; intros c; cbn [app length]; rewrite Z.add_0_r; reflexivity.
  - cbn [length] in Hs.
    destruct (IH (Z.lor r (u64_shl (Z.land b 127) s)) (s + 7)) as [r' Hr'];
      [lia |].
    exists r'; intros c; cbn [app]; rewrite sleb_loop_cons.
    rewrite (proj2 (Z.leb_gt 64 s)) by lia.
    rewrite (proj2 (Z.eqb_neq _ 0) Hb), Hr'.
    f_equal; cbn [length]; lia.
Qed.

End DwarfFacts.

(** Claim C8, counterexample. The ten-byte encoding
    [80 80 80 80 80 80 80 80 80 01] (hex) is a well-formed signed LEB128
    encoding of 2^63, but [Cursor::sleb128] keeps only the low 64 bits and
    returns -2^63; and the eleven-byte padded encoding
    [80 80 80 80 80 80 80 80 80 80 00] of 0 makes the decoder shift by 70
    bits, an undefined shift of a 64-bit value. *)
Lemma sleb128_wide_encodings :
  let bs := [128; 128; 128; 128; 128; 128; 128; 128; 128; 1] in
  let zero := [128; 128; 128; 128; 128; 128; 128; 128; 128; 128; 0] in
  is_sleb_encoding bs = true /\ sleb_value bs = 2 ^ 63 /\
  sleb128 bs = Some (- 2 ^ 63, []) /\
  is_sleb_encoding zero = true /\ sleb_value zero = 0 /\
  sleb128 zero = None.
Proof. vm_compute; repeat split. Qed.

(** Claim C8, amended. For every well-formed signed LEB128 encoding [bs]
    followed by any bytes [rest]:
    - if [bs] has at most ten bytes, [Cursor::sleb128] (low 7 bits
      accumulated in little-endian groups, sign extension when the stop
      byte's 0x40 bit is set and the shift is below 64) consumes exactly
      [bs] and returns the mathematical value of [bs] reduced to 64-bit
      two's complement; so it returns the mathematical value exactly when
      that value lies in [-2^63, 2^63), in particular for every encoding of
      at most nine bytes;
    - if [bs] has eleven bytes or more, its first ten bytes bring the shift
      to 70 and the loop then shifts the eleventh byte by 70 bits, an
      undefined shift of a 64-bit value ([None]). *)
Theorem sleb128_value_mod_2_64 (bs rest : list Z) :
  is_sleb_encoding bs = true ->
  ((length bs <= 10)%nat ->
   sleb128 (bs ++ rest) = Some (to_s64 (sleb_value bs mod 2 ^ 64), rest) /\
   (sleb128 (bs ++ rest) = Some (sleb_value bs, rest) <->
    -2 ^ 63 <= sleb_value bs < 2 ^ 63) /\
   ((length bs <= 9)%nat -> sleb128 (bs ++ rest) = Some (sleb_value bs, rest)))
  /\
  ((11 <= length bs)%nat ->
   (exists r, forall c, sleb_loop 0 0 (firstn 10 bs ++ c) = sleb_loop r 70 c) /\
   skipn 10 bs <> [] /\
   sleb128 (bs ++ rest) = None).
Proof.
  intros Henc.
  assert (Hne : bs <> []) by (intros ->; discriminate).
  split.
  - intros Hlen.
    pose proof (DwarfFacts.sleb128_mod bs rest Henc Hlen) as Hm.
    assert (Hin : -2 ^ 63 <= sleb_value bs < 2 ^ 63 ->
                  sleb128 (bs ++ rest) = Some (sleb_value bs, rest)).
    { intros Hr; rewrite Hm, DwarfFacts.to_s64_mod by exact Hr; reflexivity. }
    split; [exact Hm |].
    split; [split; [| exact Hin] |].
    + intros Heq; rewrite Hm in Heq.
      injection Heq as Hv; rewrite <- Hv.
      apply DwarfFacts.to_s64_range, Z.mod_pos_bound; lia.
    + intros H9; apply Hin, DwarfFacts.sleb_value_range; assumption.
  - intros Hlen.
    pose proof (DwarfFacts.sleb_encoding_firstn bs Henc 10 ltac:(lia)) as Hc.
    assert (Hl10 : length (firstn 10 bs) = 10%nat)
      by (rewrite length_firstn; lia).
    destruct (DwarfFacts.sleb_loop_continue _ Hc 0 0 ltac:(rewrite Hl10; lia))
      as [r Hr].
    rewrite Hl10 in Hr; change (0 + 7 * Z.of_nat 10) with 70 in Hr.
    assert (Hs : skipn 10 bs <> [])
      by (intros E; apply (f_equal (@length Z)) in E;
          rewrite length_skipn in E; cbn [length] in E; lia).
    split; [exists r; exact Hr |].
    split; [exact Hs |].
    unfold sleb128.
    rewrite <- (firstn_skipn 10 bs), <- app_assoc, Hr.
    destruct (skipn 10 bs) as [| b tl]; [congruence |].
    reflexivity.
Qed.

Lemma sleb128_value_mod_2_64_witness :
  sleb_value [192; 187; 120] = -123456 /\
  sleb128 ([192; 187; 120] ++ [7]) = Some (-123456, [7]) /\
  sleb128 ([128; 128; 128; 128; 128; 128; 128; 128; 128; 128; 0] ++ [7])
  = None.
Proof.
  split; [vm_compute; reflexivity |].
  split.
  - destruct (proj1 (sleb128_value_mod_2_64 [192; 187; 120] [7]
                      ltac:(vm_compute; reflexivity)) ltac:(cbn; lia))
      as [_ [_ H9]].
    rewrite H9 by (cbn; lia).
    vm_compute; reflexivity.
  - exact (proj2 (proj2 (proj2 (sleb128_value_mod_2_64
             [128; 128; 128; 128; 128; 128; 128; 128; 128; 128; 0] [7]
             ltac:(vm_compute; reflexivity)) ltac:(cbn; lia)))).
Defined.

(** ** Facts about [Process::ReadMemory], [Process::WriteMemory] and the
    enabling and disabling of breakpoint sites *)
Module MemoryOpsFacts.
Import MemoryOps MemoryFacts.

(** the chunks cover [address, ...) one after the other, modulo 2^64, each
    non-empty and inside one page *)
Fixpoint tiles (address : Z) (chunks : list (Z * Z)) : Prop :=
  match chunks with
  | [] => True
  | (base, len) :: rest =>
      base = address /\ 1 <= len /\ base mod 4096 + len <= 4096 /\
      tiles (to_u64 (base + len)) rest
  end.

Definition total_size (chunks : list (Z * Z)) : Z :=
  fold_right (fun c acc => snd c + acc) 0 chunks.

Lemma land_4095 z : Z.land z 4095 = z mod 4096.
Proof. change 4095 with (Z.ones 12); rewrite Z.land_ones by lia; reflexivity. Qed.

Lemma read_chunks_zero fuel address amount :
  amount <= 0 -> read_chunks fuel address amount = [].
Proof.
  intros H; destruct fuel; cbn; [reflexivity |].
  destruct (0 <? amount) eqn:E; [apply Z.ltb_lt in E; lia | reflexivity].
Qed.

Lemma read_chunks_spec fuel :
  forall address amount,
  0 <= amount <= Z.of_nat fuel ->
  tiles address (read_chunks fuel address amount) /\
  total_size (read_chunks fuel address amount) = amount /\
  (0 < amount ->
   Z.of_nat (length (read_chunks fuel address amount))
   = (address mod 4096 + amount + 4095) / 4096).
Proof.
  induction fuel as [| fuel IH]; intros address amount Hamt.
  - assert (amount = 0) as -> by lia; cbn; repeat split; lia.
  - cbn [read_chunks].
    destruct (0 <? amount) eqn:E.
    2:{ apply Z.ltb_ge in E; assert (amount = 0) as -> by lia.
        cbn; repeat split; lia. }
    apply Z.ltb_lt in E.
    rewrite land_4095.
    pose proof (Z.mod_pos_bound address 4096 ltac:(lia)) as Hr.
    set (r := address mod 4096) in *.
    set (c := Z.min amount (4096 - r)).
    destruct (IH (to_u64 (address + c)) (amount - c) ltac:(lia))
      as [Ht [Hs Hn]].
    split; [| split].
    + cbn; repeat split; try lia; exact Ht.
    + cbn [total_size fold_right snd] in *; fold (total_size (read_chunks fuel (to_u64 (address + c)) (amount - c))); lia.
    + intros _; cbn [length]; rewrite Nat2Z.inj_succ.
      destruct (Z.le_gt_cases amount (4096 - r)) as [Hle | Hgt].
      * assert (c = amount) as Hc by lia.
        rewrite Hc, Z.sub_diag, read_chunks_zero by lia; cbn [length].
        apply (Z.div_unique _ 4096 _ (r + amount - 1)); [left; lia | lia].
      * assert (c = 4096 - r) as Hc by lia.
        assert (Hpage : to_u64 (address + c) mod 4096 = 0).
        { unfold to_u64.
          rewrite Z.mod_mod_divide by (exists (2 ^ 52); reflexivity).
          rewrite Hc; subst r.
          rewrite (Z.div_mod address 4096) at 1 by lia.
          replace (4096 * (address / 4096) + address mod 4096
                   + (4096 - address mod 4096))
            with ((address / 4096 + 1) * 4096) by lia.
          apply Z.mod_mul; lia. }
        rewrite Hn, Hpage by lia.
        replace (r + amount + 4095) with (1 * 4096 + (0 + (amount - c) + 4095))
          by lia.
        rewrite Z.div_add_l by lia; lia.
Qed.

Lemma Forall_firstn' {A} (P : A -> Prop) n l :
  Forall P l -> Forall P (firstn n l).
Proof.
  revert l; induction n as [| n IH]; intros [| x l] H; cbn; try constructor.
  - inversion H; assumption.
  - apply IH; inversion H; assumption.
Qed.

Lemma Forall_skipn' {A} (P : A -> Prop) n l :
  Forall P l -> Forall P (skipn n l).
Proof.
  revert l; induction n as [| n IH]; intros [| x l] H; cbn; try assumption.
  apply IH; inversion H; assumption.
Qed.

Lemma poke_data_bytes mem a w : bytes_ok mem -> bytes_ok (poke_data mem a w).
Proof.
  intros Hm x; unfold poke_data.
  destruct (_ <? 8); [| apply Hm].
  change 255 with (Z.ones 8); rewrite Z.land_ones by lia.
  unfold is_byte; change 256 with (2 ^ 8); apply Z.mod_pos_bound; lia.
Qed.

(** [PTRACE_POKEDATA] of the little-endian value of eight bytes stores
    exactly these bytes at [addr, addr + 8). *)
Lemma poke_le8 mem addr bs x :
  length bs = 8%nat -> Forall is_byte bs ->
  0 <= addr -> addr + 8 <= 2 ^ 64 -> 0 <= x < 2 ^ 64 ->
  poke_data mem addr (le_value bs) x
  = if (addr <=? x) && (x <? addr + 8) then nth (Z.to_nat (x - addr)) bs 0
    else mem x.
Proof.
  intros Hl Hb Ha Ha8 Hx; unfold poke_data.
  destruct ((addr <=? x) && (x <? addr + 8)) eqn:E.
  - apply andb_true_iff in E as [E1 E2].
    apply Z.leb_le in E1; apply Z.ltb_lt in E2.
    assert (Hk : to_u64 (x - addr) = Z.of_nat (Z.to_nat (x - addr)))
      by (unfold to_u64; rewrite Z.mod_small; lia).
    rewrite Hk.
    replace (Z.of_nat (Z.to_nat (x - addr)) <? 8) with true
      by (symmetry; apply Z.ltb_lt; lia).
    apply le_value_byte; assumption.
  - assert (Hk : 8 <= to_u64 (x - addr)).
    { apply andb_false_iff in E; unfold to_u64.
      destruct E as [E | E]; [apply Z.leb_gt in E | apply Z.ltb_ge in E];
        Z.div_mod_to_equations; lia. }
    replace (to_u64 (x - addr) <? 8) with false
      by (symmetry; apply Z.ltb_ge; lia).
    reflexivity.
Qed.

Ltac cmp_cases :=
  repeat match goal with
  | |- context [?p <=? ?q] => destruct (Z.leb_spec p q)
  | |- context [?p <? ?q] => destruct (Z.ltb_spec p q)
  end; cbn [andb].

(** The loop of [Process::WriteMemory] after [written] bytes: the bytes
    from [address + written] on are the data's, everything else is as
    before (the partial last word puts back what it read). *)
Lemma write_loop_spec address data fuel :
  forall mem written,
  bytes_ok mem -> Forall is_byte data -> 0 <= address ->
  address + Z.of_nat (length data) + 8 <= 2 ^ 64 ->
  (length data <= written + 8 * fuel)%nat ->
  forall x, 0 <= x < 2 ^ 64 ->
  write_loop fuel mem address data written x
  = if (address + Z.of_nat written <=? x)
       && (x <? address + Z.of_nat (length data))
    then nth (Z.to_nat (x - address)) data 0 else mem x.
Proof.
  induction fuel as [| fuel IH]; intros mem w Hm Hd Ha Hend Hfuel x Hx.
  - cbn [write_loop]; cmp_cases; try reflexivity; lia.
  - cbn [write_loop].
    destruct (w <? length data)%nat eqn:Ew.
    2:{ apply Nat.ltb_ge in Ew; cmp_cases; try reflexivity; lia. }
    apply Nat.ltb_lt in Ew.
    assert (Hat : to_u64 (address + Z.of_nat w) = address + Z.of_nat w)
      by (unfold to_u64; apply Z.mod_small; lia).
    rewrite Hat.
    match goal with
    | |- write_loop _ (poke_data _ _ ?word) _ _ _ _ = _ =>
        assert (Hword : exists wb, word = le_value wb /\ length wb = 8%nat /\
                  Forall is_byte wb /\
                  forall k, (k < 8)%nat ->
                    nth k wb 0 = if (w + k <? length data)%nat
                                 then nth (w + k) data 0
                                 else mem (address + Z.of_nat w + Z.of_nat k))
    end.
    { destruct (8 <=? length data - w)%nat eqn:E8.
      - apply Nat.leb_le in E8.
        exists (firstn 8 (skipn w data)); split; [reflexivity |].
        split; [rewrite length_firstn, length_skipn; lia |].
        split; [apply Forall_firstn', Forall_skipn'; exact Hd |].
        intros k Hk; rewrite nth_firstn, nth_skipn.
        replace (k <? 8)%nat with true by (symmetry; apply Nat.ltb_lt; lia).
        replace (w + k <? length data)%nat with true
          by (symmetry; apply Nat.ltb_lt; lia).
        reflexivity.
      - apply Nat.leb_gt in E8.
        set (rem := (length data - w)%nat) in *.
        exists (firstn rem (skipn w data)
                ++ skipn rem (ReadMemory mem (address + Z.of_nat w) 8)).
        split; [reflexivity |].
        assert (Hlf : length (firstn rem (skipn w data)) = rem)
          by (rewrite length_firstn, length_skipn; lia).
        split; [rewrite length_app, Hlf, length_skipn, length_ReadMemory; lia |].
        split.
        { apply Forall_app; split.
          - apply Forall_firstn', Forall_skipn'; exact Hd.
          - apply Forall_skipn', ReadMemory_bytes; exact Hm. }
        intros k Hk.
        destruct (Nat.ltb_spec k rem) as [Hkr | Hkr].
        + rewrite app_nth1 by lia.
          rewrite nth_firstn, nth_skipn.
          replace (k <? rem)%nat with true by (symmetry; apply Nat.ltb_lt; lia).
          replace (w + k <? length data)%nat with true
            by (symmetry; apply Nat.ltb_lt; lia).
          reflexivity.
        + rewrite app_nth2 by lia.
          rewrite Hlf, nth_skipn, nth_ReadMemory by lia.
          replace (w + k <? length data)%nat with false
            by (symmetry; apply Nat.ltb_ge; lia).
          f_equal; unfold to_u64; rewrite Z.mod_small by lia; lia. }
    destruct Hword as [wb [-> [Hwl [Hwb Hwn]]]].
    rewrite IH; [| apply poke_data_bytes; exact Hm | exact Hd | exact Ha
                 | exact Hend | lia | exact Hx].
    rewrite poke_le8 by (try assumption; lia).
    rewrite Nat2Z.inj_add.
    cmp_cases; try reflexivity; try lia.
    + rewrite Hwn by lia.
      replace (w + Z.to_nat (x - (address + Z.of_nat w)))%nat
        with (Z.to_nat (x - address)) by lia.
      replace (Z.to_nat (x - address) <? length data)%nat with true
        by (symmetry; apply Nat.ltb_lt; lia).
      reflexivity.
    + rewrite Hwn by lia.
      replace (w + Z.to_nat (x - (address + Z.of_nat w)) <? length data)%nat
        with false by (symmetry; apply Nat.ltb_ge; lia).
      f_equal; lia.
Qed.

(** [PTRACE_POKEDATA] of the word read at [a] with its low byte replaced by
    [v] changes the byte at [a] and nothing else. *)
Lemma poke_low_byte mem a v x :
  bytes_ok mem -> is_byte v -> 0 <= a < 2 ^ 64 -> 0 <= x < 2 ^ 64 ->
  poke_data mem a (Z.lor (Z.land (peek_data mem a) (Z.lnot 255)) v) x
  = if a =? x then v else mem x.
Proof.
  intros Hm Hv Ha Hx.
  exact (disable_software_site_at mem (mkSite 0 a false false v) x Hm Hv Ha Hx).
Qed.

Lemma peek_low_byte mem a :
  0 <= a < 2 ^ 64 -> bytes_ok mem -> Z.land (peek_data mem a) 255 = mem a.
Proof.
  intros Ha Hm; unfold peek_data.
  pose proof (le_value_byte (ReadMemory mem a 8) 0 (ReadMemory_bytes mem a 8 Hm))
    as H.
  rewrite Z.mul_0_r, Z.shiftr_0_r in H; rewrite H.
  rewrite nth_ReadMemory by lia.
  f_equal; unfold to_u64; rewrite Z.mod_small; lia.
Qed.

(** a sequence of [Enable()] ([true]) and [Disable()] ([false]) calls on
    sites of the collection, by index *)
Definition run_op (st : Mem * list BreakpointSite) (op : bool * nat)
    : Mem * list BreakpointSite :=
  on_site (if fst op then Enable else Disable) (fst st) (snd st) (snd op).

Definition run_ops (mem : Mem) (sites : list BreakpointSite)
    (ops : list (bool * nat)) : Mem * list BreakpointSite :=
  fold_left run_op ops (mem, sites).

(** whether an enabled software site sits at [x] *)
Definition int3_at (sites : list BreakpointSite) (x : Z) : bool :=
  existsb (counts_at x) sites.

(** memory holds [int3] exactly where an enabled software site is, the
    original bytes elsewhere, and each such site saved the original byte *)
Definition traps_inv (orig mem : Mem) (sites : list BreakpointSite) : Prop :=
  bytes_ok mem /\
  NoDup (map site_address sites) /\
  (forall s, In s sites -> 0 <= site_address s < 2 ^ 64) /\
  (forall s x, In s sites -> counts_at x s = true -> saved_data s = orig x) /\
  (forall x, 0 <= x < 2 ^ 64 -> mem x = if int3_at sites x then 204 else orig x).

Lemma replace_nth_same {A} (l : list A) i v :
  nth_error l i = Some v -> replace_nth l i v = l.
Proof.
  revert i; induction l as [| h t IH]; intros [| i] H; cbn in *;
    try discriminate; [injection H as ->; reflexivity | f_equal; apply IH, H].
Qed.

Lemma In_replace_nth {A} (l : list A) i v t :
  In t (replace_nth l i v) -> t = v \/ In t l.
Proof.
  revert i; induction l as [| h l IH]; intros [| i] H; cbn in *;
    try contradiction.
  - destruct H as [<- | H]; [left; reflexivity | right; right; exact H].
  - destruct H as [<- | H]; [right; left; reflexivity |].
    destruct (IH i H) as [E | E]; [left; exact E | right; right; exact E].
Qed.

Lemma map_replace_nth (l : list BreakpointSite) i s v :
  nth_error l i = Some s -> site_address v = site_address s ->
  map site_address (replace_nth l i v) = map site_address l.
Proof.
  revert i; induction l as [| h l IH]; intros [| i] H Hv; cbn in *;
    try discriminate.
  - injection H as ->; rewrite Hv; reflexivity.
  - f_equal; apply IH; assumption.
Qed.

Lemma int3_at_absent sites x :
  ~ In x (map site_address sites) -> int3_at sites x = false.
Proof.
  unfold int3_at; induction sites as [| s sites IH]; intros H; [reflexivity |].
  cbn [existsb]; cbn [map In] in H.
  rewrite IH by tauto; unfold counts_at.
  destruct (Z.eqb_spec (site_address s) x); [tauto |].
  rewrite andb_false_r; reflexivity.
Qed.

Lemma counts_at_other x s :
  site_address s <> x -> counts_at x s = false.
Proof.
  intros H; unfold counts_at; apply Z.eqb_neq in H; rewrite H.
  apply andb_false_r.
Qed.

(** replacing a site by one at the same address changes [int3_at] only
    there, the addresses being distinct *)
Lemma int3_at_replace sites i s v x :
  NoDup (map site_address sites) -> nth_error sites i = Some s ->
  site_address v = site_address s ->
  int3_at (replace_nth sites i v) x
  = if site_address s =? x then counts_at x v else int3_at sites x.
Proof.
  revert i; induction sites as [| h t IH]; intros [| i] Hnd Hi Hv;
    cbn in Hi; try discriminate;
    cbn [map] in Hnd; inversion Hnd as [| ? ? Hnot Hnd']; subst.
  - injection Hi as <-; cbn [replace_nth]; unfold int3_at; cbn [existsb].
    destruct (Z.eqb_spec (site_address h) x) as [E | Hne].
    + rewrite <- E; fold (int3_at t (site_address h)).
      rewrite int3_at_absent by exact Hnot; apply orb_false_r.
    + rewrite !counts_at_other by congruence; reflexivity.
  - cbn [replace_nth]; unfold int3_at; cbn [existsb].
    fold (int3_at (replace_nth t i v) x) (int3_at t x).
    rewrite IH by assumption.
    destruct (Z.eqb_spec (site_address s) x) as [Es | Hne]; [| reflexivity].
    rewrite counts_at_other; [reflexivity |].
    intros E; apply Hnot; rewrite E, <- Es.
    apply in_map, (nth_error_In _ _ Hi).
Qed.

Lemma int3_at_site sites i s :
  NoDup (map site_address sites) -> nth_error sites i = Some s ->
  int3_at sites (site_address s) = counts_at (site_address s) s.
Proof.
  intros Hnd Hi.
  pose proof (int3_at_replace sites i s s (site_address s) Hnd Hi eq_refl) as H.
  rewrite replace_nth_same, Z.eqb_refl in H by exact Hi; exact H.
Qed.

Lemma Enable_step orig mem sites i s :
  bytes_ok orig -> traps_inv orig mem sites -> nth_error sites i = Some s ->
  traps_inv orig (fst (Enable mem s)) (replace_nth sites i (snd (Enable mem s))).
Proof.
  intros Ho [Hm [Hnd [Hr [Hsv Hx]]]] Hi.
  pose proof (nth_error_In _ _ Hi) as Hin.
  assert (Hsite : int3_at sites (site_address s) = counts_at (site_address s) s)
    by (eapply int3_at_site; eassumption).
  unfold Enable; destruct (is_enabled s) eqn:Ee.
  { cbn [fst snd]; rewrite replace_nth_same by exact Hi.
    exact (conj Hm (conj Hnd (conj Hr (conj Hsv Hx)))). }
  destruct (is_hardware s) eqn:Eh; cbn [fst snd].
  - set (s' := with_enabled s true (saved_data s)).
    assert (Hc : forall x, counts_at x s' = false)
      by (intros x; unfold counts_at; cbn; rewrite Eh; reflexivity).
    split; [exact Hm |].
    split; [rewrite (map_replace_nth _ _ s) by (assumption || reflexivity);
            exact Hnd |].
    split; [intros t Ht; destruct (In_replace_nth _ _ _ _ Ht) as [-> | Ht'];
            [apply (Hr s Hin) | apply Hr, Ht'] |].
    split; [intros t x Ht Htx; destruct (In_replace_nth _ _ _ _ Ht) as [-> | Ht'];
            [rewrite Hc in Htx; discriminate | apply Hsv; assumption] |].
    intros x Hxr; rewrite Hx by exact Hxr.
    rewrite (int3_at_replace _ _ s) by (assumption || reflexivity).
    rewrite Hc; destruct (Z.eqb_spec (site_address s) x) as [<- | _];
      [| reflexivity].
    rewrite Hsite; unfold counts_at; rewrite Eh, andb_false_r; reflexivity.
  - set (a := site_address s) in *.
    set (s' := with_enabled s true (Z.land (peek_data mem a) 255)).
    assert (Hc : forall x, counts_at x s' = (a =? x))
      by (intros x; unfold counts_at; cbn; rewrite Eh; reflexivity).
    assert (Hsaved : saved_data s' = orig a).
    { unfold s', with_enabled; cbn [saved_data].
      rewrite peek_low_byte by (apply Hr in Hin; assumption).
      rewrite Hx by (apply Hr, Hin).
      rewrite Hsite; unfold counts_at; rewrite Ee; reflexivity. }
    split; [apply poke_data_bytes, Hm |].
    split; [rewrite (map_replace_nth _ _ s) by (assumption || reflexivity);
            exact Hnd |].
    split; [intros t Ht; destruct (In_replace_nth _ _ _ _ Ht) as [-> | Ht'];
            [apply (Hr s Hin) | apply Hr, Ht'] |].
    split.
    { intros t x Ht Htx; destruct (In_replace_nth _ _ _ _ Ht) as [-> | Ht'];
        [| apply Hsv; assumption].
      rewrite Hc in Htx; apply Z.eqb_eq in Htx; subst x; exact Hsaved. }
    intros x Hxr.
    rewrite poke_low_byte by (try apply Hr; try assumption; unfold is_byte; lia).
    rewrite (int3_at_replace _ _ s) by (assumption || reflexivity).
    rewrite Hc; change (site_address s) with a.
    destruct (a =? x); [reflexivity | apply Hx, Hxr].
Qed.

Lemma Disable_step orig mem sites i s :
  bytes_ok orig -> traps_inv orig mem sites -> nth_error sites i = Some s ->
  traps_inv orig (fst (Disable mem s)) (replace_nth sites i (snd (Disable mem s))).
Proof.
  intros Ho [Hm [Hnd [Hr [Hsv Hx]]]] Hi.
  pose proof (nth_error_In _ _ Hi) as Hin.
  assert (Hsite : int3_at sites (site_address s) = counts_at (site_address s) s)
    by (eapply int3_at_site; eassumption).
  unfold Disable; destruct (is_enabled s) eqn:Ee; cbn [negb].
  2:{ cbn [fst snd]; rewrite replace_nth_same by exact Hi.
      exact (conj Hm (conj Hnd (conj Hr (conj Hsv Hx)))). }
  set (s' := with_enabled s false (saved_data s)).
  assert (Hc : forall x, counts_at x s' = false)
    by (intros x; unfold counts_at; reflexivity).
  assert (Hinv' : forall mem', bytes_ok mem' ->
            (forall x, 0 <= x < 2 ^ 64 ->
               mem' x = if site_address s =? x then orig x else mem x) ->
            traps_inv orig mem' (replace_nth sites i s')).
  { intros mem' Hm' Hx'.
    split; [exact Hm' |].
    split; [rewrite (map_replace_nth _ _ s) by (assumption || reflexivity);
            exact Hnd |].
    split; [intros t Ht; destruct (In_replace_nth _ _ _ _ Ht) as [-> | Ht'];
            [apply (Hr s Hin) | apply Hr, Ht'] |].
    split; [intros t x Ht Htx; destruct (In_replace_nth _ _ _ _ Ht) as [-> | Ht'];
            [rewrite Hc in Htx; discriminate | apply Hsv; assumption] |].
    intros x Hxr; rewrite Hx' by exact Hxr.
    rewrite (int3_at_replace _ _ s) by (assumption || reflexivity).
    rewrite Hc; destruct (site_address s =? x); [reflexivity | apply Hx, Hxr]. }
  destruct (is_hardware s) eqn:Eh; cbn [fst snd]; apply Hinv'.
  - exact Hm.
  - intros x Hxr; destruct (Z.eqb_spec (site_address s) x) as [<- | _];
      [| reflexivity].
    rewrite Hx, Hsite by exact Hxr.
    unfold counts_at; rewrite Eh, andb_false_r; reflexivity.
  - apply disable_software_site_bytes, Hm.
  - assert (Hsv' : saved_data s = orig (site_address s)).
    { apply Hsv; [exact Hin |].
      unfold counts_at; rewrite Ee, Eh, Z.eqb_refl; reflexivity. }
    intros x Hxr; rewrite disable_software_site_at
      by (try apply Hr; try assumption; rewrite Hsv'; apply Ho).
    destruct (Z.eqb_spec (site_address s) x) as [<- | _];
      [exact Hsv' | reflexivity].
Qed.

Lemma run_ops_inv orig ops :
  forall st, bytes_ok orig -> traps_inv orig (fst st) (snd st) ->
  let st' := fold_left run_op ops st in
  traps_inv orig (fst st') (snd st').
Proof.
  induction ops as [| [b i] ops IH]; intros [mem sites] Ho Hinv;
    [exact Hinv |].
  cbn [fold_left]; apply IH; [exact Ho |].
  cbn [fst snd] in *; unfold run_op, on_site; cbn [fst snd].
  destruct (nth_error sites i) as [s |] eqn:Hi; [| exact Hinv].
  destruct b.
  - pose proof (Enable_step orig mem sites i s Ho Hinv Hi) as H.
    destruct (Enable mem s); exact H.
  - pose proof (Disable_step orig mem sites i s Ho Hinv Hi) as H.
    destruct (Disable mem s); exact H.
Qed.

Lemma last_saved_int3 orig sites x :
  (forall s, In s sites -> counts_at x s = true -> saved_data s = orig x) ->
  forall d, last_saved sites x d = if int3_at sites x then orig x else d.
Proof.
  induction sites as [| s sites IH]; intros Hsv d; [reflexivity |].
  change (last_saved (s :: sites) x d)
    with (last_saved sites x (if counts_at x s then saved_data s else d)).
  rewrite IH by (intros t Ht; apply Hsv; right; exact Ht).
  unfold int3_at; cbn [existsb]; fold (int3_at sites x).
  destruct (int3_at sites x); [rewrite orb_true_r; reflexivity |].
  rewrite orb_false_r.
  destruct (counts_at x s) eqn:E; [apply Hsv; [left |]; auto | reflexivity].
Qed.

Lemma land255_bytes : bytes_ok (fun x => Z.land x 255).
Proof.
  intros x; unfold is_byte; change 255 with (Z.ones 8).
  rewrite Z.land_ones by lia; change 256 with (2 ^ 8).
  apply Z.mod_pos_bound; lia.
Qed.

End MemoryOpsFacts.

Import MemoryOps.

(** X1: [Process::ReadMemory] asks [process_vm_readv] for remote chunks
    that follow each other from [address] (modulo 2^64), each non-empty and
    inside one 4 KiB page, whose sizes add up to [amount]; for a non-empty
    read there is one chunk per page touched. *)
Theorem read_memory_page_chunks (address : Z) (amount : nat) :
  MemoryOpsFacts.tiles address (ReadMemory_descs address amount) /\
  MemoryOpsFacts.total_size (ReadMemory_descs address amount) = Z.of_nat amount /\
  ((0 < amount)%nat ->
   Z.of_nat (length (ReadMemory_descs address amount))
   = (address mod 4096 + Z.of_nat amount + 4095) / 4096).
Proof.
  unfold ReadMemory_descs.
  destruct (MemoryOpsFacts.read_chunks_spec amount address (Z.of_nat amount)
              ltac:(lia)) as [Ht [Hs Hn]].
  split; [exact Ht |]; split; [exact Hs |].
  intros H; apply Hn; lia.
Qed.

(** X2: [Process::WriteMemory(address, data)] leaves the data's bytes at
    [address, address + size) and every other byte as it was (the partial
    last word writes back the bytes it read); reading the range back gives
    the data. *)
Theorem write_memory_spec (mem : Mem) (address : Z) (data : list Z) :
  MemoryFacts.bytes_ok mem -> Forall MemoryFacts.is_byte data ->
  0 <= address -> address + Z.of_nat (length data) + 8 <= 2 ^ 64 ->
  (forall x, 0 <= x < 2 ^ 64 ->
     WriteMemory mem address data x
     = if (address <=? x) && (x <? address + Z.of_nat (length data))
       then nth (Z.to_nat (x - address)) data 0 else mem x) /\
  ReadMemory (WriteMemory mem address data) address (length data) = data.
Proof.
  intros Hm Hd Ha Hend.
  assert (Hpt : forall x, 0 <= x < 2 ^ 64 ->
     WriteMemory mem address data x
     = if (address <=? x) && (x <? address + Z.of_nat (length data))
       then nth (Z.to_nat (x - address)) data 0 else mem x).
  { intros x Hx; unfold WriteMemory.
    rewrite MemoryOpsFacts.write_loop_spec by (try assumption; lia).
    rewrite Z.add_0_r; reflexivity. }
  split; [exact Hpt |].
  apply nth_ext with 0 0; [apply MemoryFacts.length_ReadMemory |].
  intros k Hk; rewrite MemoryFacts.length_ReadMemory in Hk.
  rewrite MemoryFacts.nth_ReadMemory by exact Hk.
  unfold to_u64; rewrite Z.mod_small by lia.
  rewrite Hpt by lia.
  replace ((address <=? address + Z.of_nat k)
           && (address + Z.of_nat k <? address + Z.of_nat (length data)))
    with true by (symmetry; apply andb_true_iff; split;
                  [apply Z.leb_le | apply Z.ltb_lt]; lia).
  f_equal; lia.
Qed.

Lemma write_memory_spec_witness :
  MemoryFacts.bytes_ok (fun x => Z.land x 255) /\
  ReadMemory (WriteMemory (fun x => Z.land x 255) 4094 [7; 8; 9]) 4094 3
  = [7; 8; 9] /\
  WriteMemory (fun x => Z.land x 255) 4094 [7; 8; 9] 4097 = 1.
Proof.
  destruct (write_memory_spec (fun x => Z.land x 255) 4094 [7; 8; 9]
              MemoryOpsFacts.land255_bytes
              ltac:(repeat constructor; unfold MemoryFacts.is_byte; lia)
              ltac:(lia) ltac:(cbn; lia)) as [Hpt Hrb].
  split; [exact MemoryOpsFacts.land255_bytes |].
  split; [exact Hrb |].
  rewrite Hpt by lia; reflexivity.
Defined.

(** X3: [BreakpointSite::Enable] on a disabled software site saves the
    byte at its address and writes [int3] (0xcc) there and nowhere else;
    [Disable] afterwards gives back the memory as it was. *)
Theorem enable_then_disable_restores (mem : Mem) (s : BreakpointSite) :
  MemoryFacts.bytes_ok mem -> is_enabled s = false -> is_hardware s = false ->
  0 <= site_address s < 2 ^ 64 ->
  let (mem1, s1) := Enable mem s in
  is_enabled s1 = true /\ saved_data s1 = mem (site_address s) /\
  (forall x, 0 <= x < 2 ^ 64 ->
     mem1 x = if site_address s =? x then 204 else mem x) /\
  is_enabled (snd (Disable mem1 s1)) = false /\
  (forall x, 0 <= x < 2 ^ 64 -> fst (Disable mem1 s1) x = mem x).
Proof.
  intros Hm Ee Eh Ha.
  assert (Hpoke : forall x, 0 <= x < 2 ^ 64 ->
    poke_data mem (site_address s)
      (Z.lor (Z.land (peek_data mem (site_address s)) (Z.lnot 255)) 204) x
    = if site_address s =? x then 204 else mem x)
    by (intros x Hx; apply MemoryOpsFacts.poke_low_byte;
        try assumption; unfold MemoryFacts.is_byte; lia).
  unfold Enable; rewrite Ee, Eh.
  split; [reflexivity |].
  split; [apply MemoryOpsFacts.peek_low_byte; assumption |].
  split; [exact Hpoke |].
  unfold Disable, with_enabled.
  cbn [is_enabled is_hardware negb site_address saved_data]; rewrite Eh.
  cbn [fst snd is_enabled].
  split; [reflexivity |].
  intros x Hx.
  rewrite MemoryFacts.disable_software_site_at;
    [| apply MemoryOpsFacts.poke_data_bytes, Hm
     | cbn [saved_data];
       rewrite MemoryOpsFacts.peek_low_byte by assumption; apply Hm
     | exact Ha | exact Hx].
  cbn [site_address saved_data].
  rewrite MemoryOpsFacts.peek_low_byte by assumption.
  rewrite Hpoke by exact Hx.
  destruct (Z.eqb_spec (site_address s) x) as [<- | _]; reflexivity.
Qed.

Lemma enable_then_disable_restores_witness :
  MemoryFacts.bytes_ok (fun x => Z.land x 255) /\
  fst (Enable (fun x => Z.land x 255) (mkSite 1 4097 false false 0)) 4097 = 204 /\
  fst (Disable (fst (Enable (fun x => Z.land x 255) (mkSite 1 4097 false false 0)))
               (snd (Enable (fun x => Z.land x 255) (mkSite 1 4097 false false 0))))
      4097 = 1.
Proof.
  pose proof (enable_then_disable_restores (fun x => Z.land x 255)
                (mkSite 1 4097 false false 0) MemoryOpsFacts.land255_bytes
                eq_refl eq_refl ltac:(cbn; lia)) as H.
  split; [exact MemoryOpsFacts.land255_bytes |].
  destruct (Enable (fun x => Z.land x 255) (mkSite 1 4097 false false 0))
    as [mem1 s1].
  destruct H as [_ [_ [Hm1 [_ Hd]]]].
  split; [rewrite Hm1 by lia; reflexivity |].
  rewrite Hd by lia; reflexivity.
Defined.

(** X4: after any sequence of [Enable()] and [Disable()] calls on the sites
    of a collection (distinct addresses, all created disabled), memory holds
    [int3] at the addresses of the enabled software sites and the original
    bytes everywhere else, and [ReadMemoryWithoutTraps] reads the original
    bytes. *)
Theorem breakpoint_sites_hide_int3 (orig : Mem) (sites : list BreakpointSite)
    (ops : list (bool * nat)) :
  MemoryFacts.bytes_ok orig -> NoDup (map site_address sites) ->
  (forall s, In s sites -> 0 <= site_address s < 2 ^ 64 /\ is_enabled s = false) ->
  let (mem, sites') := MemoryOpsFacts.run_ops orig sites ops in
  (forall x, 0 <= x < 2 ^ 64 ->
     mem x = if MemoryOpsFacts.int3_at sites' x then 204 else orig x) /\
  (forall a n, 0 <= a -> a + Z.of_nat n < 2 ^ 64 ->
     ReadMemoryWithoutTraps mem sites' a n = ReadMemory orig a n).
Proof.
  intros Ho Hnd Hs.
  assert (Hoff : forall x, MemoryOpsFacts.int3_at sites x = false).
  { intros x; destruct (MemoryOpsFacts.int3_at sites x) eqn:E; [| reflexivity].
    apply existsb_exists in E as [s [Hin Hc]].
    unfold MemoryFacts.counts_at in Hc; rewrite (proj2 (Hs s Hin)) in Hc.
    discriminate. }
  assert (H0 : MemoryOpsFacts.traps_inv orig orig sites).
  { split; [exact Ho |]; split; [exact Hnd |].
    split; [intros s Hin; apply Hs, Hin |].
    split; [intros s x Hin Hc; unfold MemoryFacts.counts_at in Hc;
            rewrite (proj2 (Hs s Hin)) in Hc; discriminate |].
    intros x _; rewrite Hoff; reflexivity. }
  pose proof (MemoryOpsFacts.run_ops_inv orig ops (orig, sites) Ho H0) as Hinv.
  unfold MemoryOpsFacts.run_ops.
  destruct (fold_left MemoryOpsFacts.run_op ops (orig, sites)) as [mem sites'].
  cbn [fst snd] in Hinv.
  destruct Hinv as [_ [_ [_ [Hsv Hx]]]].
  split; [exact Hx |].
  intros a n Ha Hn.
  apply nth_ext with 0 0;
    [rewrite MemoryFacts.length_without_traps, MemoryFacts.length_ReadMemory;
     reflexivity |].
  intros k Hk; rewrite MemoryFacts.length_without_traps in Hk.
  rewrite MemoryFacts.nth_without_traps, MemoryFacts.nth_ReadMemory by lia.
  rewrite (MemoryOpsFacts.last_saved_int3 orig)
    by (intros s Hin Hc; exact (Hsv s _ Hin Hc)).
  unfold to_u64; rewrite Z.mod_small by lia.
  rewrite Hx by lia.
  destruct (MemoryOpsFacts.int3_at sites' (a + Z.of_nat k)); reflexivity.
Qed.

Lemma breakpoint_sites_hide_int3_witness :
  MemoryFacts.bytes_ok (fun x => Z.land x 255) /\
  let (mem, sites') :=
    MemoryOpsFacts.run_ops (fun x => Z.land x 255)
      [mkSite 1 4097 false false 0; mkSite 2 4099 false false 0]
      [(true, 0%nat); (true, 1%nat); (false, 0%nat)] in
  mem 4099 = 204 /\
  ReadMemoryWithoutTraps mem sites' 4096 4 = [0; 1; 2; 3].
Proof.
  pose proof (breakpoint_sites_hide_int3 (fun x => Z.land x 255)
                [mkSite 1 4097 false false 0; mkSite 2 4099 false false 0]
                [(true, 0%nat); (true, 1%nat); (false, 0%nat)]
                MemoryOpsFacts.land255_bytes
                ltac:(repeat constructor; cbn; lia)
                ltac:(intros s Hin; cbn in Hin;
                      destruct Hin as [<- | [<- | []]]; cbn; lia)) as H.
  split; [exact MemoryOpsFacts.land255_bytes |].
  destruct (MemoryOpsFacts.run_ops _ _ _) as [mem sites'] eqn:E.
  destruct H as [Hx Hr].
  split.
  - rewrite Hx by lia.
    replace sites' with (snd (MemoryOpsFacts.run_ops (fun x => Z.land x 255)
      [mkSite 1 4097 false false 0; mkSite 2 4099 false false 0]
      [(true, 0%nat); (true, 1%nat); (false, 0%nat)])) by (rewrite E; reflexivity).
    vm_compute; reflexivity.
  - rewrite Hr by lia; vm_compute; reflexivity.
Defined.

(** ** Facts about the allocator's failures and the watchpoint collection *)
Module CollectionFacts.
Import Watchpoints.

Lemma StronglySorted_snoc {A} (R : A -> A -> Prop) (l : list A) (x : A) :
  StronglySorted R l -> Forall (fun y => R y x) l ->
  StronglySorted R (l ++ [x]).
Proof.
  induction l as [| y l IH]; intros Hs Hf; cbn.
  - constructor; constructor.
  - inversion Hs as [| ? ? Hs' Hy]; subst; inversion Hf as [| ? ? Hyx Hf']; subst.
    constructor; [apply IH; assumption |].
    apply Forall_app; split; [exact Hy | constructor; [exact Hyx | constructor]].
Qed.

Lemma map_erase_first_NoDup {A B} (f : A -> B) (p : A -> bool) (l : list A) :
  NoDup (map f l) -> NoDup (map f (erase_first p l)).
Proof.
  induction l as [| x l IH]; intros H; cbn; [constructor |].
  cbn in H; inversion H as [| ? ? Hn Hl]; subst.
  destruct (p x); [exact Hl |].
  cbn; constructor; [| apply IH, Hl].
  intros Hin; apply Hn.
  apply in_map_iff in Hin as [y [<- Hy]].
  apply in_map, (WatchpointFacts.in_erase_first _ _ _ Hy).
Qed.

Lemma map_erase_first_sorted {A B} (R : B -> B -> Prop) (f : A -> B)
    (p : A -> bool) (l : list A) :
  StronglySorted R (map f l) -> StronglySorted R (map f (erase_first p l)).
Proof.
  induction l as [| x l IH]; intros H; cbn; [constructor |].
  cbn in H; inversion H as [| ? ? Hl Hf]; subst.
  destruct (p x); [exact Hl |].
  cbn; constructor; [apply IH, Hl |].
  apply Forall_forall; intros b Hb.
  apply in_map_iff in Hb as [y [<- Hy]].
  rewrite Forall_forall in Hf; apply Hf, in_map,
    (WatchpointFacts.in_erase_first _ _ _ Hy).
Qed.

Lemma map_update_first {A B} (f : A -> B) (p : A -> bool) (g : A -> A)
    (l : list A) :
  (forall x, f (g x) = f x) -> map f (update_first p g l) = map f l.
Proof.
  intros Hg; induction l as [| x l IH]; cbn; [reflexivity |].
  destruct (p x); cbn; rewrite ?Hg, ?IH; reflexivity.
Qed.

Definition collection_ok (st : WState) : Prop :=
  NoDup (map wp_address (watchpoints st)) /\
  StronglySorted Z.lt (map wp_id (watchpoints st)) /\
  (forall w, In w (watchpoints st) -> 1 <= wp_id w <= last_id st) /\
  0 <= last_id st.

Lemma contains_address_false wps a :
  contains_address wps a = false -> ~ In a (map wp_address wps).
Proof.
  unfold contains_address; intros H Hin.
  apply in_map_iff in Hin as [w [Hw Hin]].
  assert (existsb (fun w => wp_address w =? a) wps = true)
    by (apply existsb_exists; exists w; split; [exact Hin | apply Z.eqb_eq, Hw]).
  congruence.
Qed.

Lemma step_collection_ok st st' :
  collection_ok st -> wp_step st st' -> collection_ok st'.
Proof.
  intros [Hnd [Hs [Hr H0]]] Hstep.
  destruct Hstep as [st a m sz st' w Hc | st id Hex | st a Hex | st id b];
    unfold collection_ok; cbn [watchpoints last_id].
  - unfold CreateWatchpoint in Hc.
    destruct (contains_address (watchpoints st) a) eqn:Ea; [discriminate |].
    unfold make_watchpoint in Hc.
    destruct (negb (Z.land a (to_u64 (sz - 1)) =? 0)); [discriminate |].
    injection Hc as <- <-; cbn [watchpoints last_id wp_id wp_address] in *.
    rewrite !map_app; cbn [map].
    split; [| split; [| split]]; [| | | lia].
    + apply NoDup_app; [exact Hnd | constructor; [intros [] | constructor] |].
      intros x Hx [<- | []]; exact (contains_address_false _ _ Ea Hx).
    + apply StronglySorted_snoc; [exact Hs |].
      apply Forall_forall; intros i Hi.
      apply in_map_iff in Hi as [w [<- Hw]]; apply Hr in Hw; cbn; lia.
    + intros x Hx; apply in_app_or in Hx as [Hx | [<- | []]];
        [apply Hr in Hx; lia | cbn; lia].
  - split; [| split; [| split]]; [| | | exact H0].
    + apply map_erase_first_NoDup, Hnd.
    + apply map_erase_first_sorted, Hs.
    + intros x Hx; apply Hr, (WatchpointFacts.in_erase_first _ _ _ Hx).
  - split; [| split; [| split]]; [| | | exact H0].
    + apply map_erase_first_NoDup, Hnd.
    + apply map_erase_first_sorted, Hs.
    + intros x Hx; apply Hr, (WatchpointFacts.in_erase_first _ _ _ Hx).
  - rewrite !map_update_first by reflexivity.
    split; [exact Hnd |]; split; [exact Hs |]; split; [| exact H0].
    intros x Hx.
    destruct (WatchpointFacts.in_update_first _ _ _ _ Hx) as [Hin | [y [Hy ->]]];
      [apply Hr, Hin | apply Hr in Hy; exact Hy].
Qed.

End CollectionFacts.

(** X5: [SetHardwareStoppoint] with a size other than 1, 2, 4 or 8 fails
    with the invalid-size error after it has already written the address
    into the free debug register (DR7 unchanged); with no free slot it
    fails with the no-free-register error and changes nothing. *)
Theorem set_hw_stoppoint_invalid_size (das : list Z) (control address : Z)
    (mode : StoppointMode) (size : Z) :
  ~ In size [1; 2; 4; 8] ->
  SetHardwareStoppoint address mode size (mkRegs das control) =
  match spec_free_slot control with
  | Some i =>
      (mkRegs (replace_nth das (Z.to_nat i) address) control, inl InvalidSize)
  | None => (mkRegs das control, inl NoFreeRegister)
  end.
Proof.
  intros Hs.
  assert (H1 : (size =? 1) = false) by (apply Z.eqb_neq; intros ->; apply Hs; cbn; tauto).
  assert (H2 : (size =? 2) = false) by (apply Z.eqb_neq; intros ->; apply Hs; cbn; tauto).
  assert (H4 : (size =? 4) = false) by (apply Z.eqb_neq; intros ->; apply Hs; cbn; tauto).
  assert (H8 : (size =? 8) = false) by (apply Z.eqb_neq; intros ->; apply Hs; cbn; tauto).
  unfold SetHardwareStoppoint, spec_free_slot, FindFreeStoppointRegister.
  cbv delta [bind ret throw read_dr7 write_dr write_dr7 find_free_loop
               EncodeHardwareStoppointSize find] beta iota zeta.
  cbn [dr7 dr_addr].
  rewrite H1, H2, H4, H8.
  change (to_u64 (int_shl 3 (0 * 2))) with 3.
  change (to_u64 (int_shl 3 (1 * 2))) with 12.
  change (to_u64 (int_shl 3 (2 * 2))) with 48.
  change (to_u64 (int_shl 3 (3 * 2))) with 192.
  change (Z.shiftl 3 (2 * 0)) with 3.
  change (Z.shiftl 3 (2 * 1)) with 12.
  change (Z.shiftl 3 (2 * 2)) with 48.
  change (Z.shiftl 3 (2 * 3)) with 192.
  destruct (Z.land control 3 =? 0);
    [| destruct (Z.land control 12 =? 0);
       [| destruct (Z.land control 48 =? 0);
          [| destruct (Z.land control 192 =? 0)]]]; reflexivity.
Qed.

Lemma set_hw_stoppoint_invalid_size_witness :
  SetHardwareStoppoint 4096 write 3 (mkRegs [1; 0; 0; 0] 1)
  = (mkRegs [1; 4096; 0; 0] 1, inl InvalidSize).
Proof.
  rewrite (set_hw_stoppoint_invalid_size [1; 0; 0; 0] 1 4096 write 3)
    by (cbn; lia).
  reflexivity.
Defined.

(** X6: in every collection reachable through creations, removals and
    enabling or disabling, no two watchpoints share an address, the ids
    increase strictly in collection order (so no two share an id), and
    every id lies in [1, last id handed out]. *)
Theorem watchpoint_collection_invariant (st : WState) :
  reachable st ->
  NoDup (map wp_address (watchpoints st)) /\
  StronglySorted Z.lt (map wp_id (watchpoints st)) /\
  (forall w, In w (watchpoints st) -> 1 <= wp_id w <= last_id st).
Proof.
  intros H.
  enough (Hok : CollectionFacts.collection_ok st)
    by (destruct Hok as [? [? [? _]]]; tauto).
  induction H as [| st st' _ IH Hs].
  - unfold CollectionFacts.collection_ok; cbn; split; [constructor | split; [constructor | split; [intros w [] | lia]]].
  - exact (CollectionFacts.step_collection_ok st st' IH Hs).
Qed.

Lemma watchpoint_collection_invariant_witness :
  reachable (mkWState [mkWatchpoint 1 8 write false 4 (-1) 0 0;
                       mkWatchpoint 2 16 write false 8 (-1) 0 0] 2) /\
  StronglySorted Z.lt [1; 2].
Proof.
  assert (Hr : reachable (mkWState [mkWatchpoint 1 8 write false 4 (-1) 0 0;
                                    mkWatchpoint 2 16 write false 8 (-1) 0 0] 2)).
  { eapply reach_step; [eapply reach_step; [apply reach_init |] |].
    - eapply (step_create _ 8 write 4); reflexivity.
    - eapply (step_create _ 16 write 8); reflexivity. }
  split; [exact Hr |].
  exact (proj1 (proj2 (watchpoint_collection_invariant _ Hr))).
Defined.

(** ** Facts about the DWARF cursor, the compile-unit loop and range lists *)
Module DwarfOpsFacts.
Import Dwarf DwarfOps.

Lemma sleb_loop_overlong bs rest :
  Forall (fun b => Z.land b 128 <> 0) bs ->
  forall r s, 64 <= s + 7 * Z.of_nat (length bs) ->
  sleb_loop r s (bs ++ rest) = None.
Proof.
  induction 1 as [| b bs Hb Hbs IH]; intros r s Hs.
  - cbn [length app] in *; destruct rest as [| b rest]; [reflexivity |].
    cbn [sleb_loop]; rewrite (proj2 (Z.leb_le 64 s)) by lia; reflexivity.
  - cbn [app]; rewrite DwarfFacts.sleb_loop_cons.
    destruct (64 <=? s); [reflexivity |].
    rewrite (proj2 (Z.eqb_neq _ 0) Hb).
    apply IH; cbn [length] in Hs; lia.
Qed.

Lemma String_app s rest :
  ~ In 0 s -> String (s ++ 0 :: rest) = (s, Some rest).
Proof.
  induction s as [| b s IH]; intros Hin; cbn [app String]; [reflexivity |].
  rewrite (proj2 (Z.eqb_neq b 0)) by (intros ->; apply Hin; left; reflexivity).
  rewrite IH by (intros H; apply Hin; right; exact H); reflexivity.
Qed.

Lemma String_unterminated s :
  ~ In 0 s -> String s = (s, None).
Proof.
  induction s as [| b s IH]; intros Hin; cbn [String]; [reflexivity |].
  rewrite (proj2 (Z.eqb_neq b 0)) by (intros ->; apply Hin; left; reflexivity).
  rewrite IH by (intros H; apply Hin; right; exact H); reflexivity.
Qed.

(** A compile unit as [ParseCompileUnit] accepts it: at least the 11
    header bytes, its [unit_length] field the length of the rest, version
    4, address size 8. *)
Definition unit_ok (u : list Z) : Prop :=
  (11 <= length u)%nat /\ Z.of_nat (length u) < 2 ^ 32 /\
  le_value (firstn 4 u) = Z.of_nat (length u) - 4 /\
  le_value (firstn 2 (skipn 4 u)) = 4 /\
  nth 10 u 0 = 8.

Definition unit_abbrev (u : list Z) : Z := le_value (firstn 4 (skipn 6 u)).

Lemma parse_unit_ok u rest :
  unit_ok u ->
  ParseCompileUnit (u ++ rest) = Done (unit_abbrev u, Z.of_nat (length u)).
Proof.
  intros [Hl [Hb [Hs [Hv Ha]]]].
  assert (Hn : 11 <= Z.of_nat (length u)) by lia.
  set (n := Z.of_nat (length u)) in *; clearbody n.
  do 11 (destruct u as [| ? u]; [cbn in Hl; lia |]).
  unfold ParseCompileUnit, fixed, u8, unit_abbrev in *.
  cbn [app length firstn skipn nth Nat.ltb Nat.leb] in *.
  rewrite Hs, Hv, Ha.
  rewrite (proj2 (Z.eqb_neq _ 4294967295)) by lia.
  cbn [Z.eqb Pos.eqb negb].
  replace (n - 4 + 4) with n by ring; rewrite Z.mod_small by lia; reflexivity.
Qed.

Lemma units_loop_nonempty fuel c :
  c <> [] ->
  units_loop (S fuel) c =
  match ParseCompileUnit c with
  | Failed e => Failed e
  | Undefined => Undefined
  | OutOfFuel => OutOfFuel
  | Done (abbrev, size) =>
      if Z.of_nat (length c) <? size then Undefined
      else
        match units_loop fuel (skipn (Z.to_nat size) c) with
        | Done units => Done (mkCU abbrev (firstn (Z.to_nat size) c) :: units)
        | Failed e => Failed e
        | Undefined => Undefined
        | OutOfFuel => OutOfFuel
        end
  end.
Proof. destruct c; [contradiction | reflexivity]. Qed.

Lemma advance_zero_flag fuel base c it :
  advance 0 fuel base c = Some it -> pos it <> None.
Proof.
  revert base c; induction fuel as [| fuel IH]; intros base c H;
    cbn [advance] in H; [discriminate |].
  destruct (u64 c) as [[low c1] |]; [| discriminate].
  destruct (u64 c1) as [[high c2] |]; [| discriminate].
  destruct (low =? 0) eqn:E; [exact (IH _ _ H) |].
  cbn [andb] in H; injection H as <-; discriminate.
Qed.

Lemma incr_not_end it it' : incr it = Some it' -> pos it' <> None.
Proof.
  unfold incr, base_address_flag; change (to_u64 (- 0)) with 0.
  destruct (pos it); [apply advance_zero_flag | discriminate].
Qed.

Lemma contains_loop_not_false fuel it address :
  pos it <> None -> contains_loop fuel it address <> Some false.
Proof.
  revert it; induction fuel as [| fuel IH]; intros it Hp; cbn [contains_loop];
    destruct (pos it); try contradiction;
    destruct (entry_contains (current it) address); try discriminate.
  destruct (incr it) as [it' |] eqn:E; [| discriminate].
  exact (IH it' (incr_not_end _ _ E)).
Qed.

End DwarfOpsFacts.

Import DwarfOps.

(** X7: [Cursor::uleb128] decodes an unsigned LEB128 encoding of at most
    ten bytes to its value modulo 2^64 (the value exactly when the
    encoding has at most nine bytes) and leaves the cursor just past it. *)
Theorem uleb128_decodes (bs rest : list Z) :
  Dwarf.is_sleb_encoding bs = true -> (length bs <= 10)%nat ->
  uleb128 (bs ++ rest) = Some (Dwarf.groups_value bs mod 2 ^ 64, rest)
  /\ ((length bs <= 9)%nat ->
      uleb128 (bs ++ rest) = Some (Dwarf.groups_value bs, rest)).
Proof.
  intros Henc Hlen.
  assert (Hd : uleb128 (bs ++ rest) = Some (Dwarf.groups_value bs mod 2 ^ 64, rest)).
  { unfold uleb128.
    pose proof (DwarfFacts.sleb_loop_spec bs rest 0 0 Henc ltac:(lia)
                  ltac:(cbn; lia)) as Hl.
    change (7 * Z.of_nat 0) with 0 in Hl; rewrite Hl.
    rewrite Z.add_0_l, Z.pow_0_r, Z.mul_1_l; reflexivity. }
  split; [exact Hd | intros H9].
  rewrite Hd, Z.mod_small; [reflexivity |].
  pose proof (DwarfFacts.groups_value_bound bs) as Hg.
  split; [lia |].
  eapply Z.lt_le_trans; [apply Hg | apply Z.pow_le_mono_r; lia].
Qed.

Lemma uleb128_decodes_witness :
  Dwarf.is_sleb_encoding [229; 142; 38] = true /\
  uleb128 ([229; 142; 38] ++ [9]) = Some (624485, [9]).
Proof.
  split; [reflexivity |].
  exact (proj2 (uleb128_decodes [229; 142; 38] [9] eq_refl ltac:(cbn; lia))
           ltac:(cbn; lia)).
Defined.

(** X8: an encoding whose first ten bytes all have the continuation bit
    set makes both [uleb128] and [sleb128] shift by 70 or more on the next
    byte (or read past the span): undefined behaviour, whatever follows. *)
Theorem leb128_overlong_undefined (bs rest : list Z) :
  Forall (fun b => Z.land b 128 <> 0) bs -> (10 <= length bs)%nat ->
  uleb128 (bs ++ rest) = None /\ Dwarf.sleb128 (bs ++ rest) = None.
Proof.
  intros Hc Hl.
  assert (H : Dwarf.sleb_loop 0 0 (bs ++ rest) = None)
    by (apply DwarfOpsFacts.sleb_loop_overlong; [exact Hc | lia]).
  unfold uleb128, Dwarf.sleb128; rewrite H; split; reflexivity.
Qed.

Lemma leb128_overlong_undefined_witness :
  uleb128 (repeat 128 10 ++ [0]) = None /\
  Dwarf.sleb128 (repeat 128 10 ++ [0]) = None.
Proof.
  apply leb128_overlong_undefined; [| cbn; lia].
  repeat constructor; cbn; discriminate.
Defined.

(** X9: [Cursor::String] returns the bytes up to the first 0 byte and moves
    the cursor just past it; with no 0 byte it returns everything up to
    the end of the span and moves the cursor past the end. *)
Theorem string_read (s rest : list Z) :
  ~ In 0 s ->
  String (s ++ 0 :: rest) = (s, Some rest) /\ String s = (s, None).
Proof.
  intros H; split;
    [apply DwarfOpsFacts.String_app | apply DwarfOpsFacts.String_unterminated];
    exact H.
Qed.

Lemma string_read_witness :
  String ([109; 97; 105; 110] ++ 0 :: [7]) = ([109; 97; 105; 110], Some [7])
  /\ String [109; 97; 105; 110] = ([109; 97; 105; 110], None).
Proof.
  apply string_read; cbn; intros H; repeat destruct H as [H | H]; try discriminate;
    exact H.
Defined.

(** X10: skipping a [DW_FORM_string] attribute in [SkipForm] leaves the
    cursor where reading it with [Cursor::String] does, also when the
    string has no terminator. *)
Theorem skip_string_as_String (c : list Z) : skip_string c = snd (String c).
Proof.
  induction c as [| b c IH]; [reflexivity |].
  unfold skip_string in *; cbn [skip_nonzero String].
  destruct (b =? 0) eqn:E; [reflexivity |].
  destruct (String c) as [s c']; cbn [snd] in *; exact IH.
Qed.

(** X11: a compile unit whose [unit_length] field is 0xfffffffc passes the
    header checks and gets a span of size 0 (the [std::uint32_t] sum
    wraps), so [ParseCompileUnits] never moves its cursor: the loop does
    not terminate, whatever the fuel. *)
Theorem parse_compile_units_wraps (a0 a1 a2 a3 : Z) (rest : list Z)
    (fuel : nat) :
  units_loop fuel ([252; 255; 255; 255; 4; 0; a0; a1; a2; a3; 8] ++ rest)
  = OutOfFuel.
Proof.
  induction fuel as [| fuel IH]; [reflexivity |].
  rewrite DwarfOpsFacts.units_loop_nonempty by discriminate.
  unfold ParseCompileUnit at 1, fixed, Dwarf.u8.
  cbn [app length firstn skipn Nat.ltb Nat.leb le_value].
  change ((252 + 256 * (255 + 256 * (255 + 256 * (255 + 256 * 0)))
           =? 4294967295)) with false.
  change (negb ((4 + 256 * (0 + 256 * 0)) =? 4)) with false.
  change (negb (8 =? 8)) with false; cbn iota.
  change ((252 + 256 * (255 + 256 * (255 + 256 * (255 + 256 * 0))) + 4)
          mod 2 ^ 32) with 0.
  rewrite (proj2 (Z.ltb_ge _ 0)) by lia.
  change (Z.to_nat 0) with O; rewrite skipn_O.
  cbn [app] in IH; rewrite IH; reflexivity.
Qed.

(** X12: on a [.debug_info] section made of well-formed compile units
    back to back, [ParseCompileUnits] returns one unit per piece, in
    order, each spanning exactly its piece and carrying its abbreviation
    offset. *)
Theorem parse_compile_units_tiles (us : list (list Z)) (fuel : nat) :
  Forall DwarfOpsFacts.unit_ok us -> (length us < fuel)%nat ->
  units_loop fuel (concat us)
  = Done (map (fun u => mkCU (DwarfOpsFacts.unit_abbrev u) u) us).
Proof.
  intros Hok; revert fuel.
  induction Hok as [| u us Hu Hus IH]; intros fuel Hf;
    (destruct fuel as [| fuel]; [cbn in Hf; lia |]).
  - reflexivity.
  - cbn [concat map].
    assert (Hne : u ++ concat us <> [])
      by (destruct Hu as [Hl _]; destruct u; [cbn in Hl; lia | discriminate]).
    rewrite DwarfOpsFacts.units_loop_nonempty by exact Hne.
    rewrite DwarfOpsFacts.parse_unit_ok by exact Hu.
    rewrite length_app, (proj2 (Z.ltb_ge _ _)) by lia.
    rewrite Nat2Z.id, skipn_app, firstn_app, Nat.sub_diag, skipn_all, firstn_all,
      firstn_O, skipn_O, app_nil_l, app_nil_r.
    rewrite IH by (cbn [length] in Hf; lia); reflexivity.
Qed.

Lemma parse_compile_units_tiles_witness :
  units_loop 3 ([11; 0; 0; 0; 4; 0; 7; 0; 0; 0; 8; 1; 2; 3; 0]
                ++ [7; 0; 0; 0; 4; 0; 0; 1; 0; 0; 8])
  = Done [mkCU 7 [11; 0; 0; 0; 4; 0; 7; 0; 0; 0; 8; 1; 2; 3; 0];
          mkCU 256 [7; 0; 0; 0; 4; 0; 0; 1; 0; 0; 8]].
Proof.
  exact (parse_compile_units_tiles
           [[11; 0; 0; 0; 4; 0; 7; 0; 0; 0; 8; 1; 2; 3; 0];
            [7; 0; 0; 0; 4; 0; 0; 1; 0; 0; 8]] 3
           ltac:(repeat constructor; cbn; lia) ltac:(cbn; lia)).
Defined.

(** X13: because the base-address flag is 0, no range-list iterator
    reached from [Begin] is ever the end iterator: [RangeList::Contains]
    either finds an entry containing the address or runs past the end of
    the list (undefined behaviour); it never answers false. *)
Theorem range_list_contains_never_false (data : list Z) (base address : Z) :
  Contains data base address <> Some false.
Proof.
  unfold Contains, Begin.
  destruct (incr (Dwarf.mkIter base (Some data) (0, 0))) as [it |] eqn:E;
    [| discriminate].
  exact (DwarfOpsFacts.contains_loop_not_false _ _ _
           (DwarfOpsFacts.incr_not_end _ _ E)).
Qed.

(** ** Facts about the symbol address map *)
Module SymbolsFacts.
Import Addresses Symbols.

Definition start (e : SymEntry) : Z := fst (fst e).

Definition sorted_map (m : list SymEntry) : Prop :=
  StronglySorted Z.lt (map start m).

Lemma in_map_insert k v m e :
  In e (map_insert k v m) -> e = (k, v) \/ In e m.
Proof.
  induction m as [| [k' v'] m IH]; cbn [map_insert]; intros H.
  - destruct H as [H | []]; left; symmetry; exact H.
  - destruct (fst k <? fst k').
    + destruct H as [H | H]; [left; symmetry; exact H | right; exact H].
    + destruct (fst k =? fst k'); [right; exact H |].
      destruct H as [H | H]; [right; left; exact H |].
      destruct (IH H) as [E | E]; [left; exact E | right; right; exact E].
Qed.

Lemma sorted_cons_iff e m :
  sorted_map (e :: m) <->
  sorted_map m /\ (forall e', In e' m -> start e < start e').
Proof.
  unfold sorted_map; cbn [map]; split.
  - intros H; inversion H as [| ? ? Hs Hf]; subst; split; [exact Hs |].
    intros e' He'; rewrite Forall_forall in Hf; apply Hf, in_map, He'.
  - intros [Hs Hf]; constructor; [exact Hs |].
    apply Forall_forall; intros x Hx; apply in_map_iff in Hx as [e' [<- He']].
    apply Hf, He'.
Qed.

Lemma insert_sorted k v m : sorted_map m -> sorted_map (map_insert k v m).
Proof.
  induction m as [| [k' v'] m IH]; intros H; cbn [map_insert].
  - apply sorted_cons_iff; split; [constructor | intros e []].
  - apply sorted_cons_iff in H as [Hs Hf].
    destruct (fst k <? fst k') eqn:E1.
    + apply Z.ltb_lt in E1.
      apply sorted_cons_iff; split; [apply sorted_cons_iff; split; assumption |].
      intros e [<- | He]; unfold start in *; cbn [fst] in *;
        [lia | apply Hf in He; cbn [fst] in He; lia].
    + destruct (fst k =? fst k') eqn:E2;
        [apply sorted_cons_iff; split; assumption |].
      apply Z.ltb_ge in E1; apply Z.eqb_neq in E2.
      apply sorted_cons_iff; split; [apply IH, Hs |].
      intros e He; apply in_map_insert in He as [-> | He];
        [unfold start; cbn; lia | apply Hf, He].
Qed.

Lemma build_sorted i table m :
  sorted_map m -> sorted_map (build_loop i table m).
Proof.
  revert i m; induction table as [| s table IH]; intros i m H; cbn [build_loop];
    [exact H |].
  apply IH; destruct (eligible s); [apply insert_sorted |]; exact H.
Qed.

Lemma map_find_above a m :
  (forall e, In e m -> a < start e) -> map_find a m = None.
Proof.
  unfold map_find; induction m as [| e m IH]; intros H; [reflexivity |].
  cbn [find]; rewrite (proj2 (Z.eqb_neq _ _)) by
    (assert (a < start e) by (apply H; left; reflexivity); unfold start in *; lia).
  apply IH; intros e' He'; apply H; right; exact He'.
Qed.

Lemma find_insert a k v m :
  sorted_map m ->
  map_find a (map_insert k v m) =
  match map_find a m with
  | Some x => Some x
  | None => if fst k =? a then Some (k, v) else None
  end.
Proof.
  induction m as [| [k' v'] m IH]; intros H; [reflexivity |].
  apply sorted_cons_iff in H as [Hs Hf]; specialize (IH Hs).
  assert (Hm : forall x, match x with Some y => Some y | None => None end
                         = x :> option SymEntry) by (intros []; reflexivity).
  cbn [map_insert]; unfold map_find in *; cbn [find fst].
  destruct (fst k <? fst k') eqn:E1.
  - apply Z.ltb_lt in E1; cbn [find fst].
    destruct (fst k =? a) eqn:E; [| destruct (fst k' =? a); [reflexivity | rewrite Hm; reflexivity]].
    apply Z.eqb_eq in E.
    rewrite (proj2 (Z.eqb_neq (fst k') a)) by lia.
    fold (map_find a m); rewrite map_find_above; [reflexivity |].
    intros e He; apply Hf in He; unfold start in *; cbn [fst] in *; lia.
  - destruct (fst k =? fst k') eqn:E2.
    + apply Z.eqb_eq in E2; cbn [find fst].
      destruct (fst k' =? a) eqn:E; [reflexivity |].
      match goal with |- _ = match ?y with _ => _ end => destruct y end; [reflexivity |].
      rewrite E2, E; reflexivity.
    + cbn [find fst].
      destruct (fst k' =? a); [reflexivity | exact IH].
Qed.

(** the first symbol of the table that [BuildSymbolMaps] puts in the
    address map with the start [a] *)
Fixpoint first_symbol_at (a : Z) (i : nat) (table : list Sym) : option nat :=
  match table with
  | [] => None
  | s :: rest =>
      if eligible s && (st_value s =? a) then Some i
      else first_symbol_at a (S i) rest
  end.

Lemma build_find a i table m :
  sorted_map m ->
  option_map snd (map_find a (build_loop i table m)) =
  match option_map snd (map_find a m) with
  | Some j => Some j
  | None => first_symbol_at a i table
  end.
Proof.
  revert i m; induction table as [| s table IH]; intros i m H;
    cbn [build_loop first_symbol_at].
  - destruct (option_map snd (map_find a m)); reflexivity.
  - rewrite IH by (destruct (eligible s); [apply insert_sorted |]; exact H).
    destruct (eligible s); cbn [andb].
    + rewrite find_insert by exact H; cbn [fst].
      destruct (map_find a m); [reflexivity |].
      destruct (st_value s =? a); reflexivity.
    + destruct (option_map snd (map_find a m)); reflexivity.
Qed.

Lemma in_build (j : nat) table m lo hi i :
  In ((lo, hi), i) (build_loop j table m) ->
  In ((lo, hi), i) m \/
  ((j <= i)%nat /\ exists s, nth_error table (i - j) = Some s /\
     eligible s = true /\ lo = st_value s /\
     hi = to_u64 (st_value s + st_size s)).
Proof.
  revert j m; induction table as [| s table IH]; intros j m H;
    cbn [build_loop] in H; [left; exact H |].
  destruct (IH (S j) _ H) as [Hm | [Hj [s' [Hn Hs']]]].
  - destruct (eligible s) eqn:E; [| left; exact Hm].
    apply in_map_insert in Hm as [Heq | Hm]; [| left; exact Hm].
    injection Heq as -> -> ->.
    right; split; [lia |]; exists s; rewrite Nat.sub_diag; cbn.
    repeat split; assumption.
  - right; split; [lia |]; exists s'.
    replace (i - j)%nat with (S (i - S j)) by lia; cbn; split; assumption.
Qed.

(** the entry with the greatest start at or below [a] *)
Fixpoint last_at_or_below (a : Z) (m : list SymEntry) : option SymEntry :=
  match m with
  | [] => None
  | e :: rest =>
      if start e <=? a then
        match last_at_or_below a rest with
        | Some e' => Some e'
        | None => Some e
        end
      else last_at_or_below a rest
  end.

(** the symbol of an entry that starts at [a] or whose range contains [a] *)
Definition verdict (e : option SymEntry) (a : Z) : option nat :=
  match e with
  | Some ((lo, hi), i) =>
      if (lo =? a) || ((lo <? a) && (hi >? a)) then Some i else None
  | None => None
  end.

Lemma last_at_or_below_above a m :
  (forall e, In e m -> a < start e) -> last_at_or_below a m = None.
Proof.
  induction m as [| e m IH]; intros H; [reflexivity |]; cbn [last_at_or_below].
  rewrite (proj2 (Z.leb_gt _ _)) by (apply H; left; reflexivity).
  apply IH; intros e' He'; apply H; right; exact He'.
Qed.

Lemma last_at_or_below_in a m e :
  last_at_or_below a m = Some e -> In e m /\ start e <= a.
Proof.
  induction m as [| e0 m IH]; intros H; cbn [last_at_or_below] in H;
    [discriminate |].
  destruct (start e0 <=? a) eqn:E.
  - destruct (last_at_or_below a m) as [e' |] eqn:E'.
    + injection H as <-; destruct (IH eq_refl); split; [right |]; assumption.
    + injection H as <-; split; [left; reflexivity | apply Z.leb_le, E].
  - destruct (IH H); split; [right |]; assumption.
Qed.

Lemma containing_loop_verdict prev a m :
  sorted_map m ->
  (forall p, prev = Some p -> start p < a) ->
  containing_loop prev a m =
  verdict (match last_at_or_below a m with
           | Some e => Some e
           | None => prev
           end) a.
Proof.
  revert prev; induction m as [| [[lo hi] i] m IH]; intros prev Hs Hp.
  - cbn [containing_loop last_at_or_below].
    destruct prev as [[[plo phi] pi] |]; [| reflexivity].
    specialize (Hp _ eq_refl); unfold start in Hp; cbn [fst] in Hp.
    unfold verdict; rewrite (proj2 (Z.eqb_neq plo a)) by lia; reflexivity.
  - apply sorted_cons_iff in Hs as [Hs Hf].
    unfold start in Hf; cbn [fst] in Hf.
    cbn [containing_loop last_at_or_below]; unfold start at 1; cbn [fst].
    destruct (a <=? lo) eqn:E1.
    + apply Z.leb_le in E1.
      rewrite (last_at_or_below_above a m)
        by (intros e He; apply Hf in He; unfold start; lia).
      destruct (lo =? a) eqn:E2.
      * apply Z.eqb_eq in E2; subst lo.
        rewrite (proj2 (Z.leb_le a a)) by lia.
        unfold verdict; rewrite Z.eqb_refl; reflexivity.
      * apply Z.eqb_neq in E2.
        rewrite (proj2 (Z.leb_gt lo a)) by lia.
        destruct prev as [[[plo phi] pi] |]; [| reflexivity].
        specialize (Hp _ eq_refl); unfold start in Hp; cbn [fst] in Hp.
        unfold verdict; rewrite (proj2 (Z.eqb_neq plo a)) by lia; reflexivity.
    + apply Z.leb_gt in E1.
      rewrite (proj2 (Z.leb_le lo a)) by lia.
      rewrite IH by (try exact Hs; intros p Hp'; injection Hp' as <-;
                     unfold start; cbn; lia).
      destruct (last_at_or_below a m); reflexivity.
Qed.

Lemma containing_verdict e table fa :
  GetSymbolContainingAddress e (BuildSymbolAddrMap table) fa =
  if same_elf (fa_elf fa) e
  then verdict (last_at_or_below (fa_addr fa) (BuildSymbolAddrMap table))
         (fa_addr fa)
  else None.
Proof.
  unfold GetSymbolContainingAddress.
  destruct (same_elf (fa_elf fa) e); cbn [negb]; [| reflexivity].
  assert (Hs : sorted_map (BuildSymbolAddrMap table))
    by (apply build_sorted; constructor).
  revert Hs; destruct (BuildSymbolAddrMap table) as [| x m]; intros Hs;
    [reflexivity |].
  rewrite containing_loop_verdict by (try exact Hs; intros p Hp; discriminate).
  destruct (last_at_or_below (fa_addr fa) (x :: m)); reflexivity.
Qed.

End SymbolsFacts.

Import Symbols.

(** X14: [GetSymbolAtAddress] on the address map built by
    [BuildSymbolMaps] finds, for an address of this ELF, the first symbol
    of the symbol table that is in the map (non-zero value and name, not
    thread-local) and whose value is exactly that address: a later symbol
    with the same start is never found, since [std::map::insert] keeps the
    first key with a given start. *)
Theorem symbol_at_address_first (e : Addresses.Elf) (table : list Sym)
    (fa : Addresses.FileAddress) :
  GetSymbolAtAddress e (BuildSymbolAddrMap table) fa =
  if Addresses.same_elf (Addresses.fa_elf fa) e
  then SymbolsFacts.first_symbol_at (Addresses.fa_addr fa) 0 table
  else None.
Proof.
  unfold GetSymbolAtAddress.
  destruct (Addresses.same_elf (Addresses.fa_elf fa) e); cbn [negb];
    [| reflexivity].
  pose proof (SymbolsFacts.build_find (Addresses.fa_addr fa) 0 table []
                ltac:(constructor)) as H.
  cbn in H; unfold BuildSymbolAddrMap.
  destruct (map_find (Addresses.fa_addr fa) (build_loop 0 table []))
    as [[k i] |]; exact H.
Qed.

(** X15: [GetSymbolContainingAddress] on the map built by
    [BuildSymbolMaps] only ever looks at the entry with the greatest start
    at or below the address: it answers that entry's symbol if the entry
    starts at the address or its range contains it, and nothing otherwise,
    even when an earlier symbol's range contains the address. *)
Theorem symbol_containing_closest_start (e : Addresses.Elf) (table : list Sym)
    (fa : Addresses.FileAddress) :
  GetSymbolContainingAddress e (BuildSymbolAddrMap table) fa =
  if Addresses.same_elf (Addresses.fa_elf fa) e
  then SymbolsFacts.verdict
         (SymbolsFacts.last_at_or_below (Addresses.fa_addr fa)
            (BuildSymbolAddrMap table)) (Addresses.fa_addr fa)
  else None.
Proof. apply SymbolsFacts.containing_verdict. Qed.

(** X16: a symbol returned by [GetSymbolContainingAddress] on the map
    built by [BuildSymbolMaps] is an entry of the symbol table with
    non-zero value and name, not thread-local, that starts at the address
    or whose range [st_value, st_value + st_size) (the end computed on
    [std::uint64_t]) contains it. *)
Theorem symbol_containing_sound (e : Addresses.Elf) (table : list Sym)
    (fa : Addresses.FileAddress) (i : nat) :
  GetSymbolContainingAddress e (BuildSymbolAddrMap table) fa = Some i ->
  exists s, nth_error table i = Some s /\ eligible s = true /\
    (st_value s = Addresses.fa_addr fa \/
     st_value s < Addresses.fa_addr fa < to_u64 (st_value s + st_size s)).
Proof.
  rewrite SymbolsFacts.containing_verdict.
  destruct (Addresses.same_elf (Addresses.fa_elf fa) e); [| discriminate].
  destruct (SymbolsFacts.last_at_or_below (Addresses.fa_addr fa)
              (BuildSymbolAddrMap table)) as [[[lo hi] j] |] eqn:E;
    [| discriminate].
  apply SymbolsFacts.last_at_or_below_in in E as [Hin _].
  unfold BuildSymbolAddrMap in Hin.
  destruct (SymbolsFacts.in_build 0 table [] lo hi j Hin)
    as [[] | [_ [s [Hn [Hel [-> ->]]]]]].
  rewrite Nat.sub_0_r in Hn.
  unfold SymbolsFacts.verdict; intros H.
  destruct ((st_value s =? Addresses.fa_addr fa)
            || ((st_value s <? Addresses.fa_addr fa)
                && (to_u64 (st_value s + st_size s) >? Addresses.fa_addr fa)))
    eqn:Ev; [| discriminate].
  injection H as <-; exists s; split; [exact Hn | split; [exact Hel |]].
  apply orb_true_iff in Ev as [Ev | Ev]; [left; apply Z.eqb_eq, Ev | right].
  apply andb_true_iff in Ev as [E1 E2]; apply Z.ltb_lt in E1;
    apply Z.gtb_lt in E2; lia.
Qed.

Lemma symbol_containing_sound_witness :
  exists s, nth_error [mkSym 1 4096 256 false; mkSym 2 4112 16 false] 0 = Some s
    /\ eligible s = true /\ (st_value s = 4100 \/
        st_value s < 4100 < to_u64 (st_value s + st_size s)).
Proof.
  apply (symbol_containing_sound (Addresses.mkElf 7 [] 0)
           [mkSym 1 4096 256 false; mkSym 2 4112 16 false]
           (Addresses.mkFileAddress (Some (Addresses.mkElf 7 [] 0)) 4100) 0).
  vm_compute; reflexivity.
Defined.

(** ** Facts about the syscall stops of [AugmentStopReason] *)
Module SyscallsFacts.
Import StopReasons Syscalls.

(** what a syscall-entry stop records: the six argument registers *)
Definition entry_info (regs : SysRegs) : SyscallInformation :=
  mkSyscallInformation (orig_rax regs mod 2 ^ 16) true
    [rdi regs; rsi regs; rdx regs; r10 regs; r8 regs; r9 regs] (rdi regs).

(** what a syscall-exit stop records: the return value in [rax] *)
Definition exit_info (regs : SysRegs) : SyscallInformation :=
  mkSyscallInformation (orig_rax regs mod 2 ^ 16) false
    [rax regs; 0; 0; 0; 0; 0] (rax regs).

Lemma augment_syscall b c regs r :
  info r = Init 133 ->
  AugmentStopReason b c regs r =
  Some (negb b, mkStopReason (reason r) (Init SIGTRAP) (Some Syscall)
                  (Some (if b then exit_info regs else entry_info regs))).
Proof.
  intros H; unfold AugmentStopReason; rewrite H; cbn -[Z.pow Z.modulo].
  destruct b; reflexivity.
Qed.

End SyscallsFacts.

Import StopReasons Syscalls.

(** X17: on a run of syscall stops ([info] is [SIGTRAP | 0x80]),
    [AugmentStopReason] alternates: starting from [expecting_syscall_exit_]
    [b], the stop number [k] is read as an exit exactly when [b] xor
    ([k] odd), an entry recording the six argument registers, an exit
    recording [rax]; each gets [info] [SIGTRAP], the trap reason
    [Syscall] and the id [orig_rax] truncated to 16 bits. *)
Theorem syscall_stops_alternate (b : bool)
    (stops : list (Z * SysRegs * StopReason)) :
  Forall (fun s => info (snd s) = Init 133) stops ->
  exists rs, augment_run b stops = Some rs /\ length rs = length stops /\
  forall k c regs r r',
    nth_error stops k = Some (c, regs, r) -> nth_error rs k = Some r' ->
    info r' = Init SIGTRAP /\ trap_reason r' = Some Syscall /\
    reason r' = reason r /\
    syscall_info r' =
      Some (if xorb b (Nat.odd k) then SyscallsFacts.exit_info regs
            else SyscallsFacts.entry_info regs).
Proof.
  intros Hall; revert b.
  induction Hall as [| [[c regs] r] stops Hs Hall IH]; intros b.
  - exists []; split; [reflexivity | split; [reflexivity |]].
    intros [| k]; discriminate.
  - cbn [snd] in Hs.
    destruct (IH (negb b)) as [rs [Hrun [Hlen Hk]]].
    exists (mkStopReason (reason r) (Init SIGTRAP) (Some Syscall)
              (Some (if b then SyscallsFacts.exit_info regs
                     else SyscallsFacts.entry_info regs)) :: rs).
    split; [| split; [cbn; rewrite Hlen; reflexivity |]].
    + cbn [augment_run]; rewrite SyscallsFacts.augment_syscall by exact Hs.
      rewrite Hrun; reflexivity.
    + intros [| k] c' regs' r0 r' Hn Hr.
      * cbn in Hn, Hr; injection Hn as <- <- <-; injection Hr as <-.
        cbn; repeat split; destruct b; reflexivity.
      * cbn [nth_error] in Hn, Hr.
        destruct (Hk k c' regs' r0 r' Hn Hr) as [H1 [H2 [H3 H4]]].
        repeat split; try assumption.
        rewrite H4, Nat.odd_succ, <- Nat.negb_odd.
        destruct b, (Nat.odd k); reflexivity.
Qed.

Lemma syscall_stops_alternate_witness :
  exists rs,
    augment_run false
      [(0, mkSysRegs 1 0 3 4 5 6 7 8, mkStopReason (Init Stopped) (Init 133) None None);
       (0, mkSysRegs 1 42 3 4 5 6 7 8, mkStopReason (Init Stopped) (Init 133) None None)]
    = Some rs /\ length rs = 2%nat /\
  forall k c regs r r',
    nth_error
      [(0, mkSysRegs 1 0 3 4 5 6 7 8, mkStopReason (Init Stopped) (Init 133) None None);
       (0, mkSysRegs 1 42 3 4 5 6 7 8, mkStopReason (Init Stopped) (Init 133) None None)]
      k = Some (c, regs, r) -> nth_error rs k = Some r' ->
    info r' = Init SIGTRAP /\ trap_reason r' = Some Syscall /\
    reason r' = reason r /\
    syscall_info r' =
      Some (if xorb false (Nat.odd k) then SyscallsFacts.exit_info regs
            else SyscallsFacts.entry_info regs).
Proof.
  apply syscall_stops_alternate; repeat constructor.
Defined.

(** X18: a stop that is not a syscall stop clears
    [expecting_syscall_exit_], so the next syscall stop is read as an
    entry; it keeps the stop's state, [info] and syscall information, and
    its trap reason is [Unknown] unless the signal is [SIGTRAP]. *)
Theorem augment_non_syscall_resets (b : bool) (c : Z) (regs : SysRegs)
    (r : StopReason) (i : Z) :
  info r = Init i -> i <> 133 ->
  exists r', AugmentStopReason b c regs r = Some (false, r') /\
    reason r' = reason r /\ info r' = Init i /\
    syscall_info r' = syscall_info r /\
    (i <> SIGTRAP -> trap_reason r' = Some Unknown).
Proof.
  intros Hi Hn; unfold AugmentStopReason; rewrite Hi.
  change (Z.lor SIGTRAP 128) with 133.
  rewrite (proj2 (Z.eqb_neq i 133) Hn).
  eexists; split; [reflexivity |]; cbn.
  repeat split; intros Hs; rewrite (proj2 (Z.eqb_neq i SIGTRAP) Hs); reflexivity.
Qed.

Lemma augment_non_syscall_resets_witness :
  exists r',
    AugmentStopReason true 0 (mkSysRegs 0 0 0 0 0 0 0 0)
      (mkStopReason (Init Stopped) (Init 19) None None) = Some (false, r') /\
    reason r' = Init Stopped /\ info r' = Init 19 /\ syscall_info r' = None /\
    (19 <> SIGTRAP -> trap_reason r' = Some Unknown).
Proof.
  apply (augment_non_syscall_resets true 0 (mkSysRegs 0 0 0 0 0 0 0 0)
           (mkStopReason (Init Stopped) (Init 19) None None) 19);
    [reflexivity | lia].
Defined.

(** ** Facts about [ParseVector] *)
Module CliParseFacts.
Import StopReasons CliParse.

(** a lower-case hexadecimal digit *)
Definition hex_char (d : Z) : ascii :=
  ascii_of_nat (Z.to_nat (if d <? 10 then 48 + d else 87 + d)).

(** a byte as [mem write] documents it: [0x] and two digits *)
Definition elem (b : Z) : list ascii :=
  ["0"; "x"; hex_char (b / 16); hex_char (b mod 16)]%char.

Fixpoint format_elems (bs : list Z) : list ascii :=
  match bs with
  | [] => []
  | [b] => elem b
  | b :: rest => elem b ++ ","%char :: format_elems rest
  end.

(** [[0xhh,0xhh,...]] *)
Definition format (bs : list Z) : list ascii :=
  "["%char :: format_elems bs ++ ["]"%char].

Lemma hex_digit_hex_char d : 0 <= d < 16 -> hex_digit (hex_char d) = Some d.
Proof.
  intros H.
  assert (d = 0 \/ d = 1 \/ d = 2 \/ d = 3 \/ d = 4 \/ d = 5 \/ d = 6 \/
          d = 7 \/ d = 8 \/ d = 9 \/ d = 10 \/ d = 11 \/ d = 12 \/ d = 13 \/
          d = 14 \/ d = 15) as Hd by lia.
  repeat destruct Hd as [-> | Hd]; try reflexivity; subst; reflexivity.
Qed.

Lemma char_at_app pre s k :
  char_at (pre ++ s) (length pre + k) = char_at s k.
Proof.
  unfold char_at; rewrite <- app_assoc, nth_error_app2 by lia.
  f_equal; lia.
Qed.

Lemma char_at_app0 pre s : char_at (pre ++ s) (length pre) = char_at s 0.
Proof. rewrite <- (Nat.add_0_r (length pre)) at 1; apply char_at_app. Qed.

Lemma pv_exit pre fuel bytes :
  pv_loop (S fuel) (pre ++ ["]"%char]) (length pre) bytes = PDone bytes.
Proof.
  cbn [pv_loop]; rewrite char_at_app0; cbn [char_at app nth_error Ascii.eqb].
  rewrite length_app, Nat.add_1_r, Nat.eqb_refl; reflexivity.
Qed.

Lemma to_u8_two d1 d2 :
  0 <= d1 < 16 -> 0 <= d2 < 16 ->
  to_u8_hex [Some (hex_char d1); Some (hex_char d2)]
  = Some (Some (Init (d1 * 16 + d2))).
Proof.
  intros H1 H2; unfold to_u8_hex; cbn [from_chars_hex].
  rewrite hex_digit_hex_char by exact H1; rewrite hex_digit_hex_char by exact H2.
  cbn [Nat.eqb]; rewrite (proj2 (Z.ltb_ge 255 _)) by lia.
  reflexivity.
Qed.

Lemma pv_elem pre b t tail fuel bytes :
  0 <= b < 256 ->
  pv_loop (S fuel) (pre ++ elem b ++ t :: tail) (length pre) bytes =
  if Ascii.eqb t ","%char
  then pv_loop fuel (pre ++ elem b ++ t :: tail) (S (length pre + 4))
         (bytes ++ [Init b])
  else if Ascii.eqb t "]"%char
  then pv_loop fuel (pre ++ elem b ++ t :: tail) (length pre + 4)
         (bytes ++ [Init b])
  else PInvalid.
Proof.
  intros Hb.
  cbn [pv_loop]; rewrite char_at_app0.
  unfold elem, window; cbn [seq map app].
  rewrite !char_at_app; cbn [char_at app nth_error Ascii.eqb].
  change (ToIntegral_byte16 [Some "0"%char; Some "x"%char;
            Some (hex_char (b / 16)); Some (hex_char (b mod 16))])
    with (to_u8_hex [Some (hex_char (b / 16)); Some (hex_char (b mod 16))]).
  assert (Hq : 0 <= b / 16 < 16)
    by (split; [apply Z.div_pos | apply Z.div_lt_upper_bound]; lia).
  assert (Hr : 0 <= b mod 16 < 16) by (apply Z.mod_pos_bound; lia).
  rewrite to_u8_two by assumption.
  replace (b / 16 * 16 + b mod 16) with b
    by (pose proof (Z.div_mod b 16 ltac:(lia)); lia).
  reflexivity.
Qed.

Lemma pv_elems pre bs tail fuel bytes :
  Forall (fun b => 0 <= b < 256) bs -> bs <> [] -> (length bs < fuel)%nat ->
  (tail = ["]"%char] \/ tail = [","%char; "]"%char]) ->
  pv_loop fuel (pre ++ format_elems bs ++ tail) (length pre) bytes
  = PDone (bytes ++ map Init bs).
Proof.
  intros Hall; revert pre fuel bytes.
  induction Hall as [| b rest Hb Hrest IH]; intros pre fuel bytes Hne Hf Ht;
    [contradiction |].
  destruct fuel as [| fuel]; [cbn in Hf; lia |].
  destruct rest as [| b' rest'].
  - cbn [format_elems map].
    destruct Ht as [-> | ->].
    + rewrite pv_elem by exact Hb; cbn [Ascii.eqb].
      destruct fuel as [| fuel]; [cbn in Hf; lia |].
      replace (pre ++ elem b ++ ["]"%char]) with ((pre ++ elem b) ++ ["]"%char])
        by (rewrite app_assoc; reflexivity).
      replace (length pre + 4)%nat with (length (pre ++ elem b))
        by (rewrite length_app; reflexivity).
      apply pv_exit.
    + rewrite pv_elem by exact Hb; cbn [Ascii.eqb].
      destruct fuel as [| fuel]; [cbn in Hf; lia |].
      replace (pre ++ elem b ++ [","%char; "]"%char])
        with ((pre ++ elem b ++ [","%char]) ++ ["]"%char])
        by (rewrite <- !app_assoc; reflexivity).
      replace (S (length pre + 4)) with (length (pre ++ elem b ++ [","%char]))
        by (rewrite !length_app; cbn; lia).
      apply pv_exit.
  - change (format_elems (b :: b' :: rest'))
      with (elem b ++ ","%char :: format_elems (b' :: rest')).
    rewrite <- app_assoc, <- app_comm_cons, pv_elem by exact Hb.
    cbn [Ascii.eqb].
    replace (pre ++ elem b ++ ","%char :: format_elems (b' :: rest') ++ tail)
      with ((pre ++ elem b ++ [","%char]) ++ format_elems (b' :: rest') ++ tail)
      by (rewrite <- !app_assoc; reflexivity).
    replace (S (length pre + 4)) with (length (pre ++ elem b ++ [","%char]))
      by (rewrite !length_app; cbn; lia).
    rewrite IH by (try discriminate; try exact Ht; cbn in Hf |- *; lia).
    rewrite <- app_assoc; reflexivity.
Qed.

Lemma format_elems_length bs : (length bs <= length (format_elems bs))%nat.
Proof.
  induction bs as [| b [| b' rest] IH]; [cbn; lia | cbn; lia |].
  change (format_elems (b :: b' :: rest))
    with (elem b ++ ","%char :: format_elems (b' :: rest)).
  rewrite length_app; cbn [length] in *; lia.
Qed.

Lemma not_x_of_hex c d : hex_digit c = Some d -> Ascii.eqb c "x"%char = false.
Proof.
  intros H; destruct (Ascii.eqb_spec c "x"%char) as [-> | _];
    [discriminate | reflexivity].
Qed.

End CliParseFacts.

Import CliParse.

(** X19: [ParseVector] reads back every byte vector written in the format
    [mem write] documents, [[0xhh,0xhh,...]] with two lower-case digits per
    byte (also the empty vector [[]]), and accepts the same text with a
    trailing comma before the closing bracket. *)
Theorem parse_vector_round_trip (bs : list Z) :
  Forall (fun b => 0 <= b < 256) bs ->
  ParseVector (CliParseFacts.format bs) = PDone (map StopReasons.Init bs) /\
  (bs <> [] ->
   ParseVector ("["%char :: CliParseFacts.format_elems bs ++ [","%char; "]"%char])
   = PDone (map StopReasons.Init bs)).
Proof.
  intros Hall.
  pose proof (CliParseFacts.format_elems_length bs) as Hl.
  split; [| intros Hne]; unfold ParseVector, CliParseFacts.format;
    cbn [char_at app nth_error Ascii.eqb];
    change ("["%char :: ?x) with (["["%char] ++ x);
    change 1%nat with (length ["["%char]).
  - destruct bs as [| b bs'].
    + apply CliParseFacts.pv_exit.
    + rewrite CliParseFacts.pv_elems; [reflexivity | exact Hall | discriminate
        | rewrite !length_app; cbn [length] in *; lia | left; reflexivity].
  - rewrite CliParseFacts.pv_elems; [reflexivity | exact Hall | exact Hne
      | rewrite !length_app; cbn [length] in *; lia | right; reflexivity].
Qed.

Lemma parse_vector_round_trip_witness :
  ParseVector ["["; "0"; "x"; "f"; "f"; ","; "0"; "x"; "0"; "a"; "]"]%char
  = PDone [StopReasons.Init 255; StopReasons.Init 10].
Proof.
  exact (proj1 (parse_vector_round_trip [255; 10]
                  ltac:(repeat constructor; lia))).
Defined.

(** X20: an element of four hexadecimal digits without the [0x] prefix is
    also accepted: its value is the byte when it is at most 255, and
    otherwise [std::from_chars] reports the value out of range, leaves the
    result untouched and [ToIntegral] returns that uninitialised byte. *)
Theorem parse_vector_four_digits (h1 h2 h3 h4 : ascii) (d1 d2 d3 d4 : Z) :
  hex_digit h1 = Some d1 -> hex_digit h2 = Some d2 ->
  hex_digit h3 = Some d3 -> hex_digit h4 = Some d4 ->
  ParseVector ["["; h1; h2; h3; h4; "]"]%char =
  let v := ((d1 * 16 + d2) * 16 + d3) * 16 + d4 in
  PDone [if 255 <? v then StopReasons.Indeterminate else StopReasons.Init v].
Proof.
  intros E1 E2 E3 E4.
  unfold ParseVector; cbn [char_at app nth_error Ascii.eqb].
  cbn [pv_loop char_at app nth_error].
  assert (Hb : forall h d, hex_digit h = Some d -> Ascii.eqb h "]"%char = false)
    by (intros h d H; destruct (Ascii.eqb_spec h "]"%char) as [-> | _];
        [discriminate | reflexivity]).
  rewrite (Hb h1 d1 E1).
  assert (Hw : ToIntegral_byte16 (window ["["; h1; h2; h3; h4; "]"]%char 1 4)
               = to_u8_hex [Some h1; Some h2; Some h3; Some h4]).
  { unfold window; cbn [seq map Nat.add char_at app nth_error].
    unfold ToIntegral_byte16.
    rewrite (CliParseFacts.not_x_of_hex h2 d2 E2).
    destruct (Ascii.eqb h1 "0"%char); reflexivity. }
  rewrite Hw; unfold to_u8_hex; cbn [from_chars_hex].
  rewrite E1, E2, E3, E4; cbn [Nat.eqb].
  replace ((((0 * 16 + d1) * 16 + d2) * 16 + d3) * 16 + d4)
    with (((d1 * 16 + d2) * 16 + d3) * 16 + d4) by ring.
  cbv zeta.
  destruct (255 <? ((d1 * 16 + d2) * 16 + d3) * 16 + d4);
    cbn [Nat.add char_at app nth_error Ascii.eqb pv_loop length Nat.eqb];
    reflexivity.
Qed.

Lemma parse_vector_four_digits_witness :
  ParseVector ["["; "1"; "2"; "3"; "4"; "]"]%char
  = PDone [StopReasons.Indeterminate].
Proof.
  exact (parse_vector_four_digits "1" "2" "3" "4" 1 2 3 4
           eq_refl eq_refl eq_refl eq_refl).
Defined.

(** ** Facts about [ParseAbbrevTable] *)
Module DwarfAbbrevFacts.
Import Dwarf DwarfOps DwarfAbbrev.

(** unsigned LEB128 encoding in at most [S k] bytes *)
Fixpoint uleb_enc (k : nat) (v : Z) : list Z :=
  match k with
  | O => [v]
  | S k' => if v <? 128 then [v] else (v mod 128 + 128) :: uleb_enc k' (v / 128)
  end.

Definition enc (v : Z) : list Z := uleb_enc 9 v.

Definition enc_specs (specs : list AttrSpec) : list Z :=
  concat (map (fun s => enc (attr s) ++ enc (form s)) specs) ++ [0; 0].

(** an abbreviation declaration as DWARF 4 lays it out *)
Definition enc_entry (ab : Abbrev) : list Z :=
  enc (ab_code ab) ++ enc (ab_tag ab) ++
  [if ab_has_children ab then 1 else 0] ++ enc_specs (ab_attr_specs ab).

(** a table: its declarations, then the 0 code that ends it *)
Definition enc_table (abs : list Abbrev) : list Z :=
  concat (map enc_entry abs) ++ [0].

Definition spec_ok (s : AttrSpec) : Prop :=
  0 < attr s < 2 ^ 64 /\ 0 <= form s < 2 ^ 64.

Definition entry_ok (ab : Abbrev) : Prop :=
  0 < ab_code ab < 2 ^ 64 /\ 0 <= ab_tag ab < 2 ^ 64 /\
  Forall spec_ok (ab_attr_specs ab).

Lemma land128_small v : 0 <= v < 128 -> Z.land v 128 = 0.
Proof.
  intros H; apply Z.bits_inj'; intros i Hi.
  rewrite Z.land_spec, Z.bits_0.
  change 128 with (2 ^ 7); rewrite Z.pow2_bits_eqb by lia.
  destruct (Z.eqb_spec 7 i) as [<- | _]; [| apply andb_false_r].
  rewrite andb_true_r; apply Z.testbit_false; [lia |].
  rewrite Z.div_small; [reflexivity | change (2 ^ 7) with 128; lia].
Qed.

Lemma land128_big r : 0 <= r < 128 -> Z.land (r + 128) 128 <> 0.
Proof.
  intros H E.
  assert (Z.testbit (Z.land (r + 128) 128) 7 = true).
  { rewrite Z.land_spec; change (Z.testbit 128 7) with true; rewrite andb_true_r.
    apply Z.testbit_true; [lia |].
    change (2 ^ 7) with 128.
    replace ((r + 128) / 128) with 1
      by (apply (Z.div_unique _ _ _ r); [left; lia | lia]).
    reflexivity. }
  rewrite E in H0; discriminate.
Qed.

Lemma land127_small v : 0 <= v < 128 -> Z.land v 127 = v.
Proof.
  intros H; change 127 with (Z.ones 7); rewrite Z.land_ones by lia.
  apply Z.mod_small; change (2 ^ 7) with 128; lia.
Qed.

Lemma land127_big r : 0 <= r < 128 -> Z.land (r + 128) 127 = r.
Proof.
  intros H; change 127 with (Z.ones 7); rewrite Z.land_ones by lia.
  change (2 ^ 7) with 128.
  replace (r + 128) with (r + 1 * 128) by ring.
  rewrite Z.mod_add by lia; apply Z.mod_small; lia.
Qed.

Lemma uleb_enc_ok k v :
  0 <= v < 128 ^ Z.of_nat (S k) ->
  is_sleb_encoding (uleb_enc k v) = true /\
  groups_value (uleb_enc k v) = v /\
  (1 <= length (uleb_enc k v) <= S k)%nat.
Proof.
  revert v; induction k as [| k IH]; intros v Hv.
  - cbn [uleb_enc]; change (128 ^ Z.of_nat 1) with 128 in Hv.
    cbn [is_sleb_encoding groups_value length].
    rewrite land128_small, land127_small by lia.
    rewrite (proj2 (Z.leb_le 0 v)), (proj2 (Z.ltb_lt v 256)) by lia.
    split; [reflexivity | split; [ring | lia]].
  - cbn [uleb_enc].
    destruct (Z.ltb_spec v 128) as [Hs | Hb].
    + cbn [is_sleb_encoding groups_value length].
      rewrite land128_small, land127_small by lia.
      rewrite (proj2 (Z.leb_le 0 v)), (proj2 (Z.ltb_lt v 256)) by lia.
      split; [reflexivity | split; [ring | lia]].
    + assert (Hq : 0 <= v / 128 < 128 ^ Z.of_nat (S k)).
      { split; [apply Z.div_pos; lia |].
        apply Z.div_lt_upper_bound; [lia |].
        replace (Z.of_nat (S (S k))) with (Z.of_nat (S k) + 1) in Hv by lia.
        rewrite Z.pow_add_r in Hv by lia; lia. }
      destruct (IH _ Hq) as [He [Hg Hl]].
      assert (Hr : 0 <= v mod 128 < 128) by (apply Z.mod_pos_bound; lia).
      destruct (uleb_enc k (v / 128)) as [| y ys] eqn:E; [cbn in Hl; lia |].
      change (is_sleb_encoding (v mod 128 + 128 :: y :: ys))
        with ((0 <=? v mod 128 + 128) && (v mod 128 + 128 <? 256)
              && negb (Z.land (v mod 128 + 128) 128 =? 0)
              && is_sleb_encoding (y :: ys)).
      rewrite He, (proj2 (Z.eqb_neq _ 0)) by (apply land128_big; exact Hr).
      rewrite (proj2 (Z.leb_le 0 _)), (proj2 (Z.ltb_lt _ 256)) by lia.
      change (groups_value (v mod 128 + 128 :: y :: ys))
        with (Z.land (v mod 128 + 128) 127 + 128 * groups_value (y :: ys)).
      rewrite land127_big, Hg by exact Hr.
      cbn [length] in Hl |- *.
      split; [reflexivity | split; [| lia]].
      pose proof (Z.div_mod v 128 ltac:(lia)); lia.
Qed.

Lemma enc_decode v rest :
  0 <= v < 2 ^ 64 -> uleb128 (enc v ++ rest) = Some (v, rest).
Proof.
  intros Hv.
  assert (Hv' : 0 <= v < 128 ^ Z.of_nat 10)
    by (change (128 ^ Z.of_nat 10) with (2 ^ 70);
        split; [lia | eapply Z.lt_le_trans; [apply Hv |
                      apply Z.pow_le_mono_r; lia]]).
  destruct (uleb_enc_ok 9 v Hv') as [He [Hg Hl]].
  unfold uleb128, enc.
  pose proof (DwarfFacts.sleb_loop_spec (uleb_enc 9 v) rest 0 0 He
                ltac:(lia) ltac:(cbn; lia)) as H.
  change (7 * Z.of_nat 0) with 0 in H; rewrite H.
  rewrite Z.add_0_l, Z.pow_0_r, Z.mul_1_l, Hg, Z.mod_small by lia.
  reflexivity.
Qed.

Lemma enc_length v : (1 <= length (enc v))%nat.
Proof. unfold enc; cbn [uleb_enc]; destruct (v <? 128); cbn [length]; lia. Qed.

Lemma enc_specs_cons s specs :
  enc_specs (s :: specs) = enc (attr s) ++ enc (form s) ++ enc_specs specs.
Proof. unfold enc_specs; cbn [map concat]; rewrite <- !app_assoc; reflexivity. Qed.

Lemma enc_specs_length specs : (length specs < length (enc_specs specs))%nat.
Proof.
  induction specs as [| s specs IH]; [cbn; lia |].
  rewrite enc_specs_cons, !length_app.
  pose proof (enc_length (attr s)); cbn [length]; lia.
Qed.

Lemma read_specs_enc fuel specs rest :
  Forall spec_ok specs -> (length specs < fuel)%nat ->
  read_specs fuel (enc_specs specs ++ rest) = Done (specs, rest).
Proof.
  intros Hall; revert fuel.
  induction Hall as [| s specs [Ha Hf] Hall IH]; intros fuel Hl;
    (destruct fuel as [| fuel]; [cbn in Hl; lia |]).
  - reflexivity.
  - rewrite enc_specs_cons, <- !app_assoc; cbn [read_specs].
    rewrite enc_decode by lia; rewrite enc_decode by exact Hf.
    rewrite (proj2 (Z.eqb_neq _ 0)) by lia.
    rewrite IH by (cbn in Hl; lia).
    destruct s; reflexivity.
Qed.

Lemma length_concat_map {A} (f : A -> list Z) l :
  (forall x, 1 <= length (f x))%nat -> (length l <= length (concat (map f l)))%nat.
Proof.
  intros H; induction l as [| x l IH]; [cbn; lia |].
  cbn [map concat length]; rewrite length_app; specialize (H x); lia.
Qed.

Lemma enc_entry_length ab : (1 <= length (enc_entry ab))%nat.
Proof.
  unfold enc_entry; rewrite length_app; pose proof (enc_length (ab_code ab)); lia.
Qed.

Lemma abbrev_step ab rest table fuel :
  entry_ok ab -> ~ In (ab_code ab) (map fst table) ->
  abbrev_loop (S fuel) (enc_entry ab ++ rest) table =
  abbrev_loop fuel rest (table ++ [(ab_code ab, ab)]).
Proof.
  intros [Hc [Ht Hs]] Hn.
  unfold enc_entry; rewrite <- !app_assoc; cbn [abbrev_loop].
  rewrite enc_decode by lia; rewrite enc_decode by exact Ht.
  cbn [app u8].
  rewrite read_specs_enc;
    [| exact Hs | rewrite length_app; pose proof (enc_specs_length (ab_attr_specs ab)); lia].
  rewrite (proj2 (Z.eqb_neq _ 0)) by lia.
  unfold emplace.
  replace (existsb (fun e => fst e =? ab_code ab) table) with false.
  - destruct ab as [code tag ch specs]; cbn.
    destruct ch; reflexivity.
  - symmetry; apply not_true_iff_false; intros E.
    apply existsb_exists in E as [[k v] [Hin Hk]]; cbn in Hk.
    apply Z.eqb_eq in Hk; subst k.
    apply Hn, (in_map fst _ _ Hin).
Qed.

Lemma abbrev_loop_enc abs table tail fuel :
  Forall entry_ok abs -> NoDup (map ab_code abs) ->
  (forall ab, In ab abs -> ~ In (ab_code ab) (map fst table)) ->
  (length abs < fuel)%nat ->
  abbrev_loop fuel (concat (map enc_entry abs) ++ tail) table =
  abbrev_loop (fuel - length abs) tail
    (table ++ map (fun ab => (ab_code ab, ab)) abs).
Proof.
  intros Hall; revert table fuel.
  induction Hall as [| ab abs Hab Hall IH]; intros table fuel Hnd Hn Hl.
  - cbn; rewrite Nat.sub_0_r, app_nil_r; reflexivity.
  - destruct fuel as [| fuel]; [cbn in Hl; lia |].
    cbn [map concat]; rewrite <- app_assoc.
    rewrite abbrev_step by (try exact Hab; apply Hn; left; reflexivity).
    inversion Hnd as [| ? ? Hni Hnd']; subst.
    rewrite IH; [| exact Hnd' | | cbn in Hl; lia].
    + cbn [length]; rewrite <- app_assoc; reflexivity.
    + intros ab' Hin'; rewrite map_app; cbn [map fst].
      intros Hin; apply in_app_or in Hin as [Hin | [Heq | []]].
      * exact (Hn ab' (or_intror Hin') Hin).
      * apply Hni; rewrite Heq; apply in_map, Hin'.
Qed.

End DwarfAbbrevFacts.

Import DwarfAbbrev.

(** X21: [ParseAbbrevTable] at the offset of a DWARF 4 abbreviation table
    (declarations with distinct non-zero codes, each ended by a 0, 0
    attribute pair, and the table ended by a 0 code) returns every
    declaration under its code, provided the bytes after the table's 0 code
    can still be read as a tag, a children flag and an attribute list: the
    loop reads those before it tests the code. *)
Theorem abbrev_table_round_trip (pre : list Z) (abs : list Abbrev)
    (t h : Z) (ps : list AttrSpec) (rest : list Z) :
  Forall DwarfAbbrevFacts.entry_ok abs -> NoDup (map ab_code abs) ->
  0 <= t < 2 ^ 64 -> Forall DwarfAbbrevFacts.spec_ok ps ->
  ParseAbbrevTable
    (pre ++ DwarfAbbrevFacts.enc_table abs ++ DwarfAbbrevFacts.enc t ++ [h]
         ++ DwarfAbbrevFacts.enc_specs ps ++ rest) (length pre)
  = DwarfOps.Done (map (fun ab => (ab_code ab, ab)) abs).
Proof.
  intros Hall Hnd Ht Hps.
  unfold ParseAbbrevTable.
  rewrite length_app, (proj2 (Nat.ltb_ge _ _)) by lia.
  rewrite skipn_app, skipn_all, Nat.sub_diag, skipn_O, app_nil_l.
  unfold DwarfAbbrevFacts.enc_table; rewrite <- app_assoc.
  pose proof (DwarfAbbrevFacts.length_concat_map DwarfAbbrevFacts.enc_entry abs
                DwarfAbbrevFacts.enc_entry_length) as Hlen.
  rewrite DwarfAbbrevFacts.abbrev_loop_enc;
    [| exact Hall | exact Hnd | intros ab _ [] | rewrite !length_app in *; lia].
  match goal with
  | |- abbrev_loop ?f _ _ = _ =>
      assert (Hf : (1 <= f)%nat) by (rewrite !length_app in *; lia);
      destruct f as [| n]; [lia |]
  end.
  change ([0] ++ ?x) with (DwarfAbbrevFacts.enc 0 ++ x).
  cbn [abbrev_loop].
  rewrite DwarfAbbrevFacts.enc_decode by lia.
  rewrite DwarfAbbrevFacts.enc_decode by exact Ht.
  cbn [app Dwarf.u8].
  rewrite DwarfAbbrevFacts.read_specs_enc;
    [| exact Hps | rewrite length_app;
       pose proof (DwarfAbbrevFacts.enc_specs_length ps); lia].
  reflexivity.
Qed.

Lemma abbrev_table_round_trip_witness :
  ParseAbbrevTable ([7] ++ [1; 17; 1; 3; 8; 19; 11; 0; 0; 2; 46; 0; 3; 8; 0; 0; 0]
                    ++ [1; 17; 0; 0; 0; 0]) 1
  = DwarfOps.Done
      [(1, mkAbbrev 1 17 true [mkAttrSpec 3 8; mkAttrSpec 19 11]);
       (2, mkAbbrev 2 46 false [mkAttrSpec 3 8])].
Proof.
  exact (abbrev_table_round_trip [7]
           [mkAbbrev 1 17 true [mkAttrSpec 3 8; mkAttrSpec 19 11];
            mkAbbrev 2 46 false [mkAttrSpec 3 8]] 1 17 [] [0; 0]
           ltac:(repeat constructor; cbn; lia)
           ltac:(cbn; repeat constructor; cbn; lia)
           ltac:(lia) ltac:(constructor)).
Defined.

(** X22: when the table is the last thing in [.debug_abbrev], as the one
    table of a single compile unit is, [ParseAbbrevTable] reads a tag after
    the table's 0 code and so runs past the end of the section (undefined
    behaviour), whatever the declarations. *)
Theorem abbrev_table_at_end_overreads (pre : list Z) (abs : list Abbrev) :
  Forall DwarfAbbrevFacts.entry_ok abs -> NoDup (map ab_code abs) ->
  ParseAbbrevTable (pre ++ DwarfAbbrevFacts.enc_table abs) (length pre)
  = DwarfOps.Undefined.
Proof.
  intros Hall Hnd.
  unfold ParseAbbrevTable.
  rewrite length_app, (proj2 (Nat.ltb_ge _ _)) by lia.
  rewrite skipn_app, skipn_all, Nat.sub_diag, skipn_O, app_nil_l.
  unfold DwarfAbbrevFacts.enc_table.
  pose proof (DwarfAbbrevFacts.length_concat_map DwarfAbbrevFacts.enc_entry abs
                DwarfAbbrevFacts.enc_entry_length) as Hlen.
  rewrite DwarfAbbrevFacts.abbrev_loop_enc;
    [| exact Hall | exact Hnd | intros ab _ [] | rewrite !length_app in *; lia].
  match goal with
  | |- abbrev_loop ?f _ _ = _ =>
      assert (Hf : (1 <= f)%nat) by (rewrite !length_app in *; lia);
      destruct f as [| n]; [lia |]
  end.
  reflexivity.
Qed.

Lemma abbrev_table_at_end_overreads_witness :
  ParseAbbrevTable [1; 17; 1; 3; 8; 19; 11; 0; 0; 0] 0 = DwarfOps.Undefined.
Proof.
  exact (abbrev_table_at_end_overreads []
           [mkAbbrev 1 17 true [mkAttrSpec 3 8; mkAttrSpec 19 11]]
           ltac:(repeat constructor; cbn; lia)
           ltac:(repeat constructor; cbn; intros [])).
Defined.
